(** * mcp-orchestrator transport layer: a shallow embedding and its properties

    The development follows the TypeScript sources:
    - [Json]         the JavaScript values a message is made of (JSON data);
    - [Codec]        transports/base/message-adapter.ts ([JSONMessageAdapter]);
    - [Tracker]      protocol/correlation-tracker.ts ([CorrelationTracker]);
    - [Router]       protocol/message-router.ts ([MessageRouter]);
    - [Pool]         transports/stdio/process-pool.ts ([ProcessPool]) with the
                     part of container-manager.ts it calls;
    - [Reconnection] transports/websocket/reconnection-handler.ts;
    - [Translator]   protocol/translator.ts ([MessageTranslator]);
    - [Transport]    transports/base/transport-interface.ts ([BaseTransport]);
    - [RateLimit]    the [rateLimit] middleware of protocol/message-router.ts;
    - [CommonTranslator] [addRequestId] and [createCommonTranslator] of
                     protocol/translator.ts;
    - [Stdio]        the reading side of transports/stdio/container-manager.ts;
    - [Sessions]     transports/http/session-manager.ts ([SessionManager]).

    Conventions.  A JavaScript [Error] is a record with its message and its
    optional [code]; a function that may throw (or an async function that may
    reject) returns an [outcome].  Mutable objects are explicit states that the
    operations take and return.  Console output is not modelled, except
    for the translator's log of the rules it applies.  Time ([Date.now()])
    and randomness ([Math.random()]) are arguments. *)

From Stdlib Require Import ZArith QArith Qround Qminmax Qpower Lia.
From Stdlib Require Import Ascii String DecimalString DecimalFacts DecimalPos DecimalZ.
From stdpp Require Import base option list strings gmap.

Set Warnings "-register-all".
Local Open Scope string_scope.
Local Open Scope list_scope.
Local Open Scope Z_scope.

(** ** JavaScript values restricted to JSON data *)

Module Json.

(** Numbers are modelled as integers; an absent property and a property
    holding [undefined] are the same thing ([None] in every lookup).  An
    object is the list of its own properties in enumeration order. *)
Inductive json : Type :=
| JNull
| JBool (b : bool)
| JNum (n : Z)
| JStr (s : string)
| JArr (xs : list json)
| JObj (props : list (string * json)).

Fixpoint json_eqb (a b : json) {struct a} : bool :=
  match a, b with
  | JNull, JNull => true
  | JBool x, JBool y => Bool.eqb x y
  | JNum x, JNum y => Z.eqb x y
  | JStr x, JStr y => String.eqb x y
  | JArr xs, JArr ys =>
      (fix go (xs ys : list json) {struct xs} : bool :=
         match xs, ys with
         | [], [] => true
         | x :: xs', y :: ys' => json_eqb x y && go xs' ys'
         | _, _ => false
         end) xs ys
  | JObj ps, JObj qs =>
      (fix go (ps qs : list (string * json)) {struct ps} : bool :=
         match ps, qs with
         | [], [] => true
         | (k, x) :: ps', (l, y) :: qs' =>
             String.eqb k l && json_eqb x y && go ps' qs'
         | _, _ => false
         end) ps qs
  | _, _ => false
  end.

(** Own-property lookup in a property list. *)
Fixpoint assoc (k : string) (ps : list (string * json)) : option json :=
  match ps with
  | [] => None
  | (k', v) :: ps' => if String.eqb k k' then Some v else assoc k ps'
  end.

(** [o[k] = v]: an existing key keeps its place, a new key goes last. *)
Fixpoint assoc_set (k : string) (v : json) (ps : list (string * json))
  : list (string * json) :=
  match ps with
  | [] => [(k, v)]
  | (k', v') :: ps' =>
      if String.eqb k k' then (k, v) :: ps' else (k', v') :: assoc_set k v ps'
  end.

Fixpoint assoc_delete (k : string) (ps : list (string * json))
  : list (string * json) :=
  match ps with
  | [] => []
  | (k', v') :: ps' =>
      if String.eqb k k' then ps' else (k', v') :: assoc_delete k ps'
  end.

(** [v.k]: [undefined] ([None]) on anything that is not an object with
    that own property. *)
Definition prop (k : string) (v : json) : option json :=
  match v with
  | JObj ps => assoc k ps
  | _ => None
  end.

(** [{...o, k: v}] *)
Definition with_prop (k : string) (v : json) (o : json) : json :=
  match o with
  | JObj ps => JObj (assoc_set k v ps)
  | _ => JObj [(k, v)]
  end.

(** [{...o, k: undefined}] *)
Definition without_prop (k : string) (o : json) : json :=
  match o with
  | JObj ps => JObj (assoc_delete k ps)
  | _ => JObj []
  end.

(** [typeof v === 'object'] *)
Definition typeof_object (v : json) : bool :=
  match v with
  | JNull | JArr _ | JObj _ => true
  | _ => false
  end.

(** [typeof o === 'string'] for a possibly undefined value *)
Definition is_string (o : option json) : bool :=
  match o with
  | Some (JStr _) => true
  | _ => false
  end.

(** [o !== undefined] *)
Definition defined (o : option json) : bool :=
  match o with
  | Some _ => true
  | None => false
  end.

(** JavaScript truthiness: [undefined], [null], [false], [0] and [''] are
    falsy, everything else (arrays and objects included) is truthy. *)
Definition truthy (o : option json) : bool :=
  match o with
  | None => false
  | Some JNull => false
  | Some (JBool b) => b
  | Some (JNum n) => negb (n =? 0)
  | Some (JStr s) => negb (String.eqb s "")
  | Some (JArr _) | Some (JObj _) => true
  end.

(** [o === s] for a string literal [s] *)
Definition is_str (s : string) (o : option json) : bool :=
  match o with
  | Some (JStr s') => String.eqb s' s
  | _ => false
  end.

(** Well-formed values: no object lists a key twice. *)
Fixpoint wf (v : json) : Prop :=
  match v with
  | JArr xs => (fix all (xs : list json) : Prop :=
                  match xs with [] => True | x :: xs' => wf x /\ all xs' end) xs
  | JObj ps => NoDup (map fst ps) /\
               (fix all (ps : list (string * json)) : Prop :=
                  match ps with [] => True | (_, x) :: ps' => wf x /\ all ps' end) ps
  | _ => True
  end.

(** *** [JSON.stringify] on JSON data (compact form, as the codec calls it) *)

Definition dquote : ascii := "034"%char.
Definition backslash : ascii := "092"%char.

Definition hex_digit (n : N) : ascii :=
  match n with
  | 0 => "0" | 1 => "1" | 2 => "2" | 3 => "3" | 4 => "4" | 5 => "5"
  | 6 => "6" | 7 => "7" | 8 => "8" | 9 => "9" | 10 => "a" | 11 => "b"
  | 12 => "c" | 13 => "d" | 14 => "e" | _ => "f"
  end%N%char.

(** The escapes [JSON.stringify] produces: the quote, the backslash, the
    five short control escapes, and [\u00xx] for the other control
    characters. *)
Definition escape (c : ascii) : string :=
  let n := N_of_ascii c in
  if (n =? 34)%N then String backslash (String dquote EmptyString)
  else if (n =? 92)%N then String backslash (String backslash EmptyString)
  else if (n =? 8)%N then String backslash "b"
  else if (n =? 9)%N then String backslash "t"
  else if (n =? 10)%N then String backslash "n"
  else if (n =? 12)%N then String backslash "f"
  else if (n =? 13)%N then String backslash "r"
  else if (n <? 32)%N then
    String backslash
      (String "u" (String "0" (String "0"
         (String (hex_digit (n / 16)) (String (hex_digit (n mod 16)) EmptyString)))))
  else String c EmptyString.

Fixpoint quote_chars (s : string) : string :=
  match s with
  | EmptyString => EmptyString
  | String c s' => escape c +:+ quote_chars s'
  end.

Definition quote (s : string) : string :=
  String dquote (quote_chars s +:+ String dquote EmptyString).

Definition string_of_Z (n : Z) : string := NilZero.string_of_int (Z.to_int n).

Fixpoint stringify (v : json) : string :=
  match v with
  | JNull => "null"
  | JBool true => "true"
  | JBool false => "false"
  | JNum n => string_of_Z n
  | JStr s => quote s
  | JArr xs =>
      "[" +:+
      (fix elems (xs : list json) : string :=
         match xs with
         | [] => "]"
         | [x] => stringify x +:+ "]"
         | x :: xs' => stringify x +:+ "," +:+ elems xs'
         end) xs
  | JObj ps =>
      "{" +:+
      (fix members (ps : list (string * json)) : string :=
         match ps with
         | [] => "}"
         | [(k, x)] => quote k +:+ ":" +:+ stringify x +:+ "}"
         | (k, x) :: ps' => quote k +:+ ":" +:+ stringify x +:+ "," +:+ members ps'
         end) ps
  end.

Definition JSON_stringify : json -> string := stringify.

(** *** [JSON.parse] into the modelled values

    Numbers with a fraction or an exponent and [\u] escapes above [00ff]
    denote values outside the model and are refused like malformed text. *)

Definition is_ws (c : ascii) : bool :=
  let n := N_of_ascii c in
  ((n =? 32) || (n =? 9) || (n =? 10) || (n =? 13))%N.

Fixpoint skip_ws (s : string) : string :=
  match s with
  | String c s' => if is_ws c then skip_ws s' else s
  | EmptyString => s
  end.

Definition hex_value (c : ascii) : option N :=
  let n := N_of_ascii c in
  if ((48 <=? n) && (n <=? 57))%N then Some (n - 48)%N
  else if ((97 <=? n) && (n <=? 102))%N then Some (n - 87)%N
  else if ((65 <=? n) && (n <=? 70))%N then Some (n - 55)%N
  else None.

Definition unescape (e : ascii) : option ascii :=
  let n := N_of_ascii e in
  if (n =? 34)%N then Some dquote
  else if (n =? 92)%N then Some backslash
  else if (n =? 47)%N then Some "/"%char
  else if (n =? 98)%N then Some "008"%char
  else if (n =? 116)%N then Some "009"%char
  else if (n =? 110)%N then Some "010"%char
  else if (n =? 102)%N then Some "012"%char
  else if (n =? 114)%N then Some "013"%char
  else None.

(** The characters of a string literal, after its opening quote. *)
Fixpoint parse_chars (s : string) : option (string * string) :=
  match s with
  | EmptyString => None
  | String c s' =>
      if Ascii.eqb c dquote then Some (EmptyString, s')
      else if Ascii.eqb c backslash then
        match s' with
        | String e s'' =>
            match unescape e with
            | Some c' =>
                match parse_chars s'' with
                | Some (str, r) => Some (String c' str, r)
                | None => None
                end
            | None =>
                if Ascii.eqb e "u" then
                  match s'' with
                  | String h1 (String h2 (String h3 (String h4 t))) =>
                      match hex_value h1, hex_value h2, hex_value h3, hex_value h4 with
                      | Some 0%N, Some 0%N, Some a, Some b =>
                          match parse_chars t with
                          | Some (str, r) =>
                              Some (String (ascii_of_N (16 * a + b)) str, r)
                          | None => None
                          end
                      | _, _, _, _ => None
                      end
                  | _ => None
                  end
                else None
            end
        | EmptyString => None
        end
      else if (N_of_ascii c <? 32)%N then None
      else
        match parse_chars s' with
        | Some (str, r) => Some (String c str, r)
        | None => None
        end
  end.

Definition digit_of (c : ascii) : option (Decimal.uint -> Decimal.uint) :=
  match N_of_ascii c with
  | 48 => Some Decimal.D0 | 49 => Some Decimal.D1 | 50 => Some Decimal.D2
  | 51 => Some Decimal.D3 | 52 => Some Decimal.D4 | 53 => Some Decimal.D5
  | 54 => Some Decimal.D6 | 55 => Some Decimal.D7 | 56 => Some Decimal.D8
  | 57 => Some Decimal.D9 | _ => None
  end%N.

(** The longest run of decimal digits at the head of [s]. *)
Fixpoint parse_uint (s : string) : Decimal.uint * string :=
  match s with
  | EmptyString => (Decimal.Nil, s)
  | String c s' =>
      match digit_of c with
      | Some d => let (u, r) := parse_uint s' in (d u, r)
      | None => (Decimal.Nil, s)
      end
  end.

Definition starts_fraction (s : string) : bool :=
  match s with
  | String c _ => Ascii.eqb c "." || Ascii.eqb c "e" || Ascii.eqb c "E"
  | EmptyString => false
  end.

Definition parse_number (s : string) : option (Z * string) :=
  let (neg, s1) :=
    match s with
    | String c s' => if Ascii.eqb c "-" then (true, s') else (false, s)
    | EmptyString => (false, s)
    end in
  let (u, r) := parse_uint s1 in
  match u with
  | Decimal.Nil => None
  | _ =>
      if negb (Decimal.uint_beq (Decimal.unorm u) u) then None
      else if starts_fraction r then None
      else Some (if neg then - Z.of_uint u else Z.of_uint u, r)
  end.

(** The rest of a keyword: [s] without [lit] in front, if it is there. *)
Fixpoint expect (lit s : string) : option string :=
  match lit with
  | EmptyString => Some s
  | String c lit' =>
      match s with
      | EmptyString => None
      | String c' s' => if Ascii.eqb c c' then expect lit' s' else None
      end
  end.

Definition keyword (lit : string) (v : json) (s : string) : option (json * string) :=
  match expect lit s with
  | Some r => Some (v, r)
  | None => None
  end.

(** The properties of a parsed object: a repeated key keeps its first
    place and takes the last value. *)
Definition object_of (ms : list (string * json)) : json :=
  JObj (fold_left (fun acc kv => assoc_set kv.1 kv.2 acc) ms []).

Fixpoint parse_value (fuel : nat) (s : string) : option (json * string) :=
  match fuel with
  | O => None
  | S fuel =>
      match skip_ws s with
      | EmptyString => None
      | String c rest =>
          if Ascii.eqb c "n" then keyword "ull" JNull rest
          else if Ascii.eqb c "t" then keyword "rue" (JBool true) rest
          else if Ascii.eqb c "f" then keyword "alse" (JBool false) rest
          else if Ascii.eqb c dquote then
            match parse_chars rest with
            | Some (str, r) => Some (JStr str, r)
            | None => None
            end
          else if Ascii.eqb c "[" then
            match skip_ws rest with
            | EmptyString => None
            | String c' r =>
                if Ascii.eqb c' "]" then Some (JArr [], r)
                else
                  match parse_elements fuel rest with
                  | Some (xs, r') => Some (JArr xs, r')
                  | None => None
                  end
            end
          else if Ascii.eqb c "{" then
            match skip_ws rest with
            | EmptyString => None
            | String c' r =>
                if Ascii.eqb c' "}" then Some (JObj [], r)
                else
                  match parse_members fuel rest with
                  | Some (ms, r') => Some (object_of ms, r')
                  | None => None
                  end
            end
          else
            match parse_number (String c rest) with
            | Some (n, r) => Some (JNum n, r)
            | None => None
            end
      end
  end
with parse_elements (fuel : nat) (s : string) : option (list json * string) :=
  match fuel with
  | O => None
  | S fuel =>
      match parse_value fuel s with
      | None => None
      | Some (v, r) =>
          match skip_ws r with
          | EmptyString => None
          | String c r' =>
              if Ascii.eqb c "," then
                match parse_elements fuel r' with
                | Some (vs, r'') => Some (v :: vs, r'')
                | None => None
                end
              else if Ascii.eqb c "]" then Some ([v], r')
              else None
          end
      end
  end
with parse_members (fuel : nat) (s : string)
  : option (list (string * json) * string) :=
  match fuel with
  | O => None
  | S fuel =>
      match skip_ws s with
      | EmptyString => None
      | String q r0 =>
          if negb (Ascii.eqb q dquote) then None
          else
            match parse_chars r0 with
            | None => None
            | Some (k, r1) =>
                match skip_ws r1 with
                | EmptyString => None
                | String c r2 =>
                    if negb (Ascii.eqb c ":") then None
                    else
                      match parse_value fuel r2 with
                      | None => None
                      | Some (v, r3) =>
                          match skip_ws r3 with
                          | EmptyString => None
                          | String c' r4 =>
                              if Ascii.eqb c' "," then
                                match parse_members fuel r4 with
                                | Some (ms, r5) => Some ((k, v) :: ms, r5)
                                | None => None
                                end
                              else if Ascii.eqb c' "}" then Some ([(k, v)], r4)
                              else None
                          end
                      end
                end
            end
      end
  end.

(** [JSON.parse]: [None] stands for its [SyntaxError]. *)
Definition JSON_parse (s : string) : option json :=
  match parse_value (S (String.length s)) s with
  | Some (v, r) =>
      match skip_ws r with
      | EmptyString => Some v
      | String _ _ => None
      end
  | None => None
  end.

(** [String(v)], as template literals and property keys apply it. *)
Fixpoint ToString (v : json) : string :=
  match v with
  | JNull => "null"
  | JBool true => "true"
  | JBool false => "false"
  | JNum n => string_of_Z n
  | JStr s => s
  | JArr xs =>
      (fix join (xs : list json) : string :=
         match xs with
         | [] => EmptyString
         | [x] => match x with JNull => EmptyString | _ => ToString x end
         | x :: xs' =>
             match x with JNull => EmptyString | _ => ToString x end
             +:+ "," +:+ join xs'
         end) xs
  | JObj _ => "[object Object]"
  end.

(** [a || b] on possibly undefined values *)
Definition js_or (a : option json) (b : json) : json :=
  match a with
  | Some v => if truthy a then v else b
  | None => b
  end.

End Json.
Export Json.

(** ** Errors and results *)

(** [new Error(msg)], with the [code] and [data] properties some call
    sites attach to it. *)
Record Error := mkError {
  message : string;
  code : option json;
  data : option json
}.

Definition error (msg : string) : Error := mkError msg None None.

Definition error_with_code (msg : string) (c : Z) : Error :=
  mkError msg (Some (JNum c)) None.

Inductive outcome (A : Type) : Type :=
| Ok (a : A)
| Throw (e : Error).
Arguments Ok {A} a.
Arguments Throw {A} e.

Definition is_ok {A} (r : outcome A) : bool :=
  match r with Ok _ => true | Throw _ => false end.

(** ** The codec: [JSONMessageAdapter] *)

Module Codec.

(** [serialize]: [JSON.stringify] does not throw on JSON data, so the
    [catch] branch is never taken and the result is the text itself. *)
Definition serialize (message : json) : string := JSON_stringify message.

Definition validate (message : json) : bool :=
  if negb (typeof_object message) || json_eqb message JNull then false
  else if negb (is_str "2.0" (prop "jsonrpc" message)) then false
  else
    let isRequest :=
      is_string (prop "method" message) && defined (prop "id" message) in
    let isResponse :=
      (defined (prop "result" message) || defined (prop "error" message))
      && defined (prop "id" message) in
    let isNotification :=
      is_string (prop "method" message) && negb (defined (prop "id" message)) in
    isRequest || isResponse || isNotification.

(** The text of the engine's [SyntaxError] is not modelled. *)
Definition SyntaxError_message : string := "SyntaxError".

Definition invalid_format : Error :=
  error "Failed to deserialize message: Invalid MCP message format".

Definition parse_failure : Error :=
  error ("Failed to deserialize message: " +:+ SyntaxError_message).

(** [deserialize]: a [Buffer] is the text it decodes to. *)
Definition deserialize (data : string) : outcome json :=
  match JSON_parse data with
  | None => Throw parse_failure
  | Some parsed =>
      if negb (validate parsed) then Throw invalid_format else Ok parsed
  end.

End Codec.


(** ** The correlation tracker: [CorrelationTracker] *)

Module Tracker.

(** A JavaScript [Map]: entries in insertion order, keys compared by
    SameValueZero, which on the primitive ids the envelope admits is
    equality of values. *)
Section JsMap.
Context {V : Type}.

Fixpoint map_get (k : json) (m : list (json * V)) : option V :=
  match m with
  | [] => None
  | (k', v) :: m' => if json_eqb k k' then Some v else map_get k m'
  end.

Definition map_has (k : json) (m : list (json * V)) : bool :=
  match map_get k m with Some _ => true | None => false end.

Fixpoint map_set (k : json) (v : V) (m : list (json * V)) : list (json * V) :=
  match m with
  | [] => [(k, v)]
  | (k', v') :: m' =>
      if json_eqb k k' then (k', v) :: m' else (k', v') :: map_set k v m'
  end.

Definition map_delete (k : json) (m : list (json * V)) : list (json * V) :=
  filter (fun e => negb (json_eqb k e.1) = true) m.
End JsMap.

(** How a promise handed out by the tracker was settled. *)
Inductive settlement : Type :=
| Resolved (response : json)
| Rejected (e : Error).

(** [timeout] is the handle of the armed timer; [waiter] stands for the
    [resolve]/[reject] pair, named by the promise it settles; [obj] is the
    identity of the record itself, which [retryRequest] keeps a reference
    to across its [await]. *)
Record PendingRequest := mkPending {
  pr_id : json;
  pr_method : json;
  timestamp : Z;
  timeout : nat;
  waiter : nat;
  retries : Z;
  maxRetries : Z;
  obj : nat
}.

Record CorrelationConfig := mkConfig {
  defaultTimeout : Z;
  cfg_maxRetries : Z;
  cleanupInterval : Z;
  enableMetrics : bool
}.

(** [averageResponseTime] is a function of [responseTimes] (see
    [averageResponseTime] below) and is not stored. *)
Record CorrelationMetrics := mkMetrics {
  pendingRequests : Z;
  completedRequests : Z;
  timedOutRequests : Z;
  erroredRequests : Z;
  requestCounts : gmap string Z
}.

Record Tracker := mkTracker {
  config : CorrelationConfig;
  pending : list (json * PendingRequest);
  metrics : CorrelationMetrics;
  responseTimes : list Z;
  (** armed one-shot timers: handle, the request id its callback names,
      the delay *)
  timers : list (nat * (json * Z));
  cleanupTimer : bool;
  next_handle : nat;
  next_promise : nat;
  next_obj : nat;
  (** every call of a [resolve] or [reject], oldest first *)
  settled : list (nat * settlement)
}.

Definition empty_metrics (n : Z) : CorrelationMetrics :=
  mkMetrics n 0 0 0 ∅.

Definition new_tracker (cfg : CorrelationConfig) : Tracker :=
  mkTracker cfg [] (empty_metrics 0) [] [] true 0 0 0 [].

Definition set_pending (f : list (json * PendingRequest) -> list (json * PendingRequest))
  (t : Tracker) : Tracker :=
  mkTracker (config t) (f (pending t)) (metrics t) (responseTimes t) (timers t)
    (cleanupTimer t) (next_handle t) (next_promise t) (next_obj t) (settled t).

Definition set_metrics (f : CorrelationMetrics -> CorrelationMetrics)
  (t : Tracker) : Tracker :=
  mkTracker (config t) (pending t) (f (metrics t)) (responseTimes t) (timers t)
    (cleanupTimer t) (next_handle t) (next_promise t) (next_obj t) (settled t).

Definition set_responseTimes (f : list Z -> list Z) (t : Tracker) : Tracker :=
  mkTracker (config t) (pending t) (metrics t) (f (responseTimes t)) (timers t)
    (cleanupTimer t) (next_handle t) (next_promise t) (next_obj t) (settled t).

(** [setTimeout(() => this.handleTimeout(id), delay)] *)
Definition setTimeout (id : json) (delay : Z) (t : Tracker) : nat * Tracker :=
  (next_handle t,
   mkTracker (config t) (pending t) (metrics t) (responseTimes t)
     (timers t ++ [(next_handle t, (id, delay))])
     (cleanupTimer t) (S (next_handle t)) (next_promise t) (next_obj t) (settled t)).

Definition clearTimeout (h : nat) (t : Tracker) : Tracker :=
  mkTracker (config t) (pending t) (metrics t) (responseTimes t)
    (filter (fun e => e.1 <> h) (timers t))
    (cleanupTimer t) (next_handle t) (next_promise t) (next_obj t) (settled t).

(** [new Promise((resolve, reject) => ...)] *)
Definition new_promise (t : Tracker) : nat * Tracker :=
  (next_promise t,
   mkTracker (config t) (pending t) (metrics t) (responseTimes t) (timers t)
     (cleanupTimer t) (next_handle t) (S (next_promise t)) (next_obj t) (settled t)).

Definition new_obj (t : Tracker) : nat * Tracker :=
  (next_obj t,
   mkTracker (config t) (pending t) (metrics t) (responseTimes t) (timers t)
     (cleanupTimer t) (next_handle t) (next_promise t) (S (next_obj t)) (settled t)).

(** A call of [request.resolve] or [request.reject]. *)
Definition settle (p : nat) (o : settlement) (t : Tracker) : Tracker :=
  mkTracker (config t) (pending t) (metrics t) (responseTimes t) (timers t)
    (cleanupTimer t) (next_handle t) (next_promise t) (next_obj t)
    (settled t ++ [(p, o)]).

(** [n || d] for an optional number *)
Definition num_or (n : option Z) (d : Z) : Z :=
  match n with
  | Some v => if (v =? 0)%Z then d else v
  | None => d
  end.

Definition no_id_error : Error :=
  error "Message must have an ID for correlation tracking".

Definition already_tracked_error (id : json) : Error :=
  error ("Request with ID " +:+ ToString id +:+ " is already being tracked").

Definition count_request (m : string) (c : CorrelationMetrics) : CorrelationMetrics :=
  mkMetrics (pendingRequests c + 1) (completedRequests c) (timedOutRequests c)
    (erroredRequests c)
    (<[m := num_or (requestCounts c !! m) 0 + 1]> (requestCounts c)).

(** [trackRequest]: the result is the promise the caller waits on. *)
Definition trackRequest (t : Tracker) (msg : json) (tmo maxR : option Z) (now : Z)
  : outcome nat * Tracker :=
  if negb (truthy (prop "id" msg)) then (Throw no_id_error, t)
  else
    match prop "id" msg with
    | None => (Throw no_id_error, t)
    | Some id =>
        if map_has id (pending t) then (Throw (already_tracked_error id), t)
        else
          let (p, t1) := new_promise t in
          let requestTimeout := num_or tmo (defaultTimeout (config t)) in
          let requestMaxRetries := num_or maxR (cfg_maxRetries (config t)) in
          let (h, t2) := setTimeout id requestTimeout t1 in
          let (o, t3) := new_obj t2 in
          let pendingRequest :=
            mkPending id (js_or (prop "method" msg) (JStr "unknown")) now h p 0
              requestMaxRetries o in
          let t4 := set_pending (map_set id pendingRequest) t3 in
          let t5 :=
            if enableMetrics (config t)
            then set_metrics (count_request (ToString (pr_method pendingRequest))) t4
            else t4 in
          (Ok p, t5)
    end.

Definition updateMetrics (request : PendingRequest) (isError : bool) (now : Z)
  (t : Tracker) : Tracker :=
  let responseTime := now - timestamp request in
  let t1 :=
    set_metrics (fun c => mkMetrics (pendingRequests c - 1) (completedRequests c)
                            (timedOutRequests c) (erroredRequests c) (requestCounts c)) t in
  if isError then
    set_metrics (fun c => mkMetrics (pendingRequests c) (completedRequests c)
                            (timedOutRequests c) (erroredRequests c + 1) (requestCounts c)) t1
  else
    let t2 :=
      set_metrics (fun c => mkMetrics (pendingRequests c) (completedRequests c + 1)
                              (timedOutRequests c) (erroredRequests c) (requestCounts c)) t1 in
    set_responseTimes
      (fun l => let l' := l ++ [responseTime] in
                if decide (1000 < length l')%nat
                then drop (length l' - 1000)%nat l' else l') t2.

(** The error [handleResponse] builds from the response's [error]. *)
Definition response_error (e : json) : Error :=
  mkError (match prop "message" e with Some m => ToString m | None => EmptyString end)
    (prop "code" e) (prop "data" e).

Definition handleResponse (t : Tracker) (response : json) (now : Z) : bool * Tracker :=
  if negb (truthy (prop "id" response)) then (false, t)
  else
    match prop "id" response with
    | None => (false, t)
    | Some id =>
        match map_get id (pending t) with
        | None => (false, t)
        | Some pendingRequest =>
            let t1 := clearTimeout (timeout pendingRequest) t in
            let t2 := set_pending (map_delete id) t1 in
            let t3 :=
              if enableMetrics (config t) then updateMetrics pendingRequest false now t2
              else t2 in
            let t4 :=
              match prop "error" response with
              | Some e =>
                  if truthy (Some e)
                  then settle (waiter pendingRequest) (Rejected (response_error e)) t3
                  else settle (waiter pendingRequest) (Resolved response) t3
              | None => settle (waiter pendingRequest) (Resolved response) t3
              end in
            (true, t4)
        end
    end.

Definition timeout_error (t : Tracker) (requestId : json) : Error :=
  error_with_code
    ("Request " +:+ ToString requestId +:+ " timed out after "
     +:+ string_of_Z (defaultTimeout (config t)) +:+ "ms")
    (-32603).

Definition handleTimeout (t : Tracker) (requestId : json) : Tracker :=
  match map_get requestId (pending t) with
  | None => t
  | Some pendingRequest =>
      let t1 := set_pending (map_delete requestId) t in
      let t2 :=
        if enableMetrics (config t)
        then set_metrics (fun c => mkMetrics (pendingRequests c - 1) (completedRequests c)
                                     (timedOutRequests c + 1) (erroredRequests c)
                                     (requestCounts c)) t1
        else t1 in
      settle (waiter pendingRequest) (Rejected (timeout_error t requestId)) t2
  end.

(** The armed timer [h] fires: it is spent, and its callback runs. *)
Definition fire_timer (t : Tracker) (h : nat) : Tracker :=
  match list_find (fun e => e.1 = h) (timers t) with
  | None => t
  | Some (_, (_, (id, _))) => handleTimeout (clearTimeout h t) id
  end.

Definition max_retries_error (pr : PendingRequest) (id : json) : Error :=
  error ("Max retries (" +:+ string_of_Z (maxRetries pr)
         +:+ ") exceeded for request " +:+ ToString id).

(** [retryRequest] up to its [await sendFn(originalMessage)]: the checks,
    and the updates of the record that the map holds.  The result is the
    record [retryRequest] goes on with. *)
Definition retryRequest_begin (t : Tracker) (originalMessage : json) (now : Z)
  : outcome PendingRequest * Tracker :=
  if negb (truthy (prop "id" originalMessage))
  then (Throw (error "Cannot retry message without ID"), t)
  else
    match prop "id" originalMessage with
    | None => (Throw (error "Cannot retry message without ID"), t)
    | Some id =>
        match map_get id (pending t) with
        | None =>
            (Throw (error ("No pending request found for ID " +:+ ToString id)), t)
        | Some pendingRequest =>
            if (maxRetries pendingRequest <=? retries pendingRequest)%Z then
              let t1 := set_pending (map_delete id) t in
              let t2 := clearTimeout (timeout pendingRequest) t1 in
              let e := max_retries_error pendingRequest id in
              (Throw e, settle (waiter pendingRequest) (Rejected e) t2)
            else
              let t1 := clearTimeout (timeout pendingRequest) t in
              let (h, t2) := setTimeout id (defaultTimeout (config t)) t1 in
              let pendingRequest' :=
                mkPending (pr_id pendingRequest) (pr_method pendingRequest) now h
                  (waiter pendingRequest) (retries pendingRequest + 1)
                  (maxRetries pendingRequest) (obj pendingRequest) in
              (Ok pendingRequest', set_pending (map_set id pendingRequest') t2)
        end
    end.

(** [retryRequest] from the settlement of [sendFn] on: [pendingRequest] is
    the record the function still refers to, whether or not the map still
    holds it. *)
Definition retryRequest_sent (t : Tracker) (id : json)
  (pendingRequest : PendingRequest) (sent : outcome unit)
  : outcome nat * Tracker :=
  match sent with
  | Ok _ =>
      let (p, t1) := new_promise t in
      (Ok p,
       set_pending
         (map (fun e : json * PendingRequest =>
                 if Nat.eqb (obj e.2) (obj pendingRequest)
                 then (e.1, mkPending (pr_id e.2) (pr_method e.2) (timestamp e.2)
                              (timeout e.2) p (retries e.2) (maxRetries e.2) (obj e.2))
                 else e)) t1)
  | Throw e =>
      let t1 := set_pending (map_delete id) t in
      let t2 := clearTimeout (timeout pendingRequest) t1 in
      (Throw e, settle (waiter pendingRequest) (Rejected e) t2)
  end.

(** [retryRequest] when nothing else runs while [sendFn] is awaited. *)
Definition retryRequest (t : Tracker) (originalMessage : json) (now : Z)
  (sendFn : json -> outcome unit) : outcome nat * Tracker :=
  match retryRequest_begin t originalMessage now with
  | (Throw e, t') => (Throw e, t')
  | (Ok pendingRequest, t') =>
      retryRequest_sent t' (pr_id pendingRequest) pendingRequest
        (sendFn originalMessage)
  end.

Definition cancelled_error (requestId : json) : Error :=
  error_with_code ("Request " +:+ ToString requestId +:+ " was cancelled") (-32800).

Definition cancelRequest (t : Tracker) (requestId : json) : bool * Tracker :=
  match map_get requestId (pending t) with
  | None => (false, t)
  | Some pendingRequest =>
      let t1 := clearTimeout (timeout pendingRequest) t in
      let t2 := set_pending (map_delete requestId) t1 in
      let t3 :=
        if enableMetrics (config t)
        then set_metrics (fun c => mkMetrics (pendingRequests c - 1) (completedRequests c)
                                     (timedOutRequests c) (erroredRequests c)
                                     (requestCounts c)) t2
        else t2 in
      (true, settle (waiter pendingRequest) (Rejected (cancelled_error requestId)) t3)
  end.

Definition all_cancelled_error : Error :=
  error_with_code "All requests cancelled" (-32800).

Definition cancelAllRequests (t : Tracker) : nat * Tracker :=
  let count := length (pending t) in
  let t1 :=
    fold_left
      (fun acc (e : json * PendingRequest) =>
         settle (waiter e.2) (Rejected all_cancelled_error)
           (clearTimeout (timeout e.2) acc))
      (pending t) t in
  let t2 := set_pending (fun _ => []) t1 in
  let t3 :=
    if enableMetrics (config t)
    then set_metrics (fun c => mkMetrics 0 (completedRequests c) (timedOutRequests c)
                                 (erroredRequests c) (requestCounts c)) t2
    else t2 in
  (count, t3).

Definition getPendingRequest (t : Tracker) (requestId : json) : option PendingRequest :=
  map_get requestId (pending t).

Definition getPendingRequestIds (t : Tracker) : list json := map fst (pending t).

Definition getPendingCount (t : Tracker) : nat := length (pending t).

(** The sweep of the cleanup timer. *)
Definition cleanupStaleRequests (t : Tracker) (now : Z) : Tracker :=
  let staleRequests :=
    map fst
      (filter (fun e : json * PendingRequest =>
                 defaultTimeout (config t) * 2 < now - timestamp e.2)
         (pending t)) in
  fold_left (fun acc id => (cancelRequest acc id).2) staleRequests t.

(** The value the source keeps in [metrics.averageResponseTime]. *)
Definition averageResponseTime (t : Tracker) : Q :=
  match responseTimes t with
  | [] => 0%Q
  | l => (inject_Z (fold_left Z.add l 0%Z) / inject_Z (Z.of_nat (length l)))%Q
  end.

Definition getMetrics (t : Tracker) : CorrelationMetrics := metrics t.

Definition resetMetrics (t : Tracker) : Tracker :=
  set_responseTimes (fun _ => [])
    (set_metrics (fun _ => empty_metrics (Z.of_nat (length (pending t)))) t).

Definition shutdown (t : Tracker) : Tracker :=
  let t1 :=
    mkTracker (config t) (pending t) (metrics t) (responseTimes t) (timers t)
      false (next_handle t) (next_promise t) (next_obj t) (settled t) in
  (cancelAllRequests t1).2.

(** What can happen to a tracker, one atomic step each: the calls of its
    methods, the expiry of an armed timer, and the two halves of
    [retryRequest] around its [await]. *)
Inductive event : Type :=
| EvTrack (msg : json) (tmo maxR : option Z) (now : Z)
| EvResponse (response : json) (now : Z)
| EvTimer (h : nat)
| EvRetryBegin (originalMessage : json) (now : Z)
| EvRetrySent (id : json) (pendingRequest : PendingRequest) (sent : outcome unit)
| EvRetry (originalMessage : json) (now : Z) (sendFn : json -> outcome unit)
| EvCancel (requestId : json)
| EvCancelAll
| EvCleanup (now : Z)
| EvResetMetrics
| EvShutdown.

Definition step (t : Tracker) (ev : event) : Tracker :=
  match ev with
  | EvTrack msg tmo maxR now => (trackRequest t msg tmo maxR now).2
  | EvResponse response now => (handleResponse t response now).2
  | EvTimer h => fire_timer t h
  | EvRetryBegin m now => (retryRequest_begin t m now).2
  | EvRetrySent id pr sent => (retryRequest_sent t id pr sent).2
  | EvRetry m now sendFn => (retryRequest t m now sendFn).2
  | EvCancel id => (cancelRequest t id).2
  | EvCancelAll => (cancelAllRequests t).2
  | EvCleanup now => cleanupStaleRequests t now
  | EvResetMetrics => resetMetrics t
  | EvShutdown => shutdown t
  end.

Inductive reachable (cfg : CorrelationConfig) : Tracker -> Prop :=
| reachable_new : reachable cfg (new_tracker cfg)
| reachable_step t ev : reachable cfg t -> reachable cfg (step t ev).

End Tracker.

(** ** The router: [MessageRouter] *)

Module Router.

Record MessageTransformer := mkTransformer {
  t_name : string;
  transform : json -> outcome json
}.

(** What a middleware does with the [next] it is given, as far as the
    router can tell: it settles, or it awaits [next()] and goes on from
    the outcome. *)
Inductive chain_prog : Type :=
| Resolve
| Reject (e : Error)
| AwaitNext (k : outcome unit -> chain_prog).

Record RouteMiddleware := mkMiddleware {
  m_name : string;
  execute : json -> chain_prog
}.

Record MessageHandler := mkHandler {
  handle : json -> outcome unit
}.

(** The [{name}] placeholders of a string pattern, as
    [replace(/\{([^}]+)\}/g, '(?<$1>[^/]+)')] rewrites them.  [open] holds
    the characters read since a brace that may still open a placeholder. *)
Fixpoint replace_placeholders (s : string) (open : option string) : string :=
  match s, open with
  | EmptyString, None => EmptyString
  | EmptyString, Some name => String "{" name
  | String c s', None =>
      if Ascii.eqb c "{" then replace_placeholders s' (Some EmptyString)
      else String c (replace_placeholders s' None)
  | String c s', Some name =>
      if Ascii.eqb c "}" then
        match name with
        | EmptyString => String "{" (String "}" (replace_placeholders s' None))
        | _ => "(?<" +:+ name +:+ ">[^/]+)" +:+ replace_placeholders s' None
        end
      else replace_placeholders s' (Some (name +:+ String c EmptyString))
  end.

(** [replace(/\*/g, '.*')] *)
Fixpoint replace_stars (s : string) : string :=
  match s with
  | EmptyString => EmptyString
  | String c s' =>
      if Ascii.eqb c "*" then String "." (String "*" (replace_stars s'))
      else String c (replace_stars s')
  end.

Definition regexPattern (pattern : string) : string :=
  replace_stars (replace_placeholders pattern None).

Section Engine.
(** The regular-expression engine of the platform: compiled expressions,
    [new RegExp(source)] ([None] when it throws its [SyntaxError]) and
    [method.match(regex)] reduced to what the router reads from it, the
    named groups of a match ([match.groups || {}]). *)
Variable RegExp : Type.
Variable RegExp_new : string -> option RegExp.
Variable RegExp_match : string -> RegExp -> option (list (string * string)).

Inductive Pattern : Type :=
| PString (pattern : string)
| PRegExp (pattern : RegExp).

Record RouteConfig := mkRoute {
  pattern : Pattern;
  destination : string;
  transformers : list MessageTransformer;
  middleware : list RouteMiddleware
}.

Record RouteMatch := mkMatch {
  route_of : RouteConfig;
  params : list (string * string)
}.

Record MessageRouter := mkRouter {
  routes : list RouteConfig;
  globalMiddleware : list RouteMiddleware;
  destinations : gmap string MessageHandler
}.

Definition new_router : MessageRouter := mkRouter [] [] ∅.

Definition addRoute (r : MessageRouter) (config : RouteConfig) : MessageRouter :=
  mkRouter (routes r ++ [config]) (globalMiddleware r) (destinations r).

Definition addRoutes (r : MessageRouter) (configs : list RouteConfig) : MessageRouter :=
  fold_left addRoute configs r.

Definition registerDestination (r : MessageRouter) (name : string)
  (handler : MessageHandler) : MessageRouter :=
  mkRouter (routes r) (globalMiddleware r) (<[name := handler]> (destinations r)).

Definition addGlobalMiddleware (r : MessageRouter) (mw : RouteMiddleware)
  : MessageRouter :=
  mkRouter (routes r) (globalMiddleware r ++ [mw]) (destinations r).

Definition invalid_regexp (source : string) : Error :=
  error ("Invalid regular expression: /" +:+ source +:+ "/").

Definition matchStringPattern (method pattern : string)
  : outcome (option (list (string * string))) :=
  let source := "^" +:+ regexPattern pattern +:+ "$" in
  match RegExp_new source with
  | None => Throw (invalid_regexp source)
  | Some regex => Ok (RegExp_match method regex)
  end.

Definition matchRoute (method : string) (route : RouteConfig)
  : outcome (option (list (string * string))) :=
  match pattern route with
  | PString p => matchStringPattern method p
  | PRegExp re => Ok (RegExp_match method re)
  end.

(** [message.method || ''], a string in every typed message *)
Definition method_or (message : json) (default : string) : string :=
  ToString (js_or (prop "method" message) (JStr default)).

Fixpoint collect_matches (method : string) (rs : list RouteConfig)
  : outcome (list RouteMatch) :=
  match rs with
  | [] => Ok []
  | route :: rs' =>
      match matchRoute method route with
      | Throw e => Throw e
      | Ok m =>
          match collect_matches method rs' with
          | Throw e => Throw e
          | Ok matches =>
              match m with
              | Some ps => Ok (mkMatch route ps :: matches)
              | None => Ok matches
              end
          end
      end
  end.

Definition findMatches (r : MessageRouter) (message : json)
  : outcome (list RouteMatch) :=
  collect_matches (method_or message EmptyString) (routes r).

Definition applyTransformer (message : json) (transformer : MessageTransformer)
  : outcome json :=
  transform transformer message.

Fixpoint applyTransformers (message : json) (ts : list MessageTransformer)
  : outcome json :=
  match ts with
  | [] => Ok message
  | transformer :: ts' =>
      match applyTransformer message transformer with
      | Throw e => Throw e
      | Ok message' => applyTransformers message' ts'
      end
  end.

(** The state a chain runs in: the [index] its [next] closes over, and
    the record of what the destination handlers were given, oldest
    first. *)
Record chain_state := mkChain {
  index : nat;
  deliveries : list (string * json)
}.

Definition not_found (destinationName : string) : Error :=
  error ("Destination '" +:+ destinationName +:+ "' not found").

Definition sendToDestination (r : MessageRouter) (message : json)
  (destinationName : string) (s : chain_state) : outcome unit * chain_state :=
  match destinations r !! destinationName with
  | None => (Throw (not_found destinationName), s)
  | Some handler =>
      (handle handler message,
       mkChain (index s) (deliveries s ++ [(destinationName, message)]))
  end.

(** Running what a middleware does, with the [next] at hand. *)
Fixpoint run_prog (next : chain_state -> option (outcome unit * chain_state))
  (p : chain_prog) (s : chain_state) : option (outcome unit * chain_state) :=
  match p with
  | Resolve => Some (Ok tt, s)
  | Reject e => Some (Throw e, s)
  | AwaitNext k =>
      match next s with
      | None => None
      | Some (r, s') => run_prog next (k r) s'
      end
  end.

(** The closure [next] of [executeMiddlewareChain].  It calls itself
    through the middleware, one level deeper each time the index has
    advanced; [fuel] bounds that depth and [None] means it ran out. *)
Fixpoint next (fuel : nat) (message : json) (mws : list RouteMiddleware)
  (finalHandler : chain_state -> outcome unit * chain_state)
  (s : chain_state) : option (outcome unit * chain_state) :=
  if (length mws <=? index s)%nat then Some (finalHandler s)
  else
    match fuel with
    | O => None
    | S fuel' =>
        match mws !! index s with
        | None => None
        | Some currentMiddleware =>
            run_prog (next fuel' message mws finalHandler)
              (execute currentMiddleware message)
              (mkChain (S (index s)) (deliveries s))
        end
    end.

Definition executeMiddlewareChain (message : json) (mws : list RouteMiddleware)
  (finalHandler : chain_state -> outcome unit * chain_state)
  (delivered : list (string * json))
  : option (outcome unit * list (string * json)) :=
  match next (length mws) message mws finalHandler (mkChain 0 delivered) with
  | None => None
  | Some (r, s) => Some (r, deliveries s)
  end.

Definition processRoute (r : MessageRouter) (message : json) (m : RouteMatch)
  (delivered : list (string * json))
  : option (outcome unit * list (string * json)) :=
  match applyTransformers message (transformers (route_of m)) with
  | Throw e => Some (Throw e, delivered)
  | Ok processedMessage =>
      executeMiddlewareChain processedMessage
        (globalMiddleware r ++ middleware (route_of m))
        (sendToDestination r processedMessage (destination (route_of m)))
        delivered
  end.

(** [Promise.all] over the matches: every route is processed, whatever
    becomes of the others, and the call fails with a failure of one of
    them (here the first in route order) if there is one.  The routes
    are run one after the other. *)
Fixpoint processRoutes (r : MessageRouter) (message : json)
  (ms : list RouteMatch) (delivered : list (string * json))
  : option (outcome unit * list (string * json)) :=
  match ms with
  | [] => Some (Ok tt, delivered)
  | m :: ms' =>
      match processRoute r message m delivered with
      | None => None
      | Some (res, delivered') =>
          match processRoutes r message ms' delivered' with
          | None => None
          | Some (res', delivered'') =>
              Some (match res with Throw e => Throw e | Ok _ => res' end,
                    delivered'')
          end
      end
  end.

Definition no_route (message : json) : Error :=
  error ("No route found for message: " +:+ method_or message "unknown").

(** [route]: the outcome, and what the destination handlers were given. *)
Definition route (r : MessageRouter) (message : json)
  : option (outcome unit * list (string * json)) :=
  match findMatches r message with
  | Throw e => Some (Throw e, [])
  | Ok matches =>
      match matches with
      | [] => Some (Throw (no_route message), [])
      | _ => processRoutes r message matches []
      end
  end.

End Engine.

Arguments PString {RegExp} pattern.
Arguments PRegExp {RegExp} pattern.
Arguments mkRoute {RegExp} pattern destination transformers middleware.
Arguments pattern {RegExp} r.
Arguments destination {RegExp} r.
Arguments transformers {RegExp} r.
Arguments middleware {RegExp} r.
Arguments mkMatch {RegExp} route_of params.
Arguments route_of {RegExp} r.
Arguments params {RegExp} r.
Arguments mkRouter {RegExp} routes globalMiddleware destinations.
Arguments routes {RegExp} m.
Arguments globalMiddleware {RegExp} m.
Arguments destinations {RegExp} m.
Arguments new_router {RegExp}.
Arguments addRoute {RegExp} r config.
Arguments addRoutes {RegExp} r configs.
Arguments registerDestination {RegExp} r name handler.
Arguments addGlobalMiddleware {RegExp} r mw.
Arguments matchRoute {RegExp} RegExp_new RegExp_match method route.
Arguments collect_matches {RegExp} RegExp_new RegExp_match method rs.
Arguments findMatches {RegExp} RegExp_new RegExp_match r message.
Arguments sendToDestination {RegExp} r message destinationName s.
Arguments processRoute {RegExp} r message m delivered.
Arguments processRoutes {RegExp} r message ms delivered.
Arguments route {RegExp} RegExp_new RegExp_match r message.

(** The built-in middleware that keep no state of their own. *)
Definition auth (validateFn : json -> bool) : RouteMiddleware :=
  mkMiddleware "auth" (fun message =>
    if negb (validateFn message) then Reject (error "Authentication failed")
    else AwaitNext (fun r => match r with Ok _ => Resolve | Throw e => Reject e end)).

(** [metrics]: the collector is called whatever [next()] does, and the
    outcome of [next()] is the outcome of the middleware. *)
Definition metrics : RouteMiddleware :=
  mkMiddleware "metrics" (fun message =>
    AwaitNext (fun r => match r with Ok _ => Resolve | Throw e => Reject e end)).

End Router.

(** ** The subprocess pool: [ProcessPool] *)

Module Pool.

(** The part of a [ContainerManager] the pool deals with: whether the
    child process exists ([process !== null]), the [connected] flag, the
    lines written to the child's standard input, oldest first, and the
    counter of sent messages. *)
Record ContainerManager := mkContainer {
  process : bool;
  connected : bool;
  stdin : list string;
  messagesSent : Z
}.

Definition newline : string := String "010"%char EmptyString.

(** [ContainerManager.send]: serializing JSON data and writing the line do
    not throw, so the only failure is the guard. *)
Definition container_send (c : ContainerManager) (message : json)
  : outcome unit * ContainerManager :=
  if negb (process c) || negb (connected c)
  then (Throw (error "Container not running"), c)
  else
    (Ok tt,
     mkContainer (process c) (connected c)
       (stdin c ++ [Codec.serialize message +:+ newline]) (messagesSent c + 1)).

Definition isConnected (c : ContainerManager) : bool := connected c && process c.

(** [ContainerManager.close], up to the signals it sends. *)
Definition container_close (c : ContainerManager) : ContainerManager :=
  mkContainer false false (stdin c) (messagesSent c).

Record ProcessPoolConfig := mkPoolConfig {
  maxInstances : nat;
  minInstances : nat;
  healthCheckInterval : Z;
  restartOnFailure : bool
}.

(** [activeInstances] is a [Set]: its members once each, in insertion
    order, which is the order [Array.from] lists them in. *)
Record ProcessPool := mkPool {
  poolConfig : ProcessPoolConfig;
  instances : gmap string ContainerManager;
  activeInstances : list string;
  roundRobinIndex : nat
}.

Definition set_add (id : string) (s : list string) : list string :=
  if bool_decide (id ∈ s) then s else s ++ [id].

Definition set_delete (id : string) (s : list string) : list string :=
  filter (fun x => x <> id) s.

Definition with_instances (f : gmap string ContainerManager -> gmap string ContainerManager)
  (p : ProcessPool) : ProcessPool :=
  mkPool (poolConfig p) (f (instances p)) (activeInstances p) (roundRobinIndex p).

Definition with_active (f : list string -> list string) (p : ProcessPool) : ProcessPool :=
  mkPool (poolConfig p) (instances p) (f (activeInstances p)) (roundRobinIndex p).

(** [createInstance]; [started] is the outcome of [container.start()]. *)
Definition createInstance (p : ProcessPool) (id : string) (started : outcome unit)
  : outcome unit * ProcessPool :=
  match started with
  | Ok _ =>
      (Ok tt,
       with_active (set_add id)
         (with_instances (<[id := mkContainer true true [] 0]>) p))
  | Throw e => (Throw e, p)
  end.

(** [handleInstanceFailure] up to its first [await]: what has happened by
    the time the caller, which does not await it, goes on. *)
Definition handleInstanceFailure_begin (p : ProcessPool) (id : string) : ProcessPool :=
  let p1 := with_active (set_delete id) p in
  match instances p1 !! id with
  | Some instance => with_instances (<[id := container_close instance]>) p1
  | None => p1
  end.

(** [ensureMinimumInstances]; [starts] holds the outcomes of starting the
    replacement containers, in order. *)
Definition ensureMinimumInstances (p : ProcessPool) (now : Z)
  (starts : list (outcome unit)) : ProcessPool :=
  let needed := (minInstances (poolConfig p) - length (activeInstances p))%nat in
  fold_left
    (fun acc i =>
       let newId := "instance-" +:+ string_of_Z now +:+ "-" +:+ string_of_Z (Z.of_nat i) in
       (createInstance acc newId (nth i starts (Ok tt))).2)
    (seq 0 needed) p.

(** [handleInstanceFailure] from its first [await] on; [had_instance]
    tells whether the first half found the instance, [restarted] is the
    outcome of starting it again. *)
Definition handleInstanceFailure_resume (p : ProcessPool) (id : string)
  (had_instance : bool) (restarted : outcome unit) (now : Z)
  (starts : list (outcome unit)) : ProcessPool :=
  let p1 := if had_instance then with_instances (delete id) p else p in
  let p2 :=
    if restartOnFailure (poolConfig p1) then (createInstance p1 id restarted).2
    else p1 in
  ensureMinimumInstances p2 now starts.

Definition handleInstanceClose (p : ProcessPool) (id : string) : ProcessPool :=
  with_instances (delete id) (with_active (set_delete id) p).

Definition instance_not_found (instanceId : option string) : Error :=
  error ("Instance "
         +:+ match instanceId with Some i => i | None => "undefined" end
         +:+ " not found").

(** The [catch] block of [send]: [activeInstanceIds] is the list captured
    when [send] began, [p] the pool as it is when the first send has
    failed with [err]. *)
Definition send_catch (p : ProcessPool) (activeInstanceIds : list string)
  (instanceId : string) (err : Error) (message : json)
  : outcome unit * ProcessPool :=
  let p1 := handleInstanceFailure_begin p instanceId in
  if (1 <? length activeInstanceIds)%nat then
    match activeInstanceIds !! (roundRobinIndex p1 mod length activeInstanceIds)%nat with
    | None => (Ok tt, p1)
    | Some nextInstanceId =>
        match instances p1 !! nextInstanceId with
        | Some nextInstance =>
            let (r, nextInstance') := container_send nextInstance message in
            (r, with_instances (<[nextInstanceId := nextInstance']>) p1)
        | None => (Ok tt, p1)
        end
    end
  else (Throw err, p1).

(** [send], when nothing else runs while the first send is awaited. *)
Definition send (p : ProcessPool) (message : json) : outcome unit * ProcessPool :=
  let activeInstanceIds := activeInstances p in
  if (length activeInstanceIds =? 0)%nat
  then (Throw (error "No active instances available"), p)
  else
    let instanceId :=
      activeInstanceIds !! (roundRobinIndex p mod length activeInstanceIds)%nat in
    let p1 :=
      mkPool (poolConfig p) (instances p) (activeInstances p) (S (roundRobinIndex p)) in
    match instanceId with
    | None => (Throw (instance_not_found None), p1)
    | Some instanceId =>
        match instances p1 !! instanceId with
        | None => (Throw (instance_not_found (Some instanceId)), p1)
        | Some instance =>
            match container_send instance message with
            | (Ok _, instance') =>
                (Ok tt, with_instances (<[instanceId := instance']>) p1)
            | (Throw err, instance') =>
                send_catch (with_instances (<[instanceId := instance']>) p1)
                  activeInstanceIds instanceId err message
            end
        end
    end.

(** The lines instance [id] has been sent. *)
Definition delivered_to (p : ProcessPool) (id : string) : list string :=
  match instances p !! id with
  | Some c => stdin c
  | None => []
  end.

End Pool.

(** ** The reconnection engine: [ReconnectionHandler] *)

Module Reconnection.

(** JavaScript numbers are modelled as rationals with exact arithmetic:
    the rounding of floating point is left out, [Math.floor] is [Qfloor]. *)
Record ReconnectionConfig := mkConfig {
  maxAttempts : Z;
  initialDelay : Q;
  maxDelay : Q;
  backoffFactor : Q;
  jitter : bool
}.

(** The callbacks of the configuration, as they are invoked. *)
Inductive callback : Type :=
| onReconnect
| onReconnectFailed (e : Error)
| onMaxAttemptsReached.

(** [reconnectTimer] holds the delay the timer was armed with. *)
Record ReconnectionHandler := mkHandler {
  config : ReconnectionConfig;
  attempts : Z;
  reconnectTimer : option Z;
  isReconnecting : bool;
  called : list callback
}.

Definition new_handler (cfg : ReconnectionConfig) : ReconnectionHandler :=
  mkHandler cfg 0 None false [].

(** [calculateDelay]; [random] is the value of [Math.random()]. *)
Definition calculateDelay (cfg : ReconnectionConfig) (attempts : Z) (random : Q) : Z :=
  let delay := (initialDelay cfg * backoffFactor cfg ^ (attempts - 1))%Q in
  let delay := Qmin delay (maxDelay cfg) in
  let delay :=
    if jitter cfg then
      let jitterRange := (delay * (25 # 100))%Q in
      (delay + random * jitterRange)%Q
    else delay in
  Qfloor delay.

Definition reset (h : ReconnectionHandler) : ReconnectionHandler :=
  mkHandler (config h) 0 None false (called h).

Definition stop (h : ReconnectionHandler) : ReconnectionHandler := reset h.

Definition onSuccessfulReconnect (h : ReconnectionHandler) : ReconnectionHandler :=
  let h1 := reset h in
  mkHandler (config h1) (attempts h1) (reconnectTimer h1) (isReconnecting h1)
    (called h1 ++ [onReconnect]).

(** [attemptReconnection] up to the arming of the timer. *)
Definition attemptReconnection (h : ReconnectionHandler) (random : Q)
  : ReconnectionHandler :=
  if isReconnecting h then h
  else if (maxAttempts (config h) <=? attempts h)%Z then
    mkHandler (config h) (attempts h) (reconnectTimer h) (isReconnecting h)
      (called h ++ [onMaxAttemptsReached])
  else
    let attempts' := (attempts h + 1)%Z in
    let delay := calculateDelay (config h) attempts' random in
    mkHandler (config h) attempts' (Some delay) true (called h).

(** The armed timer fires: [reconnected] is the outcome of [reconnectFn],
    [random] the value [Math.random()] gives the next attempt. *)
Definition timer_fired (h : ReconnectionHandler) (reconnected : outcome unit)
  (random : Q) : ReconnectionHandler :=
  match reconnectTimer h with
  | None => h
  | Some _ =>
      match reconnected with
      | Ok _ => onSuccessfulReconnect h
      | Throw e =>
          attemptReconnection
            (mkHandler (config h) (attempts h) (reconnectTimer h) false
               (called h ++ [onReconnectFailed e]))
            random
      end
  end.

Definition getAttempts (h : ReconnectionHandler) : Z := attempts h.

Definition isAttempting (h : ReconnectionHandler) : bool := isReconnecting h.

(** [createReconnectionConfig.fast()] *)
Definition fast : ReconnectionConfig := mkConfig 10 1000 5000 (3 # 2) true.

End Reconnection.

(** ** The translator: [MessageTranslator] *)

Module Translator.

Record TranslationRule := mkRule {
  name : string;
  condition : json -> bool;
  transform : json -> outcome json
}.

Record TranslatorConfig := mkConfig {
  enableValidation : bool;
  throwOnValidationError : bool;
  logTranslations : bool
}.

Record MessageTranslator := mkTranslator {
  rules : list TranslationRule;
  config : TranslatorConfig
}.

(** The constructor's defaults. *)
Definition default_config : TranslatorConfig := mkConfig true false false.

Definition addRule (t : MessageTranslator) (rule : TranslationRule) : MessageTranslator :=
  mkTranslator (rules t ++ [rule]) (config t).

Definition addRules (t : MessageTranslator) (rs : list TranslationRule) : MessageTranslator :=
  fold_left addRule rs t.

Fixpoint remove_first (n : string) (rs : list TranslationRule) : option (list TranslationRule) :=
  match rs with
  | [] => None
  | r :: rs' =>
      if String.eqb (name r) n then Some rs'
      else match remove_first n rs' with
           | Some rs'' => Some (r :: rs'')
           | None => None
           end
  end.

Definition removeRule (t : MessageTranslator) (n : string) : bool * MessageTranslator :=
  match remove_first n (rules t) with
  | Some rs => (true, mkTranslator rs (config t))
  | None => (false, t)
  end.

Definition clearRules (t : MessageTranslator) : MessageTranslator :=
  mkTranslator [] (config t).

Definition isValidMCPMessage (message : json) : bool :=
  typeof_object message
  && negb (json_eqb message JNull)
  && is_str "2.0" (prop "jsonrpc" message)
  && ((is_string (prop "method" message) && defined (prop "id" message))
      || (defined (prop "id" message)
          && (defined (prop "result" message) || defined (prop "error" message)))
      || (is_string (prop "method" message) && negb (defined (prop "id" message)))).

Definition invalid_result (rule : TranslationRule) : Error :=
  error ("Translation rule '" +:+ name rule +:+ "' produced invalid message").

Definition applying (rule : TranslationRule) : string :=
  "Applying translation rule: " +:+ name rule.

(** The loop of [translate] over the applicable rules; [log] holds the
    lines written with [console.log]. *)
Fixpoint apply_rules (cfg : TranslatorConfig) (applicableRules : list TranslationRule)
  (result : json) (log : list string) : outcome json * list string :=
  match applicableRules with
  | [] => (Ok result, log)
  | rule :: rest =>
      let log := if logTranslations cfg then log ++ [applying rule] else log in
      match transform rule result with
      | Throw e => (Throw e, log)
      | Ok result' =>
          if enableValidation cfg && negb (isValidMCPMessage result') then
            if throwOnValidationError cfg then (Throw (invalid_result rule), log)
            else apply_rules cfg rest result' log
          else apply_rules cfg rest result' log
      end
  end.

(** [translate]: the outcome, and the lines logged. *)
Definition translate (t : MessageTranslator) (message : json)
  : outcome json * list string :=
  let result := message in
  let applicableRules := List.filter (fun rule => condition rule result) (rules t) in
  if (length applicableRules =? 0)%nat then (Ok result, [])
  else apply_rules (config t) applicableRules result [].

Definition hasRule (t : MessageTranslator) (n : string) : bool :=
  existsb (fun rule => String.eqb (name rule) n) (rules t).

Definition getRuleNames (t : MessageTranslator) : list string := map name (rules t).

Definition getRuleCount (t : MessageTranslator) : nat := length (rules t).

(** Two of the built-in rules. *)
Definition addJsonRpcVersion : TranslationRule :=
  mkRule "addJsonRpcVersion"
    (fun message => negb (is_str "2.0" (prop "jsonrpc" message)))
    (fun message => Ok (with_prop "jsonrpc" (JStr "2.0") message)).

Definition convertLegacyErrors : TranslationRule :=
  mkRule "convertLegacyErrors"
    (fun message => truthy (prop "error" message) && is_string (prop "error" message))
    (fun message =>
       Ok (with_prop "error"
             (JObj [("code", JNum (-32603));
                    ("message",
                     JStr (match prop "error" message with
                           | Some e => ToString e
                           | None => "undefined"
                           end))])
             message)).

End Translator.

(** ** The channel base class: [BaseTransport] *)

Module Transport.

(** A metrics record is an object on the heap, and so is the [Date] its
    [lastActivity] refers to: records and dates are named by references. *)
Record TransportMetrics := mkMetrics {
  messagesSent : Z;
  messagesReceived : Z;
  errors : Z;
  connectionTime : Z;
  lastActivity : nat
}.

(** A channel with the heap it lives in.  [metrics] is the reference held
    in [this.metrics]; handlers are named by numbers and [calls] records
    their invocations. *)
Record BaseTransport := mkTransport {
  records : gmap nat TransportMetrics;
  dates : gmap nat Z;
  next_ref : nat;
  metrics : nat;
  messageHandlers : list nat;
  errorHandlers : list nat;
  closeHandlers : list nat;
  calls : list nat
}.

(** [new Date()] at time [now] *)
Definition new_date (now : Z) (t : BaseTransport) : nat * BaseTransport :=
  (next_ref t,
   mkTransport (records t) (<[next_ref t := now]> (dates t)) (S (next_ref t))
     (metrics t) (messageHandlers t) (errorHandlers t) (closeHandlers t) (calls t)).

(** A new object [{ ... }] with the given fields *)
Definition new_record (m : TransportMetrics) (t : BaseTransport) : nat * BaseTransport :=
  (next_ref t,
   mkTransport (<[next_ref t := m]> (records t)) (dates t) (S (next_ref t))
     (metrics t) (messageHandlers t) (errorHandlers t) (closeHandlers t) (calls t)).

(** An update of the fields of the record at [r] *)
Definition update_record (r : nat) (f : TransportMetrics -> TransportMetrics)
  (t : BaseTransport) : BaseTransport :=
  mkTransport (alter f r (records t)) (dates t) (next_ref t)
    (metrics t) (messageHandlers t) (errorHandlers t) (closeHandlers t) (calls t).

Definition call_all (hs : list nat) (t : BaseTransport) : BaseTransport :=
  mkTransport (records t) (dates t) (next_ref t)
    (metrics t) (messageHandlers t) (errorHandlers t) (closeHandlers t) (calls t ++ hs).

(** The constructor, in an empty heap. *)
Definition constructor (now : Z) : BaseTransport :=
  let t0 := mkTransport ∅ ∅ 0 0 [] [] [] [] in
  let (d, t1) := new_date now t0 in
  let (r, t2) := new_record (mkMetrics 0 0 0 now d) t1 in
  mkTransport (records t2) (dates t2) (next_ref t2) r [] [] [] [].

Definition onMessage (h : nat) (t : BaseTransport) : BaseTransport :=
  mkTransport (records t) (dates t) (next_ref t) (metrics t)
    (messageHandlers t ++ [h]) (errorHandlers t) (closeHandlers t) (calls t).

Definition onError (h : nat) (t : BaseTransport) : BaseTransport :=
  mkTransport (records t) (dates t) (next_ref t) (metrics t)
    (messageHandlers t) (errorHandlers t ++ [h]) (closeHandlers t) (calls t).

Definition onClose (h : nat) (t : BaseTransport) : BaseTransport :=
  mkTransport (records t) (dates t) (next_ref t) (metrics t)
    (messageHandlers t) (errorHandlers t) (closeHandlers t ++ [h]) (calls t).

(** [getMetrics]: [{ ...this.metrics }], a new record with the fields of
    the channel's own.  The result is the reference to it. *)
Definition getMetrics (t : BaseTransport) : option nat * BaseTransport :=
  match records t !! metrics t with
  | None => (None, t)
  | Some m =>
      let (r, t') := new_record m t in (Some r, t')
  end.

Definition handleMessage (now : Z) (t : BaseTransport) : BaseTransport :=
  let t1 :=
    update_record (metrics t)
      (fun m => mkMetrics (messagesSent m) (messagesReceived m + 1) (errors m)
                  (connectionTime m) (lastActivity m)) t in
  let (d, t2) := new_date now t1 in
  let t3 :=
    update_record (metrics t)
      (fun m => mkMetrics (messagesSent m) (messagesReceived m) (errors m)
                  (connectionTime m) d) t2 in
  call_all (messageHandlers t) t3.

Definition handleError (t : BaseTransport) : BaseTransport :=
  let t1 :=
    update_record (metrics t)
      (fun m => mkMetrics (messagesSent m) (messagesReceived m) (errors m + 1)
                  (connectionTime m) (lastActivity m)) t in
  call_all (errorHandlers t) t1.

Definition handleClose (t : BaseTransport) : BaseTransport :=
  call_all (closeHandlers t) t.

Definition incrementSentMessages (now : Z) (t : BaseTransport) : BaseTransport :=
  let t1 :=
    update_record (metrics t)
      (fun m => mkMetrics (messagesSent m + 1) (messagesReceived m) (errors m)
                  (connectionTime m) (lastActivity m)) t in
  let (d, t2) := new_date now t1 in
  update_record (metrics t)
    (fun m => mkMetrics (messagesSent m) (messagesReceived m) (errors m)
                (connectionTime m) d) t2.

(** What the channel itself does after it was built. *)
Inductive activity : Type :=
| Sent (now : Z)
| Received (now : Z)
| Failed
| Closed
| MetricsRead
| SubscribedToMessages (h : nat)
| SubscribedToErrors (h : nat)
| SubscribedToClose (h : nat).

Definition act (t : BaseTransport) (a : activity) : BaseTransport :=
  match a with
  | Sent now => incrementSentMessages now t
  | Received now => handleMessage now t
  | Failed => handleError t
  | Closed => handleClose t
  | MetricsRead => (getMetrics t).2
  | SubscribedToMessages h => onMessage h t
  | SubscribedToErrors h => onError h t
  | SubscribedToClose h => onClose h t
  end.

(** An assignment to a field of a metrics record, as a holder of the
    record can write it: [r.field = value]. *)
Inductive assignment : Type :=
| SetMessagesSent (v : Z)
| SetMessagesReceived (v : Z)
| SetErrors (v : Z)
| SetConnectionTime (v : Z)
| SetLastActivity (d : nat).

Definition assign (r : nat) (a : assignment) (t : BaseTransport) : BaseTransport :=
  update_record r
    (fun m =>
       match a with
       | SetMessagesSent v =>
           mkMetrics v (messagesReceived m) (errors m) (connectionTime m) (lastActivity m)
       | SetMessagesReceived v =>
           mkMetrics (messagesSent m) v (errors m) (connectionTime m) (lastActivity m)
       | SetErrors v =>
           mkMetrics (messagesSent m) (messagesReceived m) v (connectionTime m) (lastActivity m)
       | SetConnectionTime v =>
           mkMetrics (messagesSent m) (messagesReceived m) (errors m) v (lastActivity m)
       | SetLastActivity d =>
           mkMetrics (messagesSent m) (messagesReceived m) (errors m) (connectionTime m) d
       end) t.

(** [d.setTime(v)] on a [Date] object *)
Definition setTime (d : nat) (v : Z) (t : BaseTransport) : BaseTransport :=
  mkTransport (records t) (alter (fun _ => v) d (dates t)) (next_ref t)
    (metrics t) (messageHandlers t) (errorHandlers t) (closeHandlers t) (calls t).

(** What one reads from the record at [r]: its numbers, and the time of
    the date it refers to. *)
Definition read (t : BaseTransport) (r : nat) : option (Z * Z * Z * Z * option Z) :=
  match records t !! r with
  | None => None
  | Some m =>
      Some (messagesSent m, messagesReceived m, errors m, connectionTime m,
            dates t !! lastActivity m)
  end.

(** Every reference in use was allocated, and the channel has its record. *)
Definition heap_ok (t : BaseTransport) : Prop :=
  (forall r m, records t !! r = Some m ->
     (r < next_ref t)%nat /\ (lastActivity m < next_ref t)%nat) /\
  (forall d v, dates t !! d = Some v -> (d < next_ref t)%nat) /\
  is_Some (records t !! metrics t).

End Transport.

(** ** The rate limiter: [builtInMiddleware.rateLimit] *)

Module RateLimit.
Import Router.

(** A value inside a template literal *)
Definition template (v : option json) : string :=
  match v with Some x => ToString x | None => "undefined" end.

(** One limiter: its two parameters, and the [requests] map that its
    closure holds, from a key to the times of the requests let through. *)
Record RateLimit := mkRateLimit {
  maxRequests : Z;
  windowMs : Z;
  requests : gmap string (list Z)
}.

Definition rateLimit (maxRequests windowMs : Z) : RateLimit :=
  mkRateLimit maxRequests windowMs ∅.

Definition rate_limit_exceeded : Error := error "Rate limit exceeded".

Definition key_of (message : json) : string :=
  template (prop "method" message) +:+ "_" +:+ template (prop "id" message).

(** [execute] at the time [now]: what it does with its [next], and the
    limiter afterwards. *)
Definition execute (l : RateLimit) (message : json) (now : Z)
  : chain_prog * RateLimit :=
  let key := key_of message in
  let windowStart := now - windowMs l in
  let userRequests := default [] (requests l !! key) in
  let validRequests := filter (fun time => windowStart < time) userRequests in
  if (maxRequests l <=? Z.of_nat (length validRequests))%Z
  then (Reject rate_limit_exceeded, l)
  else
    (AwaitNext (fun r => match r with Ok _ => Resolve | Throw e => Reject e end),
     mkRateLimit (maxRequests l) (windowMs l)
       (<[key := validRequests ++ [now]]> (requests l))).

End RateLimit.

(** ** The usual set-up of a translator: [createCommonTranslator] *)

Module CommonTranslator.
Import Translator.

(** [builtInRules.addRequestId]; [generated] is the id that the transform
    makes up from the clock and [Math.random()]. *)
Definition addRequestId (generated : string) : TranslationRule :=
  mkRule "addRequestId"
    (fun message =>
       match prop "method" message with
       | Some (JStr method) =>
           negb (defined (prop "id" message))
           && negb (String.prefix "notification/" method)
       | _ => false
       end)
    (fun message => Ok (with_prop "id" (JStr generated) message)).

(** [createCommonTranslator] without a transport type. *)
Definition createCommonTranslator (generated : string)
  (additionalRules : list TranslationRule) : MessageTranslator :=
  let translator := mkTranslator [] (mkConfig true false false) in
  let translator := addRule translator addJsonRpcVersion in
  let translator := addRule translator (addRequestId generated) in
  let translator := addRule translator convertLegacyErrors in
  addRules translator additionalRules.

End CommonTranslator.

(** ** The output of a container: [ContainerManager.processBuffer] *)

Module Stdio.
Import Codec.

Definition line_feed : ascii := "010"%char.

(** [s.split('\n')]: the pieces between the line feeds, one more than
    there are line feeds. *)
Fixpoint split (s : string) : list string :=
  match s with
  | EmptyString => [EmptyString]
  | String c s' =>
      if Ascii.eqb c line_feed then EmptyString :: split s'
      else
        match split s' with
        | [] => [String c EmptyString]
        | piece :: pieces => String c piece :: pieces
        end
  end.

(** The white space and line terminators that [trim] removes, among the
    code units of the model. *)
Definition is_white_space (c : ascii) : bool :=
  let n := N_of_ascii c in
  ((n =? 9) || (n =? 10) || (n =? 11) || (n =? 12) || (n =? 13) || (n =? 32)
   || (n =? 160))%N.

Fixpoint trimStart (s : string) : string :=
  match s with
  | EmptyString => EmptyString
  | String c s' => if is_white_space c then trimStart s' else s
  end.

Fixpoint trimEnd (s : string) : string :=
  match s with
  | EmptyString => EmptyString
  | String c s' =>
      match trimEnd s' with
      | EmptyString => if is_white_space c then EmptyString else String c EmptyString
      | rest => String c rest
      end
  end.

Definition trim (s : string) : string := trimEnd (trimStart s).

(** The reading side of a [ContainerManager]: the text received and not
    yet processed, and the messages handed to [handleMessage], oldest
    first. *)
Record ContainerManager := mkContainer {
  buffer : string;
  handled : list json
}.

(** The body of the loop of [processBuffer]: a line that is blank, or
    that the adapter refuses, is passed over. *)
Definition processLine (c : ContainerManager) (line : string) : ContainerManager :=
  match trim line with
  | EmptyString => c
  | trimmed =>
      match deserialize trimmed with
      | Ok message => mkContainer (buffer c) (handled c ++ [message])
      | Throw _ => c
      end
  end.

Definition processBuffer (c : ContainerManager) : ContainerManager :=
  let lines := split (buffer c) in
  let c1 := mkContainer (default EmptyString (last lines)) (handled c) in
  fold_left processLine (removelast lines) c1.

(** The handler of the [data] events of the standard output; [data] is
    the text of the chunk. *)
Definition on_data (c : ContainerManager) (data : string) : ContainerManager :=
  processBuffer (mkContainer (buffer c +:+ data) (handled c)).

End Stdio.

(** ** The sessions of the HTTP transport: [SessionManager] *)

Module Sessions.

(** A session; of its [HTTPTransport] the manager reads the [connected]
    flag, which is what [transport] holds. *)
Record Session := mkSession {
  id : string;
  transport : bool;
  lastActivity : Z;
  created : Z
}.

Record SessionConfig := mkSessionConfig {
  maxSessions : Z;
  sessionTimeout : Z;
  cleanupInterval : Z
}.

Record SessionManager := mkManager {
  sessionConfig : SessionConfig;
  sessions : gmap string Session;
  cleanupTimer : bool
}.

Definition new_manager (cfg : SessionConfig) : SessionManager := mkManager cfg ∅ true.

Definition with_sessions (f : gmap string Session -> gmap string Session)
  (m : SessionManager) : SessionManager :=
  mkManager (sessionConfig m) (f (sessions m)) (cleanupTimer m).

Definition already_exists (id : string) : Error :=
  error ("Session " +:+ id +:+ " already exists").

Definition limit_reached : Error := error "Maximum number of sessions reached".

Definition session_not_found (sessionId : string) : Error :=
  error ("Session " +:+ sessionId +:+ " not found").

(** [createSession] up to its [await transport.connect()]: the id and the
    two checks.  [generated] is what [generateSessionId] returns. *)
Definition createSession_begin (m : SessionManager) (sessionId : option string)
  (generated : string) : outcome string :=
  let id :=
    match sessionId with
    | Some s => if String.eqb s EmptyString then generated else s
    | None => generated
    end in
  if bool_decide (is_Some (sessions m !! id)) then Throw (already_exists id)
  else if (maxSessions (sessionConfig m) <=? Z.of_nat (size (sessions m)))%Z
       then Throw limit_reached
       else Ok id.

(** [createSession] from the settlement of [transport.connect()] on. *)
Definition createSession_finish (m : SessionManager) (id : string)
  (connected : outcome unit) (now : Z) : outcome string * SessionManager :=
  match connected with
  | Throw e => (Throw e, m)
  | Ok _ => (Ok id, with_sessions (<[id := mkSession id true now now]>) m)
  end.

(** [createSession], when nothing else runs while the transport connects. *)
Definition createSession (m : SessionManager) (sessionId : option string)
  (generated : string) (connected : outcome unit) (now : Z)
  : outcome string * SessionManager :=
  match createSession_begin m sessionId generated with
  | Throw e => (Throw e, m)
  | Ok id => createSession_finish m id connected now
  end.

Definition getSession (m : SessionManager) (sessionId : string) (now : Z)
  : option Session * SessionManager :=
  match sessions m !! sessionId with
  | None => (None, m)
  | Some session =>
      let session' :=
        mkSession (id session) (transport session) now (created session) in
      (Some session', with_sessions (<[sessionId := session']>) m)
  end.

Definition removeSession (m : SessionManager) (sessionId : string) : SessionManager :=
  with_sessions (delete sessionId) m.

(** [HTTPTransport.send] as the manager sees it: it refuses when the
    transport is not connected; otherwise [sent] is what becomes of the
    request. *)
Definition transport_send (connected : bool) (sent : outcome unit) : outcome unit :=
  if connected then sent else Throw (error "HTTP transport not connected").

(** [sendMessage], when nothing else runs during its awaits.  [sent],
    [reconnected] and [resent] are what becomes of the first request, of
    the reconnection and of the second request; [now] and [later] are the
    times of the two [new Date()]. *)
Definition sendMessage (m : SessionManager) (sessionId : string)
  (sent reconnected resent : outcome unit) (now later : Z)
  : outcome unit * SessionManager :=
  match getSession m sessionId now with
  | (None, m1) => (Throw (session_not_found sessionId), m1)
  | (Some session, m1) =>
      let touch (connected : bool) :=
        with_sessions
          (alter (fun s => mkSession (id s) connected later (created s)) sessionId) m1 in
      match transport_send (transport session) sent with
      | Ok _ => (Ok tt, touch (transport session))
      | Throw e =>
          if negb (transport session) then
            match reconnected with
            | Throw e' => (Throw e', removeSession m1 sessionId)
            | Ok _ =>
                match transport_send true resent with
                | Throw e' => (Throw e', removeSession m1 sessionId)
                | Ok _ => (Ok tt, touch true)
                end
            end
          else (Throw e, m1)
      end
  end.

(** The sweep of the cleanup timer at the time [now]. *)
Definition cleanupExpiredSessions (m : SessionManager) (now : Z) : SessionManager :=
  let expiredSessions :=
    (map_to_list
       (filter (fun kv : string * Session =>
                  sessionTimeout (sessionConfig m) < now - lastActivity kv.2)
          (sessions m))).*1 in
  fold_left removeSession expiredSessions m.

Definition getSessionCount (m : SessionManager) : nat := size (sessions m).

Definition close (m : SessionManager) : SessionManager :=
  let m1 := mkManager (sessionConfig m) (sessions m) false in
  fold_left removeSession (map_to_list (sessions m1)).*1 m1.

End Sessions.

(** * Properties *)

(** ** JSON values *)

Section JsonInduction.
Variable P : json -> Prop.
Hypothesis HNull : P JNull.
Hypothesis HBool : forall b, P (JBool b).
Hypothesis HNum : forall n, P (JNum n).
Hypothesis HStr : forall s, P (JStr s).
Hypothesis HArr : forall xs, Forall P xs -> P (JArr xs).
Hypothesis HObj : forall ps, Forall (fun kv => P kv.2) ps -> P (JObj ps).

Fixpoint json_nested_ind (v : json) : P v :=
  match v with
  | JNull => HNull
  | JBool b => HBool b
  | JNum n => HNum n
  | JStr s => HStr s
  | JArr xs =>
      HArr xs
        ((fix all (xs : list json) : Forall P xs :=
            match xs with
            | [] => List.Forall_nil P
            | x :: xs' => List.Forall_cons P x xs' (json_nested_ind x) (all xs')
            end) xs)
  | JObj ps =>
      HObj ps
        ((fix all (ps : list (string * json)) : Forall (fun kv => P kv.2) ps :=
            match ps with
            | [] => List.Forall_nil _
            | kv :: ps' =>
                List.Forall_cons (fun kv => P kv.2) kv ps' (json_nested_ind kv.2) (all ps')
            end) ps)
  end.
End JsonInduction.

Lemma json_eqb_eq (a b : json) : json_eqb a b = true <-> a = b.
Proof.
  revert b. induction a as [| x | x | x | xs IH | ps IH] using json_nested_ind;
    intros b; destruct b as [| y | y | y | ys | qs]; simpl;
    try (split; [discriminate | discriminate]); try tauto.
  - rewrite Bool.eqb_true_iff. split; congruence.
  - rewrite Z.eqb_eq. split; congruence.
  - rewrite String.eqb_eq. split; congruence.
  - revert ys. induction IH as [| x xs Hx _ IHxs]; intros [| y ys]; simpl;
      try (split; [discriminate | discriminate]); try tauto.
    rewrite andb_true_iff, Hx, IHxs. split.
    + intros [-> H]. by injection H as ->.
    + intros H. injection H as -> ->. done.
  - revert qs. induction IH as [| [k x] ps Hx _ IHps]; intros [| [l y] qs]; simpl;
      try (split; [discriminate | discriminate]); try tauto.
    simpl in Hx. rewrite !andb_true_iff, Hx, IHps, String.eqb_eq. split.
    + intros [[-> ->] H]. by injection H as ->.
    + intros H. injection H as -> -> ->. done.
Qed.

Lemma json_eqb_refl (a : json) : json_eqb a a = true.
Proof. by apply json_eqb_eq. Qed.

Lemma json_eqb_neq (a b : json) : json_eqb a b = false <-> a <> b.
Proof.
  rewrite <- json_eqb_eq. destruct (json_eqb a b); split; congruence.
Qed.

#[global] Instance json_eq_dec : EqDecision json.
Proof.
  intros a b. destruct (json_eqb a b) eqn:E.
  - left. by apply json_eqb_eq.
  - right. by apply json_eqb_neq.
Defined.

(** ** [JSON.parse] after [JSON.stringify] *)

Module JsonRoundTrip.

(** *** Strings *)

Lemma append_cons (c : ascii) (a b : string) :
  String c a +:+ b = String c (a +:+ b).
Proof. reflexivity. Qed.

Lemma append_assoc (a b c : string) : (a +:+ b) +:+ c = a +:+ (b +:+ c).
Proof.
  induction a as [| x a IH]; [done |]. rewrite !append_cons. by rewrite IH.
Qed.

Lemma append_nil_r (a : string) : a +:+ EmptyString = a.
Proof. induction a as [| x a IH]; [done |]. rewrite append_cons. by rewrite IH. Qed.

Lemma length_append (a b : string) :
  String.length (a +:+ b) = (String.length a + String.length b)%nat.
Proof.
  induction a as [| x a IH]; [done |]. rewrite append_cons. simpl. by rewrite IH.
Qed.

(** An escaped character reads back as the character. *)
Lemma parse_chars_escape (c : ascii) (tail : string) :
  parse_chars (escape c +:+ tail)
  = match parse_chars tail with
    | Some (str, r) => Some (String c str, r)
    | None => None
    end.
Proof. destruct c as [[] [] [] [] [] [] [] []]; reflexivity. Qed.

Lemma parse_chars_quote (s rest : string) :
  parse_chars (quote_chars s +:+ String dquote rest) = Some (s, rest).
Proof.
  induction s as [| c s IH]; [done |]. simpl quote_chars.
  by rewrite append_assoc, parse_chars_escape, IH.
Qed.

Lemma length_escape (c : ascii) : (1 <= String.length (escape c))%nat.
Proof. destruct c as [[] [] [] [] [] [] [] []]; simpl; lia. Qed.

Lemma length_quote (s : string) : (2 <= String.length (quote s))%nat.
Proof. unfold quote. simpl. rewrite length_append. simpl. lia. Qed.

(** *** Numbers *)

Definition is_digit (c : ascii) : bool :=
  match digit_of c with Some _ => true | None => false end.

(** What may follow a number: nothing, or a character that does not go on
    with it. *)
Definition ends_number (rest : string) : Prop :=
  match rest with
  | EmptyString => True
  | String c _ => is_digit c = false /\ starts_fraction rest = false
  end.

Lemma parse_uint_string_of_uint (d : Decimal.uint) (rest : string) :
  ends_number rest ->
  parse_uint (NilEmpty.string_of_uint d +:+ rest) = (d, rest).
Proof.
  intros Hrest.
  induction d as [| d IH | d IH | d IH | d IH | d IH | d IH | d IH | d IH | d IH | d IH];
    simpl NilEmpty.string_of_uint; rewrite ?append_cons; simpl;
    try (rewrite IH; reflexivity).
  destruct rest as [| c rest]; [done |]. simpl.
  destruct Hrest as [Hd _]. unfold is_digit in Hd.
  by destruct (digit_of c).
Qed.

Lemma unorm_to_uint (p : positive) :
  Decimal.unorm (Pos.to_uint p) = Pos.to_uint p.
Proof.
  rewrite <- (DecimalPos.Unsigned.to_of (Pos.to_uint p)).
  by rewrite DecimalPos.Unsigned.of_to.
Qed.

Lemma uint_beq_refl (d : Decimal.uint) : Decimal.uint_beq d d = true.
Proof. induction d; simpl; done. Qed.

Lemma of_uint_to_uint (p : positive) : Z.of_uint (Pos.to_uint p) = Z.pos p.
Proof. unfold Z.of_uint. by rewrite DecimalPos.Unsigned.of_to. Qed.

(** The digits of a positive number, read as a number. *)
Lemma parse_number_digits (p : positive) (rest : string) :
  ends_number rest ->
  parse_uint (NilEmpty.string_of_uint (Pos.to_uint p) +:+ rest) = (Pos.to_uint p, rest)
  /\ exists c s, NilEmpty.string_of_uint (Pos.to_uint p) = String c s
                 /\ is_digit c = true.
Proof.
  intros Hrest. split; [by apply parse_uint_string_of_uint |].
  pose proof (DecimalPos.Unsigned.to_uint_nonnil p) as Hnn.
  destruct (Pos.to_uint p); [done | ..]; simpl; eauto.
Qed.

Lemma is_digit_not_minus (c : ascii) : is_digit c = true -> Ascii.eqb c "-" = false.
Proof. destruct c as [[] [] [] [] [] [] [] []]; simpl; done. Qed.

Lemma parse_number_string_of_Z (n : Z) (rest : string) :
  ends_number rest ->
  parse_number (string_of_Z n +:+ rest) = Some (n, rest).
Proof.
  intros Hrest. unfold string_of_Z. destruct n as [| p | p]; simpl Z.to_int.
  - destruct rest as [| c rest]; [done |]. destruct Hrest as [Hd Hf].
    unfold is_digit in Hd. unfold parse_number. simpl.
    destruct (digit_of c); [done |]. simpl in *. by rewrite Hf.
  - destruct (parse_number_digits p rest Hrest) as (Hp & c & s & Hs & Hc).
    pose proof (DecimalPos.Unsigned.to_uint_nonnil p) as Hnn.
    unfold NilZero.string_of_int, NilZero.string_of_uint.
    destruct (Pos.to_uint p) as [| | | | | | | | | |] eqn:E; [done | ..];
      rewrite <- E in *;
      unfold parse_number; rewrite Hs, append_cons, (is_digit_not_minus c Hc);
      rewrite <- append_cons, <- Hs, Hp;
      rewrite unorm_to_uint, uint_beq_refl; simpl negb; cbv iota;
      rewrite E; rewrite <- E;
      (destruct rest as [| c' rest']; [| destruct Hrest as [_ ->]]);
      by rewrite of_uint_to_uint.
  - destruct (parse_number_digits p rest Hrest) as (Hp & c & s & Hs & Hc).
    pose proof (DecimalPos.Unsigned.to_uint_nonnil p) as Hnn.
    unfold NilZero.string_of_int, NilZero.string_of_uint.
    destruct (Pos.to_uint p) as [| | | | | | | | | |] eqn:E; [done | ..];
      rewrite <- E in *;
      unfold parse_number; rewrite append_cons; simpl Ascii.eqb; cbv iota;
      rewrite Hp;
      rewrite unorm_to_uint, uint_beq_refl; simpl negb; cbv iota;
      rewrite E; rewrite <- E;
      (destruct rest as [| c' rest']; [| destruct Hrest as [_ ->]]);
      by rewrite of_uint_to_uint.
Qed.

(** *** Values *)

(** The printed elements of an array after its bracket, and the printed
    members of an object after its brace. *)
Definition stringify_elems : list json -> string :=
  fix elems (xs : list json) : string :=
    match xs with
    | [] => "]"
    | [x] => stringify x +:+ "]"
    | x :: xs' => stringify x +:+ "," +:+ elems xs'
    end.

Definition stringify_members : list (string * json) -> string :=
  fix members (ps : list (string * json)) : string :=
    match ps with
    | [] => "}"
    | [(k, x)] => quote k +:+ ":" +:+ stringify x +:+ "}"
    | (k, x) :: ps' => quote k +:+ ":" +:+ stringify x +:+ "," +:+ members ps'
    end.

Lemma stringify_arr xs : stringify (JArr xs) = String "[" (stringify_elems xs).
Proof. reflexivity. Qed.

Lemma stringify_obj ps : stringify (JObj ps) = String "{" (stringify_members ps).
Proof. reflexivity. Qed.

(** The characters a printed value can begin with. *)
Definition value_start (c : ascii) : bool :=
  is_digit c || Ascii.eqb c "-" || Ascii.eqb c "n" || Ascii.eqb c "t"
  || Ascii.eqb c "f" || Ascii.eqb c dquote || Ascii.eqb c "[" || Ascii.eqb c "{".

Lemma string_of_Z_head (n : Z) :
  exists c s, string_of_Z n = String c s /\ (is_digit c || Ascii.eqb c "-") = true.
Proof.
  unfold string_of_Z. destruct n as [| p | p]; simpl Z.to_int.
  - by exists "0"%char, EmptyString.
  - pose proof (DecimalPos.Unsigned.to_uint_nonnil p) as Hnn.
    unfold NilZero.string_of_int, NilZero.string_of_uint.
    destruct (Pos.to_uint p); [done | ..]; simpl; eauto.
  - simpl. eauto.
Qed.

Lemma stringify_head (v : json) :
  exists c s, stringify v = String c s /\ value_start c = true.
Proof.
  destruct v as [| [] | n | s | xs | ps]; simpl stringify;
    try (eexists _, _; split; [reflexivity | reflexivity]).
  destruct (string_of_Z_head n) as (c & s & -> & Hc).
  exists c, s. split; [done |]. unfold value_start.
  apply orb_true_iff in Hc as [-> | ->]; simpl; [done |].
  by rewrite orb_true_r.
Qed.

Lemma value_start_not_ws (c : ascii) : value_start c = true -> is_ws c = false.
Proof. destruct c as [[] [] [] [] [] [] [] []]; simpl; done. Qed.

Lemma value_start_not_close (c : ascii) :
  value_start c = true -> Ascii.eqb c "]" = false /\ Ascii.eqb c "}" = false.
Proof. destruct c as [[] [] [] [] [] [] [] []]; simpl; done. Qed.

Lemma skip_ws_value (v : json) (rest : string) :
  skip_ws (stringify v +:+ rest) = stringify v +:+ rest.
Proof.
  destruct (stringify_head v) as (c & s & -> & Hc).
  rewrite append_cons. simpl. by rewrite (value_start_not_ws c Hc).
Qed.

(** [parse_value], one kind of value at a time *)
Lemma parse_value_number (fuel : nat) (c : ascii) (s : string) :
  (is_digit c || Ascii.eqb c "-") = true ->
  parse_value (S fuel) (String c s)
  = match parse_number (String c s) with
    | Some (n, r) => Some (JNum n, r)
    | None => None
    end.
Proof. destruct c as [[] [] [] [] [] [] [] []]; simpl; try done. Qed.

Lemma parse_value_string (fuel : nat) (s : string) :
  parse_value (S fuel) (String dquote s)
  = match parse_chars s with
    | Some (str, r) => Some (JStr str, r)
    | None => None
    end.
Proof. reflexivity. Qed.

Lemma parse_value_array (fuel : nat) (s : string) :
  parse_value (S fuel) (String "[" s)
  = match skip_ws s with
    | EmptyString => None
    | String c' r =>
        if Ascii.eqb c' "]" then Some (JArr [], r)
        else match parse_elements fuel s with
             | Some (xs, r') => Some (JArr xs, r')
             | None => None
             end
    end.
Proof. reflexivity. Qed.

Lemma parse_value_object (fuel : nat) (s : string) :
  parse_value (S fuel) (String "{" s)
  = match skip_ws s with
    | EmptyString => None
    | String c' r =>
        if Ascii.eqb c' "}" then Some (JObj [], r)
        else match parse_members fuel s with
             | Some (ms, r') => Some (object_of ms, r')
             | None => None
             end
    end.
Proof. reflexivity. Qed.

Lemma parse_elements_S (fuel : nat) (s : string) :
  parse_elements (S fuel) s
  = match parse_value fuel s with
    | None => None
    | Some (v, r) =>
        match skip_ws r with
        | EmptyString => None
        | String c r' =>
            if Ascii.eqb c "," then
              match parse_elements fuel r' with
              | Some (vs, r'') => Some (v :: vs, r'')
              | None => None
              end
            else if Ascii.eqb c "]" then Some ([v], r')
            else None
        end
    end.
Proof. reflexivity. Qed.

Lemma parse_members_S (fuel : nat) (s : string) :
  parse_members (S fuel) (String dquote s)
  = match parse_chars s with
    | None => None
    | Some (k, r1) =>
        match skip_ws r1 with
        | EmptyString => None
        | String c r2 =>
            if negb (Ascii.eqb c ":") then None
            else
              match parse_value fuel r2 with
              | None => None
              | Some (v, r3) =>
                  match skip_ws r3 with
                  | EmptyString => None
                  | String c' r4 =>
                      if Ascii.eqb c' "," then
                        match parse_members fuel r4 with
                        | Some (ms, r5) => Some ((k, v) :: ms, r5)
                        | None => None
                        end
                      else if Ascii.eqb c' "}" then Some ([(k, v)], r4)
                      else None
                  end
              end
        end
    end.
Proof. reflexivity. Qed.

(** The fuel that reading a printed value back takes. *)
Fixpoint size (v : json) : nat :=
  match v with
  | JArr xs =>
      S ((fix sum (xs : list json) : nat :=
            match xs with [] => O | x :: xs' => S (size x + sum xs') end) xs)
  | JObj ps =>
      S ((fix sum (ps : list (string * json)) : nat :=
            match ps with [] => O | (_, x) :: ps' => S (size x + sum ps') end) ps)
  | _ => 1%nat
  end.

Definition size_elems : list json -> nat :=
  fix sum (xs : list json) : nat :=
    match xs with [] => O | x :: xs' => S (size x + sum xs') end.

Definition size_members : list (string * json) -> nat :=
  fix sum (ps : list (string * json)) : nat :=
    match ps with [] => O | (_, x) :: ps' => S (size x + sum ps') end.

Lemma wf_arr (xs : list json) : wf (JArr xs) <-> Forall wf xs.
Proof.
  induction xs as [| x xs IH].
  - split; [constructor | done].
  - rewrite Forall_cons. simpl in *. tauto.
Qed.

Lemma wf_obj (ps : list (string * json)) :
  wf (JObj ps) <-> NoDup (map fst ps) /\ Forall (fun kv => wf kv.2) ps.
Proof.
  simpl. apply and_iff_compat_l.
  induction ps as [| [k x] ps IH].
  - split; [constructor | done].
  - rewrite Forall_cons. simpl in *. tauto.
Qed.

(** A printed value, followed by anything that does not go on with a
    number, reads back as the value and leaves what follows. *)
Definition reads_back (v : json) : Prop :=
  forall fuel rest,
    (size v <= fuel)%nat -> ends_number rest ->
    parse_value fuel (stringify v +:+ rest) = Some (v, rest).

Lemma elems_read_back (xs : list json) :
  xs <> [] -> Forall reads_back xs ->
  forall fuel rest,
    (size_elems xs <= fuel)%nat ->
    parse_elements fuel (stringify_elems xs +:+ rest) = Some (xs, rest).
Proof.
  intros Hne Hall. induction Hall as [| x xs Hx Hxs IH]; [done |].
  intros fuel rest Hfuel. simpl in Hfuel.
  destruct fuel as [| fuel]; [lia |]. rewrite parse_elements_S.
  destruct xs as [| y ys].
  - change (stringify_elems [x]) with (stringify x +:+ "]").
    rewrite append_assoc, Hx; [| lia | done]. reflexivity.
  - change (stringify_elems (x :: y :: ys))
      with (stringify x +:+ "," +:+ stringify_elems (y :: ys)).
    rewrite !append_assoc, Hx; [| lia | done].
    rewrite append_cons. simpl skip_ws. cbv iota. simpl Ascii.eqb. cbv iota.
    change ("" +:+ ?s) with s. 
    rewrite IH; [done | done |]. simpl in *. lia.
Qed.

Lemma members_read_back (ps : list (string * json)) :
  ps <> [] -> Forall (fun kv => reads_back kv.2) ps ->
  forall fuel rest,
    (size_members ps <= fuel)%nat ->
    parse_members fuel (stringify_members ps +:+ rest) = Some (ps, rest).
Proof.
  intros Hne Hall. induction Hall as [| [k x] ps Hx Hps IH]; [done |].
  intros fuel rest Hfuel. simpl in Hfuel, Hx.
  destruct fuel as [| fuel]; [lia |].
  destruct ps as [| [l y] qs].
  - change (stringify_members [(k, x)])
      with (quote k +:+ ":" +:+ stringify x +:+ "}").
    unfold quote. rewrite !append_assoc, !append_cons, parse_members_S.
    rewrite !append_assoc, !append_cons, parse_chars_quote.
    simpl skip_ws. cbv iota. simpl Ascii.eqb. simpl negb. cbv iota.
    change ("" +:+ ?s) with s.
    rewrite Hx; [| lia | done]. reflexivity.
  - change (stringify_members ((k, x) :: (l, y) :: qs))
      with (quote k +:+ ":" +:+ stringify x +:+ "," +:+ stringify_members ((l, y) :: qs)).
    unfold quote at 1. rewrite !append_assoc, !append_cons, parse_members_S.
    rewrite !append_assoc, !append_cons, parse_chars_quote.
    simpl skip_ws. cbv iota. simpl Ascii.eqb. simpl negb. cbv iota.
    change ("" +:+ ?s) with s.
    rewrite Hx; [| lia | done].
    rewrite append_cons. simpl skip_ws. cbv iota. simpl Ascii.eqb. cbv iota.
    change ("" +:+ ?s) with s.
    rewrite IH; [done | done |]. simpl in *. lia.
Qed.

Lemma fold_assoc_set (ms acc : list (string * json)) :
  NoDup (map fst (acc ++ ms)) ->
  fold_left (fun acc kv => assoc_set kv.1 kv.2 acc) ms acc = acc ++ ms.
Proof.
  revert acc. induction ms as [| [k v] ms IH]; intros acc Hnd; simpl.
  - by rewrite app_nil_r.
  - assert (Hset : assoc_set k v acc = acc ++ [(k, v)]).
    { rewrite map_app in Hnd. apply NoDup_app in Hnd as (_ & Hdis & _).
      assert (Hk : k ∉ map fst acc).
      { intros Hin. apply (Hdis k Hin). simpl. left. }
      clear -Hk. induction acc as [| [k' v'] acc IH]; simpl; [done |].
      simpl in Hk. apply not_elem_of_cons in Hk as [Hne Hk].
      destruct (String.eqb k k') eqn:E.
      - apply String.eqb_eq in E. done.
      - by rewrite IH. }
    rewrite Hset. rewrite IH.
    + by rewrite <- app_assoc.
    + by rewrite <- app_assoc.
Qed.

Lemma object_of_NoDup (ms : list (string * json)) :
  NoDup (map fst ms) -> object_of ms = JObj ms.
Proof. intros H. unfold object_of. by rewrite fold_assoc_set. Qed.

Lemma stringify_reads_back (v : json) : wf v -> reads_back v.
Proof.
  induction v as [| b | n | s | xs IH | ps IH] using json_nested_ind;
    intros Hwf fuel rest Hfuel Hrest;
    (destruct fuel as [| fuel]; [simpl in Hfuel; lia |]).
  - reflexivity.
  - by destruct b.
  - simpl stringify. destruct (string_of_Z_head n) as (c & s & Hs & Hc).
    pose proof (parse_number_string_of_Z n rest Hrest) as Hp.
    rewrite Hs, append_cons in *. by rewrite parse_value_number, Hp.
  - simpl stringify. unfold quote.
    rewrite append_cons, parse_value_string, append_assoc, append_cons.
    change ("" +:+ rest) with rest. by rewrite parse_chars_quote.
  - apply wf_arr in Hwf.
    assert (Hall : Forall reads_back xs).
    { clear -IH Hwf. induction IH; [constructor |].
      apply Forall_cons in Hwf as [? ?]. constructor; auto. }
    rewrite stringify_arr, append_cons, parse_value_array.
    destruct xs as [| x xs']; [reflexivity |].
    destruct (stringify_head x) as (c & s & Hs & Hc).
    assert (Hhead : exists s', stringify_elems (x :: xs') +:+ rest = String c s').
    { destruct xs'; simpl stringify_elems; rewrite Hs, !append_cons; eauto. }
    destruct Hhead as [s' Hs']. rewrite Hs'. simpl skip_ws.
    rewrite (value_start_not_ws c Hc).
    destruct (value_start_not_close c Hc) as [-> _]. rewrite <- Hs'.
    change (size (JArr (x :: xs'))) with (S (size_elems (x :: xs'))) in Hfuel.
    rewrite elems_read_back; [done | done | done | lia].
  - apply wf_obj in Hwf as [Hnd Hwf].
    assert (Hall : Forall (fun kv => reads_back kv.2) ps).
    { clear -IH Hwf. induction IH; [constructor |].
      apply Forall_cons in Hwf as [? ?]. constructor; auto. }
    rewrite stringify_obj, append_cons, parse_value_object.
    destruct ps as [| [k x] ps']; [reflexivity |].
    assert (Hhead : exists s', stringify_members ((k, x) :: ps') +:+ rest
                               = String dquote s').
    { destruct ps' as [| [l y] qs]; simpl stringify_members; unfold quote;
        rewrite !append_cons; eauto. }
    destruct Hhead as [s' Hs']. rewrite Hs'. simpl skip_ws. cbv iota.
    simpl Ascii.eqb. cbv iota. rewrite <- Hs'.
    change (size (JObj ((k, x) :: ps')))
      with (S (size_members ((k, x) :: ps'))) in Hfuel.
    rewrite members_read_back; [| done | done | lia].
    by rewrite object_of_NoDup.
Qed.

(** The fuel [JSON_parse] starts with is enough. *)
Lemma size_elems_le_length (xs : list json) :
  Forall (fun x => (size x <= String.length (stringify x))%nat) xs ->
  (size_elems xs <= String.length (stringify_elems xs))%nat.
Proof.
  induction 1 as [| x xs Hx _ IH]; [simpl; lia |].
  destruct xs as [| y ys].
  - change (stringify_elems [x]) with (stringify x +:+ "]").
    rewrite length_append. simpl in *. lia.
  - change (stringify_elems (x :: y :: ys))
      with (stringify x +:+ "," +:+ stringify_elems (y :: ys)).
    rewrite !length_append.
    change (size_elems (x :: y :: ys)) with (S (size x + size_elems (y :: ys))).
    change (String.length ",") with 1%nat. lia.
Qed.

Lemma size_members_le_length (ps : list (string * json)) :
  Forall (fun kv => (size kv.2 <= String.length (stringify kv.2))%nat) ps ->
  (size_members ps <= String.length (stringify_members ps))%nat.
Proof.
  induction 1 as [| [k x] ps Hx _ IH]; [simpl; lia |].
  pose proof (length_quote k) as Hk. simpl in Hx.
  destruct ps as [| [l y] qs].
  - change (stringify_members [(k, x)])
      with (quote k +:+ ":" +:+ stringify x +:+ "}").
    rewrite !length_append. simpl in *. lia.
  - change (stringify_members ((k, x) :: (l, y) :: qs))
      with (quote k +:+ ":" +:+ stringify x +:+ "," +:+ stringify_members ((l, y) :: qs)).
    rewrite !length_append.
    change (size_members ((k, x) :: (l, y) :: qs))
      with (S (size x + size_members ((l, y) :: qs))).
    change (String.length ",") with 1%nat. change (String.length ":") with 1%nat.
    lia.
Qed.

Lemma size_le_length (v : json) : (size v <= String.length (stringify v))%nat.
Proof.
  induction v as [| b | n | s | xs IH | ps IH] using json_nested_ind.
  - simpl. lia.
  - destruct b; simpl; lia.
  - simpl. destruct (string_of_Z_head n) as (c & s & -> & _). simpl. lia.
  - pose proof (length_quote s). simpl in *. lia.
  - rewrite stringify_arr. change (size (JArr xs)) with (S (size_elems xs)).
    pose proof (size_elems_le_length xs IH). simpl. lia.
  - rewrite stringify_obj. change (size (JObj ps)) with (S (size_members ps)).
    pose proof (size_members_le_length ps IH). simpl. lia.
Qed.

(** [JSON.parse(JSON.stringify(v))] is [v], for every value that lists
    no key twice. *)
Theorem parse_stringify (v : json) :
  wf v -> JSON_parse (JSON_stringify v) = Some v.
Proof.
  intros Hwf. unfold JSON_parse, JSON_stringify.
  pose proof (stringify_reads_back v Hwf (S (String.length (stringify v)))
                EmptyString) as H.
  rewrite append_nil_r in H. rewrite H; [done | | done].
  pose proof (size_le_length v). lia.
Qed.

(** [JSON_parse] on text that [JSON_stringify] does not produce: white
    space between tokens, a repeated key, a short escape; and on text it
    refuses. *)
Example parse_spaced :
  JSON_parse (" { " +:+ quote "a" +:+ " : [ 1 , true , null ] } ")
  = Some (JObj [("a", JArr [JNum 1; JBool true; JNull])]).
Proof. reflexivity. Qed.

Example parse_repeated_key :
  JSON_parse ("{" +:+ quote "a" +:+ ":1," +:+ quote "b" +:+ ":2,"
              +:+ quote "a" +:+ ":3}")
  = Some (JObj [("a", JNum 3); ("b", JNum 2)]).
Proof. reflexivity. Qed.

Example parse_escape :
  JSON_parse (String dquote (String backslash ("n" +:+ String dquote EmptyString)))
  = Some (JStr (String "010"%char EmptyString)).
Proof. reflexivity. Qed.

Example parse_refused :
  map JSON_parse ["007"; "1.5"; "[1,]"; "nul"; "{} x"; EmptyString]
  = [None; None; None; None; None; None].
Proof. reflexivity. Qed.

End JsonRoundTrip.

(** ** The codec *)

Module CodecFacts.
Import Codec.

(** The words of the envelope invariant: the three kinds of message, and
    a message being exactly one of them. *)
Definition tagged (m : json) : Prop := prop "jsonrpc" m = Some (JStr "2.0").

Definition Request (m : json) : Prop :=
  (exists s, prop "method" m = Some (JStr s)) /\ prop "id" m <> None.

Definition Notification (m : json) : Prop :=
  (exists s, prop "method" m = Some (JStr s)) /\ prop "id" m = None.

(** a response as the invariant words it: exactly one of result and error *)
Definition Response (m : json) : Prop :=
  prop "id" m <> None /\
  ((prop "result" m <> None /\ prop "error" m = None) \/
   (prop "result" m = None /\ prop "error" m <> None)).

(** a response as the validators take it: result or error, or both *)
Definition AnyResponse (m : json) : Prop :=
  prop "id" m <> None /\ (prop "result" m <> None \/ prop "error" m <> None).

Definition exactly_one (A B C : Prop) : Prop :=
  (A /\ ~ B /\ ~ C) \/ (~ A /\ B /\ ~ C) \/ (~ A /\ ~ B /\ C).

Definition envelope_invariant (m : json) : Prop :=
  tagged m /\ exactly_one (Request m) (Notification m) (Response m).

Lemma defined_true (o : option json) : defined o = true <-> o <> None.
Proof. destruct o; simpl; split; congruence. Qed.

Lemma defined_false (o : option json) : defined o = false <-> o = None.
Proof. destruct o; simpl; split; congruence. Qed.

Lemma is_string_true (o : option json) :
  is_string o = true <-> exists s, o = Some (JStr s).
Proof.
  destruct o as [[]|]; simpl; split; try discriminate; eauto;
    intros [s' H]; discriminate.
Qed.

Lemma is_str_true (s : string) (o : option json) :
  is_str s o = true <-> o = Some (JStr s).
Proof.
  destruct o as [[]|]; simpl; split; try discriminate.
  - intros H. apply String.eqb_eq in H. by subst.
  - intros H. injection H as ->. apply String.eqb_refl.
Qed.

Lemma tagged_is_object (m : json) : tagged m -> exists ps, m = JObj ps.
Proof. unfold tagged. destruct m; simpl; try discriminate. eauto. Qed.

(** What [validate] accepts. *)
Lemma validate_true (m : json) :
  validate m = true <->
  tagged m /\ (Request m \/ Notification m \/ AnyResponse m).
Proof.
  unfold validate, tagged, Request, Notification, AnyResponse.
  destruct m as [| b | n | s | xs | ps]; simpl;
    try (split; [discriminate | intros [H _]; discriminate]).
  destruct (is_str "2.0" (assoc "jsonrpc" ps)) eqn:Etag; simpl.
  - apply is_str_true in Etag. rewrite Etag.
    rewrite !orb_true_iff, !andb_true_iff, negb_true_iff, !orb_true_iff.
    rewrite !defined_true, defined_false, is_string_true. tauto.
  - split; [discriminate |]. intros [H _]. apply is_str_true in H. congruence.
Qed.

(** The translator's validator is the codec's. *)
Lemma isValidMCPMessage_validate (m : json) :
  Translator.isValidMCPMessage m = validate m.
Proof.
  unfold Translator.isValidMCPMessage, validate.
  destruct m; simpl; try reflexivity.
  destruct (is_str "2.0" _); simpl; [| reflexivity].
  destruct (is_string _), (defined (assoc "id" _)), (defined (assoc "result" _)),
    (defined (assoc "error" _)); reflexivity.
Qed.

Definition both_result_and_error : json :=
  JObj [("jsonrpc", JStr "2.0"); ("id", JNum 1); ("result", JStr "done");
        ("error", JObj [("code", JNum (-32603)); ("message", JStr "failed")])].

(** C1, as stated, fails: a message that carries both a result and an
    error is none of the three kinds of the invariant, and [validate]
    accepts it. *)
Lemma validate_accepts_result_and_error :
  validate both_result_and_error = true /\
  ~ envelope_invariant both_result_and_error /\
  ~ (forall m, validate m = true <-> envelope_invariant m).
Proof.
  assert (Hv : validate both_result_and_error = true) by reflexivity.
  assert (Hn : ~ envelope_invariant both_result_and_error).
  { unfold envelope_invariant, exactly_one, Request, Notification, Response.
    simpl. intros [_ [[[[s H] _] _] | [[_ [[[s H] _] _]] | [_ [_ [_ [[_ H] | [H _]]]]]]]];
      discriminate. }
  split; [exact Hv |]. split; [exact Hn |].
  intros H. apply Hn, H, Hv.
Qed.

(** C1, amended: [validate] accepts a message iff it carries the protocol
    tag "2.0" and is a request (method a string, id present), a notification
    (method a string, id absent) or a response in the wide sense (id
    present, result or error present, possibly both); the kinds are not
    checked to exclude one another.  Every message the invariant admits is
    accepted, and a message [validate] rejects, as any message without the
    tag or of none of the kinds is, makes [deserialize] fail with the
    invalid-format error. *)
Theorem validate_accepts_iff (m : json) :
  (validate m = true <->
   tagged m /\ (Request m \/ Notification m \/ AnyResponse m)) /\
  (envelope_invariant m -> validate m = true) /\
  (~ tagged m \/ ~ (Request m \/ Notification m \/ AnyResponse m) ->
   validate m = false /\
   forall data, JSON_parse data = Some m -> deserialize data = Throw invalid_format).
Proof.
  split; [apply validate_true |]. split.
  - intros [Ht Hone]. apply validate_true. split; [exact Ht |].
    destruct Hone as [[H _] | [[_ [H _]] | [_ [_ H]]]]; auto.
    right. right. destruct H as [Hid [[Hr _] | [_ He]]]; split; auto.
  - intros Hbad.
    assert (Hv : validate m = false).
    { destruct (validate m) eqn:E; [| reflexivity].
      apply validate_true in E. tauto. }
    split; [exact Hv |].
    intros data Hp. unfold deserialize. by rewrite Hp, Hv.
Qed.

Definition list_tools : json :=
  JObj [("jsonrpc", JStr "2.0"); ("id", JNum 42); ("method", JStr "tools/list");
        ("params", JObj [("cursor", JNull); ("tags", JArr [JStr "a"; JNum (-1)])])].

(** C3: for every message that [validate] accepts and that is JSON data
    (no object in it lists a key twice), [deserialize (serialize msg)] is
    [msg]. *)
Theorem deserialize_serialize (msg : json) :
  validate msg = true -> wf msg -> deserialize (serialize msg) = Ok msg.
Proof.
  intros Hv Hwf. unfold deserialize, serialize.
  rewrite (JsonRoundTrip.parse_stringify msg Hwf). by rewrite Hv.
Qed.

Lemma deserialize_serialize_witness :
  deserialize (serialize list_tools) = Ok list_tools.
Proof.
  apply (deserialize_serialize list_tools).
  - reflexivity.
  - simpl. repeat split; by apply (bool_decide_unpack _).
Defined.

(** The text on the wire for that message. *)
Example serialize_list_tools :
  serialize list_tools
  = "{" +:+ quote "jsonrpc" +:+ ":" +:+ quote "2.0" +:+ ","
    +:+ quote "id" +:+ ":42," +:+ quote "method" +:+ ":" +:+ quote "tools/list" +:+ ","
    +:+ quote "params" +:+ ":{" +:+ quote "cursor" +:+ ":null,"
    +:+ quote "tags" +:+ ":[" +:+ quote "a" +:+ ",-1]}}".
Proof. reflexivity. Qed.

(** A request and a rejected message, through the theorem. *)
Lemma validate_accepts_iff_witness :
  validate list_tools = true
  /\ (validate (JObj [("id", JNum 1); ("result", JNull)]) = false
      /\ forall data,
           JSON_parse data = Some (JObj [("id", JNum 1); ("result", JNull)]) ->
           deserialize data = Throw invalid_format).
Proof.
  split.
  - apply (validate_accepts_iff list_tools). split; [reflexivity |].
    left. split; [split; [simpl; eauto | simpl; discriminate] |]. split.
    + intros [_ H]. simpl in H. discriminate.
    + intros [_ [[H _] | [_ H]]]; simpl in H; by apply H.
  - apply (validate_accepts_iff (JObj [("id", JNum 1); ("result", JNull)])).
    left. unfold tagged. simpl. discriminate.
Defined.

End CodecFacts.

(** ** The correlation tracker *)

Module TrackerFacts.
Import Tracker.

Section JsMapFacts.
Context {V : Type}.
Implicit Types (m : list (json * V)) (k : json).

Lemma map_has_elem k m : map_has k m = true <-> k ∈ map fst m.
Proof.
  unfold map_has. induction m as [| [k' v] m IH]; simpl.
  - split; [discriminate | intros H; by apply elem_of_nil in H].
  - rewrite elem_of_cons. destruct (json_eqb k k') eqn:E.
    + apply json_eqb_eq in E. tauto.
    + apply json_eqb_neq in E. rewrite IH. tauto.
Qed.

Lemma map_get_none k m : map_get k m = None <-> k ∉ map fst m.
Proof.
  rewrite <- map_has_elem. unfold map_has.
  destruct (map_get k m); split; try done.
Qed.

Lemma keys_map_set k (v : V) m :
  map fst (map_set k v m) = if map_has k m then map fst m else map fst m ++ [k].
Proof.
  unfold map_has. induction m as [| [k' v'] m IH]; simpl; [done |].
  destruct (json_eqb k k') eqn:E; simpl; [done |].
  rewrite IH. by destruct (map_get k m).
Qed.

Lemma keys_map_delete k m :
  map fst (map_delete k m) = filter (fun x => x <> k) (map fst m).
Proof.
  unfold map_delete. induction m as [| [k' v] m IH]; [done |].
  rewrite filter_cons. cbn [map fst]. rewrite filter_cons. simpl.
  destruct (json_eqb k k') eqn:E; simpl.
  - apply json_eqb_eq in E as ->.
    destruct (decide (false = true)); [done |].
    destruct (decide (k' <> k')); [done | exact IH].
  - apply json_eqb_neq in E.
    destruct (decide (true = true)); [| done].
    destruct (decide (k' <> k)); [| by subst].
    simpl. by rewrite IH.
Qed.

Lemma NoDup_map_set k (v : V) m :
  NoDup (map fst m) -> NoDup (map fst (map_set k v m)).
Proof.
  intros H. rewrite keys_map_set. destruct (map_has k m) eqn:E; [done |].
  apply NoDup_app. split; [done |]. split.
  - intros x Hx Hk. apply list_elem_of_singleton in Hk as ->.
    apply map_has_elem in Hx. congruence.
  - apply NoDup_singleton.
Qed.

Lemma NoDup_map_delete k m :
  NoDup (map fst m) -> NoDup (map fst (map_delete k m)).
Proof. intros H. rewrite keys_map_delete. by apply NoDup_filter. Qed.

Lemma map_get_delete k m : map_get k (map_delete k m) = None.
Proof.
  apply map_get_none. rewrite keys_map_delete. intros H.
  apply list_elem_of_filter in H. tauto.
Qed.
End JsMapFacts.

(** The ids being tracked, each of which is to occur once. *)
Definition unique_ids (t : Tracker) : Prop := NoDup (getPendingRequestIds t).

Lemma pending_fold_settle (l : list (json * PendingRequest)) (t : Tracker) :
  pending
    (fold_left
       (fun acc (e : json * PendingRequest) =>
          settle (waiter e.2) (Rejected all_cancelled_error)
            (clearTimeout (timeout e.2) acc)) l t) = pending t.
Proof. revert t. induction l as [| e l IH]; intros t; simpl; [done |]. by rewrite IH. Qed.

Lemma unique_trackRequest t msg tmo maxR now :
  unique_ids t -> unique_ids (trackRequest t msg tmo maxR now).2.
Proof.
  unfold unique_ids, getPendingRequestIds, trackRequest. intros H.
  destruct (negb (truthy (prop "id" msg))); [done |].
  destruct (prop "id" msg) as [id |]; [| done].
  destruct (map_has id (pending t)) eqn:E; [done |].
  destruct (enableMetrics (config t)); simpl; by apply NoDup_map_set.
Qed.

Lemma unique_handleResponse t response now :
  unique_ids t -> unique_ids (handleResponse t response now).2.
Proof.
  unfold unique_ids, getPendingRequestIds, handleResponse. intros H.
  destruct (negb (truthy (prop "id" response))); [done |].
  destruct (prop "id" response) as [id |]; [| done].
  destruct (map_get id (pending t)) as [pr |]; [| done].
  assert (NoDup (map fst (map_delete id (pending t)))) by by apply NoDup_map_delete.
  unfold updateMetrics.
  destruct (enableMetrics (config t)), (prop "error" response) as [e |];
    try destruct (truthy (Some e)); simpl; done.
Qed.

Lemma unique_handleTimeout t id : unique_ids t -> unique_ids (handleTimeout t id).
Proof.
  unfold unique_ids, getPendingRequestIds, handleTimeout. intros H.
  destruct (map_get id (pending t)) as [pr |]; [| done].
  destruct (enableMetrics (config t)); simpl; by apply NoDup_map_delete.
Qed.

Lemma unique_fire_timer t h : unique_ids t -> unique_ids (fire_timer t h).
Proof.
  unfold fire_timer. intros H.
  destruct (list_find _ _) as [[i [h' [id delay]]] |]; [| done].
  by apply unique_handleTimeout.
Qed.

Lemma unique_retryRequest_begin t m now :
  unique_ids t -> unique_ids (retryRequest_begin t m now).2.
Proof.
  unfold unique_ids, getPendingRequestIds, retryRequest_begin. intros H.
  destruct (negb (truthy (prop "id" m))); [done |].
  destruct (prop "id" m) as [id |]; [| done].
  destruct (map_get id (pending t)) as [pr |]; [| done].
  destruct (maxRetries pr <=? retries pr)%Z; simpl.
  - by apply NoDup_map_delete.
  - by apply NoDup_map_set.
Qed.

Lemma unique_retryRequest_sent t id pr sent :
  unique_ids t -> unique_ids (retryRequest_sent t id pr sent).2.
Proof.
  unfold unique_ids, getPendingRequestIds, retryRequest_sent. intros H.
  destruct sent as [[] | e]; simpl.
  - rewrite map_map.
    erewrite map_ext; [exact H |].
    intros [k r]. simpl. by destruct (Nat.eqb (obj r) (obj pr)).
  - by apply NoDup_map_delete.
Qed.

Lemma unique_retryRequest t m now sendFn :
  unique_ids t -> unique_ids (retryRequest t m now sendFn).2.
Proof.
  intros H. unfold retryRequest.
  pose proof (unique_retryRequest_begin t m now H) as Hb.
  destruct (retryRequest_begin t m now) as [[pr | e] t']; simpl in *; [| done].
  by apply unique_retryRequest_sent.
Qed.

Lemma unique_cancelRequest t id : unique_ids t -> unique_ids (cancelRequest t id).2.
Proof.
  unfold unique_ids, getPendingRequestIds, cancelRequest. intros H.
  destruct (map_get id (pending t)) as [pr |]; [| done].
  destruct (enableMetrics (config t)); simpl; by apply NoDup_map_delete.
Qed.

Lemma pending_cancelAllRequests t : pending (cancelAllRequests t).2 = [].
Proof.
  unfold cancelAllRequests. by destruct (enableMetrics (config t)).
Qed.

Lemma unique_cleanupStaleRequests t now :
  unique_ids t -> unique_ids (cleanupStaleRequests t now).
Proof.
  unfold cleanupStaleRequests.
  generalize (map fst (filter (fun e : json * PendingRequest =>
                                 defaultTimeout (config t) * 2 < now - timestamp e.2)
                         (pending t))).
  intros ids. revert t. induction ids as [| id ids IH]; intros t H; simpl; [done |].
  by apply IH, unique_cancelRequest.
Qed.

Lemma unique_step t ev : unique_ids t -> unique_ids (step t ev).
Proof.
  destruct ev; cbn [step].
  - apply unique_trackRequest.
  - apply unique_handleResponse.
  - apply unique_fire_timer.
  - apply unique_retryRequest_begin.
  - apply unique_retryRequest_sent.
  - apply unique_retryRequest.
  - apply unique_cancelRequest.
  - intros _. unfold unique_ids, getPendingRequestIds.
    rewrite pending_cancelAllRequests. constructor.
  - apply unique_cleanupStaleRequests.
  - done.
  - intros _. unfold unique_ids, getPendingRequestIds, shutdown.
    rewrite pending_cancelAllRequests. constructor.
Qed.

Lemma trackRequest_duplicate t msg id tmo maxR now :
  prop "id" msg = Some id ->
  map_has id (pending t) = true ->
  trackRequest t msg tmo maxR now =
    (Throw (if truthy (Some id) then already_tracked_error id else no_id_error), t).
Proof.
  intros Hid Hhas. unfold trackRequest. rewrite Hid.
  destruct (truthy (Some id)); simpl; [| done]. by rewrite Hhas.
Qed.

(** C2: in every state the tracker can reach, each id is pending at most
    once; [trackRequest] on a message whose id is already pending fails
    with an error and changes nothing; and every step of the tracker
    (a response, a timeout, either half of a retry or a whole one, a
    cancellation of one or of all requests, the sweep, a reset of the
    metrics, the shutdown, and tracking itself) keeps it so. *)
Theorem at_most_one_pending_per_id :
  (forall cfg t, reachable cfg t -> NoDup (getPendingRequestIds t)) /\
  (forall t msg id tmo maxR now,
     prop "id" msg = Some id ->
     id ∈ getPendingRequestIds t ->
     exists e, trackRequest t msg tmo maxR now = (Throw e, t)) /\
  (forall t ev, NoDup (getPendingRequestIds t) ->
                NoDup (getPendingRequestIds (step t ev))).
Proof.
  split; [| split].
  - intros cfg t H. induction H as [| t ev _ IH].
    + constructor.
    + by apply unique_step.
  - intros t msg id tmo maxR now Hid Hin.
    eexists. apply trackRequest_duplicate; [done |]. by apply map_has_elem.
  - intros t ev. apply unique_step.
Qed.

Definition cfg0 : CorrelationConfig := mkConfig 30000 3 60000 true.

Definition ping (id : json) : json :=
  JObj [("jsonrpc", JStr "2.0"); ("id", id); ("method", JStr "ping")].

(** Tracking the same id twice: the second call fails and leaves the one
    pending request in place. *)
Example track_twice :
  let t1 := (trackRequest (new_tracker cfg0) (ping (JNum 7)) None None 100).2 in
  getPendingRequestIds t1 = [JNum 7] /\
  trackRequest t1 (ping (JNum 7)) None None 200
  = (Throw (error "Request with ID 7 is already being tracked"), t1).
Proof. split; reflexivity. Qed.

(** C8: a message whose id is the number 0 or the empty string is refused
    by [trackRequest] with the error that the message must have an id, and
    [handleResponse] on it answers false; neither changes the tracker. *)
Theorem falsy_id_never_correlated t msg tmo maxR now :
  prop "id" msg = Some (JNum 0) \/ prop "id" msg = Some (JStr EmptyString) ->
  trackRequest t msg tmo maxR now
  = (Throw (error "Message must have an ID for correlation tracking"), t) /\
  handleResponse t msg now = (false, t).
Proof.
  intros [H | H]; unfold trackRequest, handleResponse; rewrite H; simpl; done.
Qed.

Lemma falsy_id_never_correlated_witness :
  trackRequest (new_tracker cfg0) (ping (JNum 0)) None None 5
  = (Throw (error "Message must have an ID for correlation tracking"),
     new_tracker cfg0) /\
  handleResponse (new_tracker cfg0) (ping (JNum 0)) 5 = (false, new_tracker cfg0).
Proof.
  apply (falsy_id_never_correlated (new_tracker cfg0) (ping (JNum 0)) None None 5).
  left. reflexivity.
Defined.

(** The theorem at the tracker of [track_twice]. *)
Lemma at_most_one_pending_per_id_witness :
  let t1 := step (new_tracker cfg0) (EvTrack (ping (JNum 7)) None None 100) in
  NoDup (getPendingRequestIds t1)
  /\ exists e, trackRequest t1 (ping (JNum 7)) None None 200 = (Throw e, t1).
Proof.
  destruct at_most_one_pending_per_id as (Hreach & Hdup & _). split.
  - apply (Hreach cfg0). apply reachable_step, reachable_new.
  - apply (Hdup _ _ (JNum 7)); [reflexivity |]. simpl. left.
Defined.

End TrackerFacts.

(** ** The router *)

Module RouterFacts.
Import Router.

(** A middleware that awaits [next()] once and settles on its outcome,
    resolving when [next()] resolved. *)
Definition awaits_next_once (p : chain_prog) : Prop :=
  exists k, p = AwaitNext k /\
            k (Ok tt) = Resolve /\
            forall e, k (Throw e) = Resolve \/ exists e', k (Throw e) = Reject e'.

Lemma auth_awaits_next_once validateFn message :
  validateFn message = true -> awaits_next_once (execute (auth validateFn) message).
Proof.
  intros H. unfold auth. simpl. rewrite H. simpl.
  eexists. split; [reflexivity |]. split; [reflexivity |]. intros e. right. eauto.
Qed.

Lemma metrics_awaits_next_once message : awaits_next_once (execute metrics message).
Proof.
  eexists. split; [reflexivity |]. split; [reflexivity |]. intros e. right. eauto.
Qed.

Section Engine.
Variable RegExp : Type.
Variable RegExp_new : string -> option RegExp.
Variable RegExp_match : string -> RegExp -> option (list (string * string)).

Abbreviation MessageRouter := (MessageRouter RegExp).
Abbreviation RouteMatch := (RouteMatch RegExp).
Abbreviation route := (route RegExp_new RegExp_match).
Abbreviation findMatches := (findMatches RegExp_new RegExp_match).

(** The message a route hands to its chain. *)
Definition processed (message : json) (m : RouteMatch) : json :=
  match applyTransformers message (transformers (route_of m)) with
  | Ok message' => message'
  | Throw _ => message
  end.

(** One delivery for each match, in the order of the matches. *)
Definition one_each (message : json) (ms : list RouteMatch) : list (string * json) :=
  map (fun m => (destination (route_of m), processed message m)) ms.

Section Chain.
Variable message : json.
Variable mws : list RouteMiddleware.
Variable finalHandler : chain_state -> outcome unit * chain_state.
Hypothesis final_index : forall s, index (finalHandler s).2 = index s.

(** The chain never runs out of fuel: whatever the middleware do, the
    index only grows, and the fuel covers what is left of the list. *)
Lemma next_returns fuel s :
  (length mws - index s <= fuel)%nat ->
  exists r s', next fuel message mws finalHandler s = Some (r, s')
               /\ (index s <= index s')%nat.
Proof.
  revert s. induction fuel as [| fuel IH]; intros s Hf.
  - simpl. destruct (length mws <=? index s)%nat eqn:E.
    + destruct (finalHandler s) as [r s'] eqn:Ef. exists r, s'. split; [done |].
      pose proof (final_index s) as Hi. rewrite Ef in Hi. simpl in Hi. lia.
    + apply Nat.leb_gt in E. lia.
  - simpl. destruct (length mws <=? index s)%nat eqn:E.
    + destruct (finalHandler s) as [r s'] eqn:Ef. exists r, s'. split; [done |].
      pose proof (final_index s) as Hi. rewrite Ef in Hi. simpl in Hi. lia.
    + apply Nat.leb_gt in E.
      destruct (mws !! index s) as [mw |] eqn:El.
      2: { apply lookup_ge_None in El. lia. }
      assert (Hrun : forall p s1, (S (index s) <= index s1)%nat ->
                exists r s', run_prog (next fuel message mws finalHandler) p s1
                             = Some (r, s') /\ (index s1 <= index s')%nat).
      { induction p as [| e | k IHk]; intros s1 H1; simpl.
        - eauto.
        - eauto.
        - destruct (IH s1) as (r & s2 & -> & H2); [lia |].
          destruct (IHk r s2) as (r' & s3 & -> & H3); [lia |].
          exists r', s3. split; [done | lia]. }
      destruct (Hrun (execute mw message) (mkChain (S (index s)) (deliveries s)))
        as (r & s' & -> & H'); [simpl; lia |].
      exists r, s'. split; [done |]. simpl in H'. lia.
Qed.
End Chain.

Section Delivery.
Variable r : MessageRouter.
Variable message : json.
Variable mws : list RouteMiddleware.
Variable destinationName : string.
Variable handler : MessageHandler.
Hypothesis registered : destinations r !! destinationName = Some handler.
Hypothesis once : forall mw, mw ∈ mws -> awaits_next_once (execute mw message).

(** From any position of a chain whose middleware await [next()] once
    each, the destination handler is called once. *)
Lemma next_delivers_once fuel i delivered :
  (length mws - i <= fuel)%nat ->
  exists res,
    next fuel message mws (sendToDestination r message destinationName)
      (mkChain i delivered)
    = Some (res, mkChain (max i (length mws))
                   (delivered ++ [(destinationName, message)]))
    /\ (handle handler message = Ok tt -> res = Ok tt).
Proof.
  revert i. induction fuel as [| fuel IH]; intros i Hf.
  - simpl. destruct (length mws <=? i)%nat eqn:E.
    + apply Nat.leb_le in E. unfold sendToDestination. rewrite registered. simpl.
      rewrite Nat.max_l by lia. eauto.
    + apply Nat.leb_gt in E. lia.
  - simpl. destruct (length mws <=? i)%nat eqn:E.
    + apply Nat.leb_le in E. unfold sendToDestination. rewrite registered. simpl.
      rewrite Nat.max_l by lia. eauto.
    + apply Nat.leb_gt in E.
      destruct (mws !! i) as [mw |] eqn:El.
      2: { apply lookup_ge_None in El. lia. }
      destruct (once mw) as (k & -> & Hok & Hthrow).
      { apply list_elem_of_lookup. eauto. }
      simpl. destruct (IH (S i)) as (res & -> & Hres); [lia |].
      rewrite Nat.max_r by lia. rewrite (Nat.max_r i) by lia.
      destruct res as [[] | e].
      * rewrite Hok. simpl. eauto.
      * destruct (Hthrow e) as [-> | [e' ->]]; simpl.
        -- exists (Ok tt). done.
        -- exists (Throw e'). split; [done |]. intros H. by specialize (Hres H).
Qed.
End Delivery.

(** The hypotheses on a matched route: its transformers succeed, every
    middleware of its chain awaits [next()] once, and its destination is
    registered. *)
Definition route_ready (r : MessageRouter) (message : json) (m : RouteMatch) : Prop :=
  is_ok (applyTransformers message (transformers (route_of m))) = true /\
  (forall mw, mw ∈ globalMiddleware r ++ middleware (route_of m) ->
              awaits_next_once (execute mw (processed message m))) /\
  is_Some (destinations r !! destination (route_of m)).

Definition handler_resolves (r : MessageRouter) (message : json) (m : RouteMatch) : Prop :=
  forall h, destinations r !! destination (route_of m) = Some h ->
            handle h (processed message m) = Ok tt.

Lemma processRoute_delivers_once r message m delivered :
  route_ready r message m ->
  exists res,
    processRoute r message m delivered
    = Some (res, delivered ++ [(destination (route_of m), processed message m)])
    /\ (handler_resolves r message m -> res = Ok tt).
Proof.
  intros (Ht & Hmw & [h Hd]). unfold handler_resolves, processRoute, processed in *.
  destruct (applyTransformers message (transformers (route_of m)))
    as [message' | e]; [| discriminate].
  unfold executeMiddlewareChain.
  destruct (next_delivers_once r message' _ _ h Hd Hmw
              (length (globalMiddleware r ++ middleware (route_of m))) 0 delivered)
    as (res & -> & Hres); [lia |].
  exists res. split; [done |]. intros Hh. apply Hres. by apply Hh.
Qed.

Lemma processRoutes_deliver_once r message ms delivered :
  (forall m, m ∈ ms -> route_ready r message m) ->
  exists res,
    processRoutes r message ms delivered
    = Some (res, delivered ++ one_each message ms)
    /\ ((forall m, m ∈ ms -> handler_resolves r message m) -> res = Ok tt).
Proof.
  revert delivered. induction ms as [| m ms IH]; intros delivered Hready; simpl.
  - rewrite app_nil_r. eauto.
  - destruct (processRoute_delivers_once r message m delivered) as (res & -> & Hres).
    { apply Hready. left. }
    destruct (IH (delivered ++ [(destination (route_of m), processed message m)]))
      as (res' & -> & Hres').
    { intros m' Hm'. apply Hready. by right. }
    rewrite <- app_assoc. simpl. eexists. split; [reflexivity |].
    intros Hh. rewrite Hres by (apply Hh; left).
    apply Hres'. intros m' Hm'. apply Hh. by right.
Qed.

(** [route] always returns: the chains never run out of fuel. *)
Lemma route_returns r message : is_Some (route r message).
Proof.
  unfold Router.route. destruct (findMatches r message) as [ms | e]; [| eauto].
  destruct ms as [| m0 ms0]; [eauto |].
  generalize (m0 :: ms0) (@nil (string * json)). clear m0 ms0.
  intros ms. induction ms as [| m ms IH]; intros delivered; simpl; [eauto |].
  assert (Hp : is_Some (processRoute r message m delivered)).
  { unfold processRoute.
    destruct (applyTransformers _ _) as [message' | e]; [| eauto].
    unfold executeMiddlewareChain.
    destruct (next_returns message' (globalMiddleware r ++ middleware (route_of m))
                (sendToDestination r message' (destination (route_of m))))
      with (fuel := length (globalMiddleware r ++ middleware (route_of m)))
           (s := mkChain 0 delivered)
      as (res & s' & -> & _); [| simpl; lia | eauto].
    intros s. unfold sendToDestination. by destruct (destinations r !! _). }
  destruct Hp as [[res delivered'] ->].
  destruct (IH delivered') as [[res' delivered''] ->]. eauto.
Qed.

(** C4, amended: with no matching route, [route] fails with the no-route
    error and no handler is called.  With matching routes whose
    transformers succeed, whose middleware (global and of the route) each
    await [next()] once and resolve when it resolved, and whose
    destinations are registered, the destination handler of each matched
    route is called once, with the message as the transformers of that
    route left it; and if the handlers resolve, so does [route]. *)
Theorem route_fans_out (r : MessageRouter) (message : json) :
  (findMatches r message = Ok [] ->
   route r message = Some (Throw (no_route message), [])) /\
  (forall matches,
     findMatches r message = Ok matches ->
     matches <> [] ->
     (forall m, m ∈ matches -> route_ready r message m) ->
     exists res,
       route r message = Some (res, one_each message matches)
       /\ ((forall m, m ∈ matches -> handler_resolves r message m) -> res = Ok tt)).
Proof.
  split.
  - intros H. unfold Router.route. by rewrite H.
  - intros matches Hm Hne Hready. unfold Router.route. rewrite Hm.
    destruct matches as [| m0 ms0]; [done |].
    apply (processRoutes_deliver_once r message (m0 :: ms0) [] Hready).
Qed.

(** C4 in its own words: whenever routes match, their destinations are
    registered and nothing fails, every matched route has delivered
    once. *)
Definition delivers_whenever_nothing_fails : Prop :=
  forall (r : MessageRouter) message matches delivered,
    findMatches r message = Ok matches ->
    matches <> [] ->
    (forall m, m ∈ matches ->
               is_Some (destinations r !! destination (route_of m))) ->
    route r message = Some (Ok tt, delivered) ->
    delivered = one_each message matches.

End Engine.

(** An engine for the examples: it knows the anchored literal patterns,
    which match the one string they spell. *)
Definition literal_new (source : string) : option string := Some source.

Definition literal_match (method : string) (regex : string)
  : option (list (string * string)) :=
  if String.eqb regex ("^" +:+ method +:+ "$") then Some [] else None.

Definition always_ok : MessageHandler := mkHandler (fun _ => Ok tt).

(** A middleware that resolves without calling [next()]. *)
Definition swallow : RouteMiddleware := mkMiddleware "swallow" (fun _ => Resolve).

Definition ping : json := JObj [("jsonrpc", JStr "2.0"); ("method", JStr "ping")].

Definition router_with (mw : RouteMiddleware) : MessageRouter string :=
  registerDestination
    (addRoute new_router (mkRoute (PString "ping") "backend" [] [mw]))
    "backend" always_ok.

(** C4, as stated, fails: one route matches, its destination is
    registered, nothing fails, and the handler is not called, because
    the middleware of the route resolves without calling [next()]. *)
Lemma route_swallowed :
  Router.findMatches literal_new literal_match (router_with swallow) ping
  = Ok [mkMatch (mkRoute (PString "ping") "backend" [] [swallow]) []] /\
  Router.route literal_new literal_match (router_with swallow) ping = Some (Ok tt, []) /\
  ~ delivers_whenever_nothing_fails string literal_new literal_match.
Proof.
  assert (Hm : Router.findMatches literal_new literal_match (router_with swallow) ping
               = Ok [mkMatch (mkRoute (PString "ping") "backend" [] [swallow]) []])
    by reflexivity.
  assert (Hr : Router.route literal_new literal_match (router_with swallow) ping
               = Some (Ok tt, [])) by reflexivity.
  split; [exact Hm |]. split; [exact Hr |].
  intros H. specialize (H (router_with swallow) ping _ [] Hm).
  discriminate H; [done | | exact Hr].
  intros m Hin. apply list_elem_of_singleton in Hin as ->. simpl. eauto.
Qed.

(** The same route behind the built-in [metrics] middleware delivers. *)
Example route_through_metrics :
  Router.route literal_new literal_match (router_with metrics) ping
  = Some (Ok tt, [("backend", ping)]).
Proof. reflexivity. Qed.

Example route_no_match :
  Router.route literal_new literal_match (router_with metrics)
    (JObj [("jsonrpc", JStr "2.0"); ("method", JStr "pong")])
  = Some (Throw (error "No route found for message: pong"), []).
Proof. reflexivity. Qed.

(** The theorem at the router of [route_through_metrics]. *)
Lemma route_fans_out_witness :
  exists res,
    Router.route literal_new literal_match (router_with metrics) ping
    = Some (res, [("backend", ping)])
    /\ res = Ok tt.
Proof.
  destruct (route_fans_out string literal_new literal_match (router_with metrics) ping)
    as [_ H].
  destruct (H [mkMatch (mkRoute (PString "ping") "backend" [] [metrics]) []])
    as (res & Hres & Hok).
  - reflexivity.
  - discriminate.
  - intros m Hm. apply list_elem_of_singleton in Hm as ->. split; [reflexivity |].
    split.
    + intros mw Hmw. apply list_elem_of_singleton in Hmw as ->.
      apply metrics_awaits_next_once.
    + simpl. eauto.
  - exists res. split; [exact Hres |]. apply Hok.
    intros m Hm h Hh. apply list_elem_of_singleton in Hm as ->.
    simpl in Hh. injection Hh as <-. reflexivity.
Defined.

(** A middleware that awaits [next()] twice: the handler is called twice. *)
Definition twice : RouteMiddleware :=
  mkMiddleware "twice" (fun _ =>
    AwaitNext (fun _ =>
      AwaitNext (fun r => match r with Ok _ => Resolve | Throw e => Reject e end))).

Example route_delivered_twice :
  Router.route literal_new literal_match (router_with twice) ping
  = Some (Ok tt, [("backend", ping); ("backend", ping)]).
Proof. reflexivity. Qed.

End RouterFacts.

(** ** The subprocess pool *)

Module PoolFacts.
Import Pool.

Definition line (message : json) : string := Codec.serialize message +:+ newline.

Lemma container_send_fails c message e :
  (container_send c message).1 = Throw e ->
  container_send c message = (Throw (error "Container not running"), c)
  /\ e = error "Container not running".
Proof.
  unfold container_send. destruct (negb (process c) || negb (connected c)); simpl.
  - intros H. by injection H as <-.
  - discriminate.
Qed.

Lemma container_send_succeeds c message :
  (container_send c message).1 = Ok tt ->
  container_send c message
  = (Ok tt, mkContainer (process c) (connected c) (stdin c ++ [line message])
              (messagesSent c + 1)).
Proof.
  unfold container_send. destruct (negb (process c) || negb (connected c)); simpl.
  - discriminate.
  - done.
Qed.

Lemma instances_failure_begin p id other :
  other <> id ->
  instances (handleInstanceFailure_begin p id) !! other = instances p !! other.
Proof.
  intros Hne. unfold handleInstanceFailure_begin. simpl.
  destruct (instances p !! id); simpl; [| done]. by rewrite lookup_insert_ne.
Qed.

Lemma delivered_failure_begin p id other :
  delivered_to (handleInstanceFailure_begin p id) other = delivered_to p other.
Proof.
  unfold delivered_to, handleInstanceFailure_begin. simpl.
  destruct (instances p !! id) as [c |] eqn:E; simpl; [| done].
  destruct (decide (id = other)) as [-> | Hne].
  - rewrite lookup_insert_eq, E. done.
  - by rewrite lookup_insert_ne.
Qed.

Lemma roundRobin_failure_begin p id :
  roundRobinIndex (handleInstanceFailure_begin p id) = roundRobinIndex p.
Proof.
  unfold handleInstanceFailure_begin. simpl. by destruct (instances p !! id).
Qed.

(** One active slot whose send fails: the error is the slot's. *)
Lemma send_single_slot_fails p message id c e :
  activeInstances p = [id] ->
  instances p !! id = Some c ->
  (container_send c message).1 = Throw e ->
  (send p message).1 = Throw e.
Proof.
  intros Ha Hi Hs. apply container_send_fails in Hs as [Hs ->].
  unfold send. rewrite Ha. cbn [length Nat.eqb]. rewrite Nat.mod_1_r.
  cbn [lookup list_lookup instances]. rewrite Hi, Hs.
  unfold send_catch. cbn [length Nat.ltb Nat.leb]. done.
Qed.

(** Two active slots, the selected one fails, the other one succeeds. *)
Lemma send_fails_over p message a b first other cf co e :
  activeInstances p = [a; b] ->
  [a; b] !! (roundRobinIndex p mod 2)%nat = Some first ->
  other ∈ [a; b] -> other <> first ->
  instances p !! first = Some cf ->
  instances p !! other = Some co ->
  (container_send cf message).1 = Throw e ->
  (container_send co message).1 = Ok tt ->
  (send p message).1 = Ok tt
  /\ delivered_to (send p message).2 other = delivered_to p other ++ [line message]
  /\ delivered_to (send p message).2 first = delivered_to p first.
Proof.
  intros Ha Hfirst Hin Hne Hf Ho Hsf Hso.
  apply container_send_fails in Hsf as [Hsf ->].
  apply container_send_succeeds in Hso.
  assert (Hnext : [a; b] !! (S (roundRobinIndex p) mod 2)%nat = Some other).
  { pose proof (Nat.mod_upper_bound (roundRobinIndex p) 2 ltac:(lia)) as Hlt.
    assert (Hs : (S (roundRobinIndex p) mod 2 = 1 - roundRobinIndex p mod 2)%nat).
    { replace (S (roundRobinIndex p)) with (roundRobinIndex p + 1)%nat by lia.
      rewrite Nat.Div0.add_mod. 
      destruct (roundRobinIndex p mod 2)%nat as [| [| n]]; [done | done | lia]. }
    rewrite Hs. rewrite !elem_of_cons in Hin.
    destruct (roundRobinIndex p mod 2)%nat as [| [| n]]; simpl in *;
      [| | lia]; injection Hfirst as <-;
      destruct Hin as [-> | [-> | Hin]]; try done; by apply elem_of_nil in Hin. }
  unfold send. rewrite Ha. simpl length. cbn [Nat.eqb]. rewrite Hfirst. simpl.
  rewrite Hf, Hsf. unfold send_catch. simpl length. cbn [Nat.ltb Nat.leb].
  rewrite roundRobin_failure_begin. simpl roundRobinIndex. rewrite Hnext.
  rewrite instances_failure_begin by done. simpl instances.
  rewrite lookup_insert_ne by done. rewrite Ho, Hso. simpl.
  split; [done |]. unfold delivered_to. simpl. split.
  - rewrite lookup_insert_eq. by rewrite Ho.
  - rewrite lookup_insert_ne by done.
    unfold handleInstanceFailure_begin. simpl. rewrite lookup_insert_eq. simpl.
    rewrite lookup_insert_eq. simpl. by rewrite Hf.
Qed.

(** C5: with one active slot whose send fails, [send] fails with that
    slot's error; with two active slots, when the send of the selected
    slot fails and that of the other slot succeeds, [send] resolves, the
    message has gone to the other slot, and the first error is not
    surfaced. *)
Theorem send_propagates_or_fails_over p message :
  (forall id c e,
     activeInstances p = [id] ->
     instances p !! id = Some c ->
     (container_send c message).1 = Throw e ->
     (send p message).1 = Throw e) /\
  (forall a b first other cf co e,
     activeInstances p = [a; b] ->
     [a; b] !! (roundRobinIndex p mod 2)%nat = Some first ->
     other ∈ [a; b] -> other <> first ->
     instances p !! first = Some cf ->
     instances p !! other = Some co ->
     (container_send cf message).1 = Throw e ->
     (container_send co message).1 = Ok tt ->
     (send p message).1 = Ok tt
     /\ delivered_to (send p message).2 other = delivered_to p other ++ [line message]
     /\ delivered_to (send p message).2 first = delivered_to p first).
Proof.
  split.
  - intros id c e. apply send_single_slot_fails.
  - intros a b first other cf co e. apply send_fails_over.
Qed.

(** The [catch] block of [send], with the list of active ids as it was
    captured and the pool as it is by then. *)
Lemma send_catch_without_delivery p activeInstanceIds instanceId err message
  nextInstanceId :
  (1 < length activeInstanceIds)%nat ->
  activeInstanceIds !! (roundRobinIndex p mod length activeInstanceIds)%nat
  = Some nextInstanceId ->
  instances p !! nextInstanceId = None ->
  (send_catch p activeInstanceIds instanceId err message).1 = Ok tt
  /\ forall id,
       delivered_to (send_catch p activeInstanceIds instanceId err message).2 id
       = delivered_to p id.
Proof.
  intros Hlen Hnext Hnone. unfold send_catch.
  apply Nat.ltb_lt in Hlen. rewrite Hlen.
  rewrite roundRobin_failure_begin, Hnext.
  assert (Hn : instances (handleInstanceFailure_begin p instanceId) !! nextInstanceId
               = None).
  { unfold handleInstanceFailure_begin. simpl.
    destruct (instances p !! instanceId) as [c |] eqn:E; simpl; [| done].
    rewrite lookup_insert_ne; [done |]. intros ->. congruence. }
  rewrite Hn. simpl. split; [done |]. intros id. apply delivered_failure_begin.
Qed.

(** C9: when the send of the chosen instance fails, the list of active
    ids has more than one element and the id it gives for the retry is
    not in the instance map, [send] resolves, no error is surfaced, and no
    instance has been given the message.  This holds of the [catch] block
    for any captured list and any state of the pool by then, and of [send]
    as a whole. *)
Theorem send_resolves_without_delivery p message :
  (forall activeInstanceIds instanceId err nextInstanceId,
     (1 < length activeInstanceIds)%nat ->
     activeInstanceIds !! (roundRobinIndex p mod length activeInstanceIds)%nat
     = Some nextInstanceId ->
     instances p !! nextInstanceId = None ->
     (send_catch p activeInstanceIds instanceId err message).1 = Ok tt
     /\ forall id,
          delivered_to (send_catch p activeInstanceIds instanceId err message).2 id
          = delivered_to p id) /\
  (forall instanceId instance err nextInstanceId,
     (1 < length (activeInstances p))%nat ->
     activeInstances p !! (roundRobinIndex p mod length (activeInstances p))%nat
     = Some instanceId ->
     instances p !! instanceId = Some instance ->
     (container_send instance message).1 = Throw err ->
     activeInstances p !! (S (roundRobinIndex p) mod length (activeInstances p))%nat
     = Some nextInstanceId ->
     instances p !! nextInstanceId = None ->
     (send p message).1 = Ok tt
     /\ forall id, delivered_to (send p message).2 id = delivered_to p id).
Proof.
  split.
  - intros activeInstanceIds instanceId err nextInstanceId.
    apply send_catch_without_delivery.
  - intros instanceId instance err nextInstanceId Hlen Hfirst Hi Hs Hnext Hnone.
    apply container_send_fails in Hs as [Hs ->].
    unfold send. destruct (length (activeInstances p) =? 0)%nat eqn:E.
    { apply Nat.eqb_eq in E. lia. }
    rewrite Hfirst. cbn [instances]. rewrite Hi, Hs.
    set (p1 := with_instances _ _).
    assert (Hsame : instances p1 = instances p).
    { unfold p1. simpl. by apply insert_id. }
    destruct (send_catch_without_delivery p1 (activeInstances p) instanceId
                (error "Container not running") message nextInstanceId)
      as [Hok Hdel]; [done | done | by rewrite Hsame |].
    split; [exact Hok |]. intros id. rewrite Hdel.
    unfold delivered_to. by rewrite Hsame.
Qed.

Definition stopped : ContainerManager := mkContainer false false [] 0.
Definition running : ContainerManager := mkContainer true true [] 0.

Definition pool_config : ProcessPoolConfig := mkPoolConfig 3 2 30000 false.

(** The first instance has stopped, the second was removed from the map
    and is still listed. *)
Definition stale_pool : ProcessPool :=
  mkPool pool_config {["instance-0" := stopped]} ["instance-0"; "instance-1"] 1.

Definition hello : json := JObj [("jsonrpc", JStr "2.0"); ("method", JStr "hello")].

Lemma send_resolves_without_delivery_witness :
  (send_catch stale_pool ["instance-0"; "instance-1"] "instance-0"
     (error "Container not running") hello).1 = Ok tt
  /\ forall id,
       delivered_to
         (send_catch stale_pool ["instance-0"; "instance-1"] "instance-0"
            (error "Container not running") hello).2 id
       = delivered_to stale_pool id.
Proof.
  apply (send_resolves_without_delivery stale_pool hello)
    with (nextInstanceId := "instance-1").
  - simpl. lia.
  - reflexivity.
  - reflexivity.
Defined.

(** The same through [send]: the call resolves and nothing was written. *)
Example send_stale_pool :
  let p := mkPool pool_config {["instance-0" := stopped]} ["instance-0"; "instance-1"] 0 in
  (send p hello).1 = Ok tt
  /\ delivered_to (send p hello).2 "instance-0" = []
  /\ delivered_to (send p hello).2 "instance-1" = [].
Proof. vm_compute. done. Qed.

Example send_one_slot :
  let p := mkPool pool_config {["instance-0" := stopped]} ["instance-0"] 0 in
  (send p hello).1 = Throw (error "Container not running").
Proof. vm_compute. done. Qed.

Example send_two_slots :
  let p := mkPool pool_config {["instance-0" := stopped; "instance-1" := running]}
             ["instance-0"; "instance-1"] 0 in
  (send p hello).1 = Ok tt
  /\ delivered_to (send p hello).2 "instance-1" = [line hello].
Proof. vm_compute. done. Qed.

(** The theorem at the pools of [send_one_slot] and [send_two_slots]. *)
Lemma send_propagates_or_fails_over_witness :
  (send (mkPool pool_config {["instance-0" := stopped]} ["instance-0"] 0) hello).1
  = Throw (error "Container not running")
  /\ (send (mkPool pool_config {["instance-0" := stopped; "instance-1" := running]}
              ["instance-0"; "instance-1"] 0) hello).1 = Ok tt.
Proof.
  split.
  - apply (send_propagates_or_fails_over _ hello) with (id := "instance-0") (c := stopped);
      reflexivity.
  - apply (send_propagates_or_fails_over _ hello)
      with (a := "instance-0") (b := "instance-1") (first := "instance-0")
           (other := "instance-1") (cf := stopped) (co := running)
           (e := error "Container not running");
      try reflexivity.
    + right. left.
    + discriminate.
Defined.

End PoolFacts.

(** ** The reconnection engine *)

Module ReconnectionFacts.
Import Reconnection.

(** [min(maxDelay, initialDelay * backoffFactor^(k-1))] *)
Definition capped (cfg : ReconnectionConfig) (k : Z) : Q :=
  Qmin (initialDelay cfg * backoffFactor cfg ^ (k - 1))%Q (maxDelay cfg).

Lemma calculateDelay_no_jitter cfg k random :
  jitter cfg = false -> calculateDelay cfg k random = Qfloor (capped cfg k).
Proof. intros H. unfold calculateDelay, capped. by rewrite H. Qed.

Lemma calculateDelay_jitter cfg k random :
  jitter cfg = true ->
  calculateDelay cfg k random
  = Qfloor (capped cfg k + random * (capped cfg k * (25 # 100)))%Q.
Proof. intros H. unfold calculateDelay, capped. by rewrite H. Qed.

Lemma jitter_bounds (c random : Q) :
  (0 <= c)%Q -> (0 <= random)%Q -> (random <= 1)%Q ->
  (c <= c + random * (c * (25 # 100)))%Q
  /\ (c + random * (c * (25 # 100)) <= c * (125 # 100))%Q.
Proof.
  intros Hc H0 H1.
  assert (Hj : (0 <= c * (25 # 100))%Q).
  { apply Qmult_le_0_compat; [done |]. by unfold Qle. }
  assert (Hp : (0 <= random * (c * (25 # 100)))%Q) by by apply Qmult_le_0_compat.
  assert (Hq : (random * (c * (25 # 100)) <= 1 * (c * (25 # 100)))%Q).
  { apply Qmult_le_compat_r; done. }
  split.
  - rewrite <- (Qplus_0_r c) at 1. apply Qplus_le_compat; [apply Qle_refl | done].
  - assert (He : (c * (125 # 100) == c + 1 * (c * (25 # 100)))%Q) by ring.
    rewrite He. apply Qplus_le_compat; [apply Qle_refl | done].
Qed.

(** A configuration like [fast], without jitter and with a higher cap. *)
Definition steady : ReconnectionConfig := mkConfig 10 1000 60000 (3 # 2) false.



(** The delays of the first six attempts under [steady], and a run in
    which the second attempt succeeds. *)
Example steady_delays :
  map (fun k => calculateDelay steady k 0) [1; 2; 3; 4; 5; 6]
  = [1000; 1500; 2250; 3375; 5062; 7593].
Proof. reflexivity. Qed.

Example reconnect_then_reset :
  let h1 := attemptReconnection (new_handler steady) 0 in
  let h2 := timer_fired h1 (Throw (error "refused")) 0 in
  let h3 := timer_fired h2 (Ok tt) 0 in
  (attempts h1, reconnectTimer h1) = (1, Some 1000)
  /\ (attempts h2, reconnectTimer h2) = (2, Some 1500)
  /\ (attempts h3, reconnectTimer h3, isReconnecting h3) = (0, None, false).
Proof. repeat split. Qed.


End ReconnectionFacts.

(** ** The translator *)

Module TranslatorFacts.
Import Translator.

(** The rule pipeline in the words of the data model: the rules are
    taken in registration order; whether a rule applies is decided on the
    [original] message; a rule that applies transforms the result
    accumulated so far. *)
Fixpoint translate_from (cfg : TranslatorConfig) (original : json)
  (rs : list TranslationRule) (accumulated : json) (log : list string)
  : outcome json * list string :=
  match rs with
  | [] => (Ok accumulated, log)
  | rule :: rest =>
      if condition rule original then
        let log := if logTranslations cfg then log ++ [applying rule] else log in
        match transform rule accumulated with
        | Throw e => (Throw e, log)
        | Ok accumulated' =>
            if enableValidation cfg && negb (isValidMCPMessage accumulated')
               && throwOnValidationError cfg
            then (Throw (invalid_result rule), log)
            else translate_from cfg original rest accumulated' log
        end
      else translate_from cfg original rest accumulated log
  end.

Lemma apply_rules_filter cfg original rs accumulated log :
  apply_rules cfg (List.filter (fun rule => condition rule original) rs) accumulated log
  = translate_from cfg original rs accumulated log.
Proof.
  revert accumulated log. induction rs as [| rule rest IH]; intros accumulated log;
    simpl; [done |].
  destruct (condition rule original); simpl; [| apply IH].
  destruct (transform rule accumulated) as [accumulated' | e]; [| done].
  destruct (enableValidation cfg && negb (isValidMCPMessage accumulated')),
    (throwOnValidationError cfg); simpl; try done; apply IH.
Qed.

(** When a translation succeeds, the rules logged are the rules whose
    condition holds of the original message, in registration order. *)
Lemma translate_from_log cfg original rs accumulated log out log' :
  logTranslations cfg = true ->
  translate_from cfg original rs accumulated log = (Ok out, log') ->
  log' = log ++ map applying (List.filter (fun rule => condition rule original) rs).
Proof.
  intros Hlog. revert accumulated log.
  induction rs as [| rule rest IH]; intros accumulated log; simpl.
  - intros H. injection H as _ <-. by rewrite app_nil_r.
  - destruct (condition rule original); simpl; [| apply IH].
    rewrite Hlog. destruct (transform rule accumulated) as [accumulated' | e];
      [| discriminate].
    destruct (enableValidation cfg && negb (isValidMCPMessage accumulated')
              && throwOnValidationError cfg); [discriminate |].
    intros H. apply IH in H. by rewrite <- app_assoc in H.
Qed.

(** C7: [translate] is the pipeline that decides on the original message
    which rules apply and applies those, in registration order, each to the
    result accumulated so far; when it succeeds with logging on, the rules
    it has applied are the rules whose condition holds of the original
    message, in registration order. *)
Theorem translate_decides_on_original (t : MessageTranslator) (message : json) :
  translate t message = translate_from (config t) message (rules t) message [] /\
  (forall out log,
     logTranslations (config t) = true ->
     translate t message = (Ok out, log) ->
     log = map applying (List.filter (fun rule => condition rule message) (rules t))).
Proof.
  assert (translate t message
          = translate_from (config t) message (rules t) message []) as H.
  { unfold translate. rewrite <- apply_rules_filter.
    destruct (List.filter _ (rules t)) as [| rule rest] eqn:E; simpl; done. }
  split; [exact H |].
  intros out log Hlog Ht. rewrite H in Ht.
  by apply translate_from_log in Ht.
Qed.

(** A rule that would apply to what [addJsonRpcVersion] produces, and
    not to a message without the tag. *)
Definition markTagged : TranslationRule :=
  mkRule "markTagged"
    (fun message => is_str "2.0" (prop "jsonrpc" message))
    (fun message => Ok (with_prop "params" (JObj [("tagged", JBool true)]) message)).

Definition translator0 : MessageTranslator :=
  addRules (mkTranslator [] (mkConfig true false true)) [addJsonRpcVersion; markTagged].

(** On a message without the tag only the first rule is applied, although
    the condition of the second holds of the intermediate result. *)
Example translate_untagged :
  translate translator0 (JObj [("method", JStr "ping")])
  = (Ok (JObj [("method", JStr "ping"); ("jsonrpc", JStr "2.0")]),
     ["Applying translation rule: addJsonRpcVersion"])
  /\ condition markTagged (JObj [("method", JStr "ping"); ("jsonrpc", JStr "2.0")])
     = true.
Proof. split; reflexivity. Qed.

(** The theorem at the translator of [translate_untagged]. *)
Lemma translate_decides_on_original_witness :
  (translate translator0 (JObj [("method", JStr "ping")])).2
  = ["Applying translation rule: addJsonRpcVersion"].
Proof.
  apply (translate_decides_on_original translator0 (JObj [("method", JStr "ping")]))
    with (out := JObj [("method", JStr "ping"); ("jsonrpc", JStr "2.0")]);
    reflexivity.
Defined.

End TranslatorFacts.

(** ** The channel base class *)

Module TransportFacts.
Import Transport.

Lemma read_update_ne r r' f t :
  r <> r' -> read (update_record r' f t) r = read t r.
Proof.
  intros Hne. unfold read, update_record. simpl.
  rewrite lookup_alter_ne by done. done.
Qed.

Lemma read_call_all hs t r : read (call_all hs t) r = read t r.
Proof. done. Qed.

Lemma read_new_date now t r :
  heap_ok t -> read (new_date now t).2 r = read t r.
Proof.
  intros (Hrec & Hdate & _). unfold read, new_date. simpl.
  destruct (records t !! r) as [m |] eqn:E; [| done].
  destruct (Hrec r m E) as [_ Hl].
  rewrite lookup_insert_ne by lia. done.
Qed.

Lemma read_new_record_ne m t r :
  r <> next_ref t -> read (new_record m t).2 r = read t r.
Proof.
  intros Hne. unfold read, new_record. simpl.
  rewrite lookup_insert_ne by done. done.
Qed.

Lemma heap_ok_update r f t :
  heap_ok t ->
  (forall m, (lastActivity m < next_ref t)%nat -> (lastActivity (f m) < next_ref t)%nat) ->
  heap_ok (update_record r f t).
Proof.
  intros (Hrec & Hdate & Hm) Hf. unfold heap_ok, update_record. simpl.
  split; [| split; [done |]].
  - intros r' m'. rewrite lookup_alter.
    destruct (decide (r = r')) as [<- | Hne].
    + destruct (records t !! r) as [m |] eqn:E; simpl; [| discriminate].
      intros H. injection H as <-. destruct (Hrec r m E). split; [done | by apply Hf].
    + apply Hrec.
  - rewrite lookup_alter. destruct Hm as [m Hm]. case_decide; [| eauto].
    subst r. rewrite Hm. simpl. eauto.
Qed.

Lemma heap_ok_new_date now t : heap_ok t -> heap_ok (new_date now t).2.
Proof.
  intros (Hrec & Hdate & Hm). unfold heap_ok, new_date. simpl.
  split; [| split; [| done]].
  - intros r m E. destruct (Hrec r m E). lia.
  - intros d v. rewrite lookup_insert.
    destruct (decide (next_ref t = d)) as [<- | Hne]; [lia |].
    intros E. specialize (Hdate d v E). lia.
Qed.

Lemma heap_ok_new_record m t :
  heap_ok t -> (lastActivity m < next_ref t)%nat -> heap_ok (new_record m t).2.
Proof.
  intros (Hrec & Hdate & Hm) Hl. unfold heap_ok, new_record. simpl.
  split; [| split].
  - intros r m'. rewrite lookup_insert.
    destruct (decide (next_ref t = r)) as [<- | Hne].
    + intros H. injection H as <-. lia.
    + intros E. destruct (Hrec r m' E). lia.
  - intros d v E. specialize (Hdate d v E). lia.
  - destruct Hm as [m0 Hm0]. destruct (Hrec _ _ Hm0) as [Hlt _].
    rewrite lookup_insert_ne by lia. eauto.
Qed.

Lemma heap_ok_call_all hs t : heap_ok t -> heap_ok (call_all hs t).
Proof. done. Qed.

Lemma heap_ok_constructor now : heap_ok (constructor now).
Proof.
  unfold heap_ok, constructor. simpl. split; [| split].
  - intros r m. rewrite lookup_insert.
    destruct (decide (1%nat = r)) as [<- | Hne].
    + intros H. injection H as <-. simpl. lia.
    + rewrite lookup_empty. discriminate.
  - intros d v. rewrite lookup_insert.
    destruct (decide (0%nat = d)) as [<- | Hne]; [lia |].
    rewrite lookup_empty. discriminate.
  - rewrite lookup_insert_eq. eauto.
Qed.

(** What the channel does leaves every other record as it reads, and
    takes references only from the unused ones. *)
Lemma act_frame t a r :
  heap_ok t -> r <> metrics t -> (r < next_ref t)%nat ->
  read (act t a) r = read t r
  /\ heap_ok (act t a)
  /\ metrics (act t a) = metrics t
  /\ (next_ref t <= next_ref (act t a))%nat.
Proof.
  intros Hok Hne Hlt. destruct a as [now | now | | | | h | h | h]; cbn [act].
  - unfold incrementSentMessages.
    set (t1 := update_record (metrics t) _ t).
    assert (Hok1 : heap_ok t1) by (apply heap_ok_update; [done | auto]).
    pose proof (heap_ok_new_date now t1 Hok1) as Hok2.
    pose proof (read_new_date now t1 r Hok1) as Hr2.
    unfold new_date in *. simpl in Hok2, Hr2. cbn zeta. simpl.
    split; [| split; [| split; [done | lia]]].
    + rewrite read_update_ne by done. rewrite Hr2. by apply read_update_ne.
    + apply heap_ok_update; [done |]. simpl. intros. lia.
  - unfold handleMessage.
    set (t1 := update_record (metrics t) _ t).
    assert (Hok1 : heap_ok t1) by (apply heap_ok_update; [done | auto]).
    pose proof (heap_ok_new_date now t1 Hok1) as Hok2.
    pose proof (read_new_date now t1 r Hok1) as Hr2.
    unfold new_date in *. simpl in Hok2, Hr2. cbn zeta. simpl.
    split; [| split; [| split; [done | lia]]].
    + rewrite read_call_all, read_update_ne by done. rewrite Hr2.
      by apply read_update_ne.
    + apply heap_ok_call_all, heap_ok_update; [done |]. simpl. intros. lia.
  - unfold handleError. split; [| split; [| split; [done | simpl; lia]]].
    + rewrite read_call_all. by apply read_update_ne.
    + apply heap_ok_call_all, heap_ok_update; [done | auto].
  - unfold handleClose. split; [done |]. split; [done |]. split; [done | simpl; lia].
  - unfold getMetrics. destruct Hok as (Hrec & Hdate & [m Hm]). rewrite Hm.
    unfold new_record. simpl. split; [| split; [| split; [done | lia]]].
    + apply (read_new_record_ne m t r). lia.
    + apply (heap_ok_new_record m t); [done |]. by destruct (Hrec _ _ Hm).
  - split; [done |]. split; [done |]. split; [done | simpl; lia].
  - split; [done |]. split; [done |]. split; [done | simpl; lia].
  - split; [done |]. split; [done |]. split; [done | simpl; lia].
Qed.

Lemma acts_frame acts t r :
  heap_ok t -> r <> metrics t -> (r < next_ref t)%nat ->
  read (fold_left act acts t) r = read t r.
Proof.
  revert t. induction acts as [| a acts IH]; intros t Hok Hne Hlt; simpl; [done |].
  destruct (act_frame t a r Hok Hne Hlt) as (Hr & Hok' & Hm & Hn).
  rewrite IH; [done | done | congruence | lia].
Qed.

(** Assignments to another record leave the channel's own as it reads. *)
Lemma assigns_frame asg r t :
  r <> metrics t ->
  read (fold_left (fun t a => assign r a t) asg t) (metrics t) = read t (metrics t)
  /\ metrics (fold_left (fun t a => assign r a t) asg t) = metrics t.
Proof.
  revert t. induction asg as [| a asg IH]; intros t Hne; simpl; [done |].
  destruct (IH (assign r a t)) as [Hr Hm]; [done |].
  rewrite Hm. split; [| done]. simpl in Hr. rewrite Hr.
  unfold assign. by apply read_update_ne.
Qed.


Definition channel0 : BaseTransport := constructor 1000.


(** A run: the record read before a send and a receipt keeps its
    numbers, and an assignment to it is not seen by the next read. *)
Example metrics_snapshots :
  let (r1, t1) := getMetrics channel0 in
  let t2 := handleMessage 3000 (incrementSentMessages 2000 t1) in
  let t3 := assign 2 (SetMessagesSent 99) t2 in
  let (r2, t4) := getMetrics t3 in
  r1 = Some 2%nat
  /\ read t4 2%nat = Some (99, 0, 0, 1000, Some 1000)
  /\ r2 = Some 5%nat
  /\ read t4 5%nat = Some (1, 1, 0, 1000, Some 3000).
Proof. vm_compute. done. Qed.

(** The copy is one level deep: the returned record refers to the same
    [Date] as the channel's own, so a [setTime] on that date, which is not
    an assignment to the record, shows in both. *)
Remark getMetrics_shares_the_date :
  let (r, t1) := getMetrics channel0 in
  let t2 := setTime 0 7 t1 in
  read t2 (metrics t2) = Some (0, 0, 0, 1000, Some 7)
  /\ read t2 2%nat = Some (0, 0, 0, 1000, Some 7).
Proof. vm_compute. done. Qed.

End TransportFacts.

(** ** The codec: what is received *)

Module CodecRuns.
Import Codec.

(** *** What the parser returns is well formed *)

Lemma assoc_set_keys k v ps :
  map fst (assoc_set k v ps)
  = if bool_decide (k ∈ map fst ps) then map fst ps else map fst ps ++ [k].
Proof.
  induction ps as [| [k' v'] ps IH]; simpl; [done |].
  destruct (String.eqb_spec k k') as [<- | Hne]; simpl.
  - rewrite bool_decide_eq_true_2; [done | left].
  - rewrite IH. destruct (bool_decide (k ∈ map fst ps)) eqn:E.
    + apply bool_decide_eq_true_1 in E. rewrite bool_decide_eq_true_2; [done | by right].
    + apply bool_decide_eq_false_1 in E. rewrite bool_decide_eq_false_2; [done |].
      by intros [? | ?]%elem_of_cons.
Qed.

Lemma assoc_set_NoDup k v ps : NoDup (map fst ps) -> NoDup (map fst (assoc_set k v ps)).
Proof.
  intros H. rewrite assoc_set_keys. destruct (bool_decide (k ∈ map fst ps)) eqn:E; [done |].
  apply bool_decide_eq_false_1 in E. apply NoDup_app. split; [done |].
  split; [| apply NoDup_singleton]. by intros x Hx ->%list_elem_of_singleton.
Qed.

Lemma assoc_set_Forall (P : string * json -> Prop) k v ps :
  Forall P ps -> P (k, v) -> Forall P (assoc_set k v ps).
Proof.
  intros H Hkv. induction H as [| [k' v'] ps Hp Hps IH]; simpl.
  - by apply Forall_singleton.
  - destruct (String.eqb k k'); apply Forall_cons; split; done.
Qed.

Lemma wf_object_of ms : Forall (fun kv => wf kv.2) ms -> wf (object_of ms).
Proof.
  intros H. unfold object_of. apply JsonRoundTrip.wf_obj.
  assert (Hacc : NoDup (map fst (@nil (string * json))) /\
                 Forall (fun kv : string * json => wf kv.2) []) by (split; constructor).
  revert Hacc. generalize (@nil (string * json)).
  induction H as [| [k v] ms Hv _ IH]; intros acc [Hnd Hwf]; simpl; [done |].
  apply IH. split; [by apply assoc_set_NoDup | by apply assoc_set_Forall].
Qed.

Lemma parse_wf fuel :
  (forall s v r, parse_value fuel s = Some (v, r) -> wf v) /\
  (forall s vs r, parse_elements fuel s = Some (vs, r) -> Forall wf vs) /\
  (forall s ms r, parse_members fuel s = Some (ms, r) ->
                  Forall (fun kv : string * json => wf kv.2) ms).
Proof.
  induction fuel as [| fuel (IHv & IHe & IHm)]; [done |].
  split; [| split].
  - intros s v r. simpl.
    destruct (skip_ws s) as [| c rest]; [done |].
    unfold keyword.
    destruct (Ascii.eqb c "n").
    { destruct (expect _ _); [| done]. by intros [= <- _]. }
    destruct (Ascii.eqb c "t").
    { destruct (expect _ _); [| done]. by intros [= <- _]. }
    destruct (Ascii.eqb c "f").
    { destruct (expect _ _); [| done]. by intros [= <- _]. }
    destruct (Ascii.eqb c dquote).
    { destruct (parse_chars rest) as [[str r'] |]; [| done]. by intros [= <- _]. }
    destruct (Ascii.eqb c "[").
    { destruct (skip_ws rest) as [| c' r']; [done |].
      destruct (Ascii.eqb c' "]"); [by intros [= <- _] |].
      destruct (parse_elements fuel rest) as [[xs r''] |] eqn:E; [| done].
      intros [= <- _]. apply JsonRoundTrip.wf_arr. by apply IHe in E. }
    destruct (Ascii.eqb c "{").
    { destruct (skip_ws rest) as [| c' r']; [done |].
      destruct (Ascii.eqb c' "}").
      { intros [= <- _]. apply JsonRoundTrip.wf_obj. split; constructor. }
      destruct (parse_members fuel rest) as [[ms r''] |] eqn:E; [| done].
      intros [= <- _]. apply wf_object_of. by apply IHm in E. }
    destruct (parse_number (String c rest)) as [[n r'] |]; [| done]. by intros [= <- _].
  - intros s vs r. simpl.
    destruct (parse_value fuel s) as [[v r0] |] eqn:Ev; [| done].
    destruct (skip_ws r0) as [| c r']; [done |].
    destruct (Ascii.eqb c ",").
    + destruct (parse_elements fuel r') as [[vs' r''] |] eqn:E; [| done].
      intros [= <- _]. apply Forall_cons. split; [by apply IHv in Ev | by apply IHe in E].
    + destruct (Ascii.eqb c "]"); [| done]. intros [= <- _].
      apply Forall_singleton. by apply IHv in Ev.
  - intros s ms r. simpl.
    destruct (skip_ws s) as [| q r0]; [done |].
    destruct (negb (Ascii.eqb q dquote)); [done |].
    destruct (parse_chars r0) as [[k r1] |]; [| done].
    destruct (skip_ws r1) as [| c r2]; [done |].
    destruct (negb (Ascii.eqb c ":")); [done |].
    destruct (parse_value fuel r2) as [[v r3] |] eqn:Ev; [| done].
    destruct (skip_ws r3) as [| c' r4]; [done |].
    destruct (Ascii.eqb c' ",").
    + destruct (parse_members fuel r4) as [[ms' r5] |] eqn:E; [| done].
      intros [= <- _]. apply Forall_cons. split; [by apply IHv in Ev | by apply IHm in E].
    + destruct (Ascii.eqb c' "}"); [| done]. intros [= <- _].
      apply Forall_singleton. by apply IHv in Ev.
Qed.

Lemma JSON_parse_wf s v : JSON_parse s = Some v -> wf v.
Proof.
  unfold JSON_parse.
  destruct (parse_value (S (String.length s)) s) as [[v' r] |] eqn:E; [| done].
  destruct (skip_ws r); [| done]. intros [= <-].
  by apply (parse_wf (S (String.length s))) in E.
Qed.


(** A text with a repeated key and with white space: what is read has the
    key once, and is written without the white space. *)
Definition spaced : string :=
  "{ " +:+ quote "jsonrpc" +:+ " : " +:+ quote "2.0" +:+ ", " +:+ quote "id" +:+ ": 1, "
  +:+ quote "id" +:+ ": 2, " +:+ quote "result" +:+ ": null }".


End CodecRuns.

(** ** The correlation tracker: runs *)

Module TrackerRuns.
Import Tracker TrackerFacts.

(** *** More on the map *)

Section JsMapMore.
Context {V : Type}.
Implicit Types (m : list (json * V)) (k : json).

Lemma map_get_elem k v m : map_get k m = Some v -> (k, v) ∈ m.
Proof.
  induction m as [| [k' v'] m IH]; simpl; [discriminate |].
  destruct (json_eqb k k') eqn:E.
  - apply json_eqb_eq in E as ->. intros H. injection H as ->. left.
  - intros H. right. by apply IH.
Qed.

Lemma map_get_unique k v m :
  NoDup (map fst m) -> (k, v) ∈ m -> map_get k m = Some v.
Proof.
  induction m as [| [k' v'] m IH]; simpl; intros Hnd Hin.
  - by apply elem_of_nil in Hin.
  - apply NoDup_cons in Hnd as [Hk Hnd]. apply elem_of_cons in Hin as [Heq | Hin].
    + injection Heq as -> ->. by rewrite json_eqb_refl.
    + destruct (json_eqb k k') eqn:E; [| by apply IH].
      apply json_eqb_eq in E as ->. destruct Hk.
      apply (list_elem_of_fmap_2 fst) in Hin. exact Hin.
Qed.

Lemma elem_map_delete k m (e : json * V) :
  e ∈ map_delete k m <-> e ∈ m /\ e.1 <> k.
Proof.
  unfold map_delete. rewrite list_elem_of_filter.
  destruct (json_eqb k e.1) eqn:E; simpl.
  - apply json_eqb_eq in E. split; [intros [? ?]; done | intros [_ ?]; congruence].
  - apply json_eqb_neq in E. split; [intros [_ ?]; split; [done | congruence] |].
    intros [? _]. done.
Qed.

Lemma map_get_delete_ne k k' m :
  k' <> k -> map_get k' (map_delete k m) = map_get k' m.
Proof.
  intros Hne. unfold map_delete. induction m as [| [k0 v0] m IH]; [done |].
  rewrite filter_cons. simpl. destruct (json_eqb k k0) eqn:E; simpl.
  - apply json_eqb_eq in E as <-.
    destruct (decide (false = true)); [done |].
    destruct (json_eqb k' k) eqn:E'; [| exact IH].
    apply json_eqb_eq in E'. done.
  - destruct (decide (true = true)); [| done]. simpl. by rewrite IH.
Qed.

Lemma map_set_absent k (v : V) m :
  k ∉ map fst m -> map_set k v m = m ++ [(k, v)].
Proof.
  induction m as [| [k' v'] m IH]; simpl; [done |].
  intros Hk. apply not_elem_of_cons in Hk as [Hne Hk].
  destruct (json_eqb k k') eqn:E.
  - apply json_eqb_eq in E. done.
  - by rewrite IH.
Qed.

Lemma elem_map_set k (v : V) m (e : json * V) :
  NoDup (map fst m) -> k ∈ map fst m ->
  e ∈ map_set k v m <-> e = (k, v) \/ (e ∈ m /\ e.1 <> k).
Proof.
  induction m as [| [k' v'] m IH]; simpl; intros Hnd Hk.
  - by apply elem_of_nil in Hk.
  - apply NoDup_cons in Hnd as [Hk' Hnd].
    destruct (json_eqb k k') eqn:E.
    + apply json_eqb_eq in E as <-. rewrite !elem_of_cons. split.
      * intros [-> | Hin]; [by left |]. right. split; [by right |].
        intros <-. apply Hk'. by apply (list_elem_of_fmap_2 fst) in Hin.
      * intros [-> | [[-> | Hin] Hne]]; [by left | done | by right].
    + apply json_eqb_neq in E. apply elem_of_cons in Hk as [-> | Hk]; [done |].
      rewrite !elem_of_cons, (IH Hnd Hk). split.
      * intros [-> | [-> | [Hin Hne]]]; [| by left | right; split; [by right | done]].
        right. split; [by left | simpl; congruence].
      * intros [-> | [[-> | Hin] Hne]]; [right; by left | by left |].
        right. right. done.
Qed.

Lemma length_map_delete k m : (length (map_delete k m) <= length m)%nat.
Proof. unfold map_delete. apply length_filter. Qed.

Lemma length_map_delete_present k v m :
  map_get k m = Some v -> (length (map_delete k m) < length m)%nat.
Proof.
  unfold map_delete. induction m as [| [k' v'] m IH]; simpl; [discriminate |].
  rewrite filter_cons. simpl. destruct (json_eqb k k') eqn:E; simpl.
  - intros _. destruct (decide (false = true)); [done |].
    pose proof (length_filter (fun e : json * V => negb (json_eqb k e.1) = true) m). lia.
  - intros H. destruct (decide (true = true)); [| done]. simpl. specialize (IH H). lia.
Qed.

Lemma length_map_delete_unique k v m :
  NoDup (map fst m) -> map_get k m = Some v ->
  length m = S (length (map_delete k m)).
Proof.
  unfold map_delete. induction m as [| [k' v'] m IH]; simpl; [discriminate |].
  intros Hnd. apply NoDup_cons in Hnd as [Hk Hnd].
  rewrite filter_cons. simpl. destruct (json_eqb k k') eqn:E; simpl.
  - apply json_eqb_eq in E as <-. intros _.
    destruct (decide (false = true)); [done |]. f_equal. f_equal.
    clear IH Hnd. induction m as [| [k0 v0] m IH]; [done |].
    apply not_elem_of_cons in Hk as [Hne Hk]. rewrite filter_cons. simpl.
    destruct (json_eqb k k0) eqn:E; [apply json_eqb_eq in E; done |]. simpl.
    destruct (decide (true = true)); [| done]. f_equal. by apply IH.
  - intros H. destruct (decide (true = true)); [| done]. simpl. by rewrite (IH Hnd H).
Qed.

Lemma map_set_perm k (v v0 : V) m :
  NoDup (map fst m) -> map_get k m = Some v0 ->
  map_set k v m ≡ₚ (k, v) :: map_delete k m.
Proof.
  unfold map_delete. induction m as [| [k' v'] m IH]; simpl; [discriminate |].
  intros Hnd. apply NoDup_cons in Hnd as [Hk Hnd]. rewrite filter_cons. simpl.
  destruct (json_eqb k k') eqn:E; simpl.
  - apply json_eqb_eq in E as <-. intros _.
    destruct (decide (false = true)); [done |].
    replace (filter (fun e : json * V => negb (json_eqb k e.1) = true) m) with m; [done |].
    clear IH Hnd. induction m as [| [k0 v1] m IH]; [done |].
    apply not_elem_of_cons in Hk as [Hne Hk]. rewrite filter_cons. simpl.
    destruct (json_eqb k k0) eqn:E; [apply json_eqb_eq in E; done |]. simpl.
    destruct (decide (true = true)); [| done]. f_equal. by apply IH.
  - intros H. destruct (decide (true = true)); [| done].
    rewrite (IH Hnd H). apply Permutation_swap.
Qed.

Lemma map_self_perm k (v0 : V) m :
  NoDup (map fst m) -> map_get k m = Some v0 -> m ≡ₚ (k, v0) :: map_delete k m.
Proof.
  intros Hnd Hget. rewrite <- (map_set_perm k v0 v0 m Hnd Hget).
  replace (map_set k v0 m) with m; [done |].
  clear Hnd. induction m as [| [k' v'] m IH]; simpl in *; [discriminate |].
  destruct (json_eqb k k') eqn:E.
  - by injection Hget as ->.
  - by rewrite <- IH.
Qed.

Lemma elem_map_set_inv k (v : V) m (e : json * V) :
  e ∈ map_set k v m -> e.2 = v \/ e ∈ m.
Proof.
  induction m as [| [k' v'] m IH]; simpl.
  - intros H. apply list_elem_of_singleton in H as ->. by left.
  - destruct (json_eqb k k'); rewrite !elem_of_cons.
    + intros [-> | H]; [by left | right; by right].
    + intros [-> | H]; [right; by left |].
      destruct (IH H); [by left | right; by right].
Qed.

End JsMapMore.

(** *** What ties the bookkeeping together

    Over the parts of a tracker that the requests, their timers and their
    promises live in: the pending entries [P], the armed timers [T], the
    settlements [S] and the three counters that name fresh timers, promises
    and records. *)

Definition waiters (P : list (json * PendingRequest)) : list nat :=
  map (fun e => waiter e.2) P.

Definition objs (P : list (json * PendingRequest)) : list nat :=
  map (fun e => obj e.2) P.

Record ok (P : list (json * PendingRequest)) (T : list (nat * (json * Z)))
  (nh np no : nat) (S : list (nat * settlement)) : Prop := mk_ok {
  ok_ids : NoDup (map fst P);
  ok_id : forall k pr, (k, pr) ∈ P -> pr_id pr = k;
  ok_handles : NoDup (map fst T);
  ok_handle_lt : forall h x, (h, x) ∈ T -> (h < nh)%nat;
  ok_armed : forall k pr, (k, pr) ∈ P -> exists d, (timeout pr, (k, d)) ∈ T;
  ok_owner : forall h k d, (h, (k, d)) ∈ T -> exists pr, (k, pr) ∈ P /\ timeout pr = h;
  ok_waiters : NoDup (waiters P);
  ok_waiter_lt : forall k pr, (k, pr) ∈ P -> (waiter pr < np)%nat;
  ok_unsettled : forall k pr, (k, pr) ∈ P -> waiter pr ∉ map fst S;
  ok_settled_lt : forall p o, (p, o) ∈ S -> (p < np)%nat;
  ok_once : NoDup (map fst S);
  ok_objs : NoDup (objs P);
  ok_obj_lt : forall k pr, (k, pr) ∈ P -> (obj pr < no)%nat;
  ok_truthy : forall k pr, (k, pr) ∈ P -> truthy (Some k) = true
}.

Lemma ok_perm P P' T nh np no S :
  P ≡ₚ P' -> ok P T nh np no S -> ok P' T nh np no S.
Proof.
  intros HP [H1 H2 H3 H4 H5 H6 H7 H8 H9 H10 H11 H12 H13 H14].
  unfold waiters, objs in *.
  split; try done; unfold waiters, objs; try (by rewrite <- HP);
    try (intros k pr Hin; rewrite <- HP in Hin; eauto).
  intros h k d Hin. destruct (H6 h k d Hin) as (pr & Hpr & Ht).
  exists pr. by rewrite <- HP.
Qed.

Lemma ok_nil : ok [] [] 0 0 0 [].
Proof.
  split; try constructor; intros; exfalso; eapply not_elem_of_nil; eauto.
Qed.

Lemma elem_keys {V} (k : json) (v : V) (m : list (json * V)) :
  (k, v) ∈ m -> k ∈ map fst m.
Proof. intros H. by apply (list_elem_of_fmap_2 fst) in H. Qed.

Lemma elem_waiters k pr P : (k, pr) ∈ P -> waiter pr ∈ waiters P.
Proof. intros H. by apply (list_elem_of_fmap_2 (fun e => waiter e.2)) in H. Qed.

Lemma elem_objs k pr P : (k, pr) ∈ P -> obj pr ∈ objs P.
Proof. intros H. by apply (list_elem_of_fmap_2 (fun e => obj e.2)) in H. Qed.

(** A new entry with a fresh timer. *)
Lemma ok_add P T nh np no np' no' S k pr d :
  ok P T nh np no S ->
  k ∉ map fst P -> truthy (Some k) = true -> pr_id pr = k -> timeout pr = nh ->
  waiter pr ∉ waiters P -> (waiter pr < np')%nat -> waiter pr ∉ map fst S ->
  obj pr ∉ objs P -> (obj pr < no')%nat ->
  (np <= np')%nat -> (no <= no')%nat ->
  ok ((k, pr) :: P) (T ++ [(nh, (k, d))]) (Datatypes.S nh) np' no' S.
Proof.
  intros [H1 H2 H3 H4 H5 H6 H7 H8 H9 H10 H11 H12 H13 H14] Hk Htr Hid Ht Hw Hwlt Hws Ho Holt Hnp Hno.
  split.
  - simpl. by apply NoDup_cons.
  - intros k' pr' [Heq | Hin]%elem_of_cons; [by injection Heq as -> -> | eauto].
  - rewrite map_app. simpl. apply NoDup_app. split; [done |]. split; [| apply NoDup_singleton].
    intros h Hh ->%list_elem_of_singleton.
    apply list_elem_of_fmap in Hh as ([h x] & -> & Hin). apply H4 in Hin. simpl in Hin. lia.
  - intros h x [Hin | Heq%list_elem_of_singleton]%elem_of_app.
    + apply H4 in Hin. lia.
    + injection Heq as -> _. lia.
  - intros k' pr' [Heq | Hin]%elem_of_cons.
    + injection Heq as -> ->. exists d. rewrite Ht. apply elem_of_app. right. left.
    + destruct (H5 _ _ Hin) as [d' Hd']. exists d'. apply elem_of_app. by left.
  - intros h k' d' [Hin | Heq%list_elem_of_singleton]%elem_of_app.
    + destruct (H6 _ _ _ Hin) as (pr' & Hpr' & Ht'). exists pr'. split; [by right | done].
    + injection Heq as -> -> ->. exists pr. split; [left | done].
  - unfold waiters in *. simpl. by apply NoDup_cons.
  - intros k' pr' [Heq | Hin]%elem_of_cons; [by injection Heq as -> -> |].
    apply H8 in Hin. lia.
  - intros k' pr' [Heq | Hin]%elem_of_cons; [by injection Heq as -> -> | eauto].
  - intros p o Hin. apply H10 in Hin. lia.
  - done.
  - unfold objs in *. simpl. by apply NoDup_cons.
  - intros k' pr' [Heq | Hin]%elem_of_cons; [by injection Heq as -> -> |].
    apply H13 in Hin. lia.
  - intros k' pr' [Heq | Hin]%elem_of_cons; [by injection Heq as -> -> | eauto].
Qed.

(** What holds of the first entry. *)
Lemma ok_head P T nh np no S k pr :
  ok ((k, pr) :: P) T nh np no S ->
  (k ∉ map fst P) /\ pr_id pr = k /\ (waiter pr ∉ waiters P) /\ (waiter pr < np)%nat /\
  (waiter pr ∉ map fst S) /\ (obj pr ∉ objs P) /\ (obj pr < no)%nat /\
  (timeout pr < nh)%nat /\ (forall k' pr', (k', pr') ∈ P -> timeout pr' <> timeout pr) /\
  truthy (Some k) = true.
Proof.
  intros [H1 H2 H3 H4 H5 H6 H7 H8 H9 H10 H11 H12 H13 H14].
  unfold waiters, objs in *. simpl in *.
  apply NoDup_cons in H1 as [H1 _], H7 as [H7 _], H12 as [H12 _].
  assert (Hin : (k, pr) ∈ (k, pr) :: P) by left.
  destruct (H5 _ _ Hin) as [d Hd].
  split; [done |]. repeat (split; [by eauto |]). split; [| by eauto].
  intros k' pr' Hin' Heq. destruct (H5 k' pr') as [d' Hd']; [by right |].
  rewrite Heq in Hd'.
  assert (Hsame : (k', d') = (k, d)).
  { clear -H3 Hd Hd'. induction T as [| [h x] T IH]; [by apply elem_of_nil in Hd |].
    simpl in H3. apply NoDup_cons in H3 as [Hh H3].
    apply elem_of_cons in Hd as [Hd | Hd], Hd' as [Hd' | Hd'].
    - congruence.
    - injection Hd as <- <-. destruct Hh. by apply (list_elem_of_fmap_2 fst) in Hd'.
    - injection Hd' as <- <-. destruct Hh. by apply (list_elem_of_fmap_2 fst) in Hd.
    - by apply IH. }
  injection Hsame as -> _. apply H1. by apply (elem_keys _ _ _ Hin').
Qed.

(** The first entry goes, and its timer with it. *)
Lemma ok_drop P T nh np no S k pr :
  ok ((k, pr) :: P) T nh np no S ->
  ok P (filter (fun e => e.1 <> timeout pr) T) nh np no S.
Proof.
  intros H. pose proof (ok_head _ _ _ _ _ _ _ _ H) as (Hk & _ & _ & _ & _ & _ & _ & _ & Hne & _).
  destruct H as [H1 H2 H3 H4 H5 H6 H7 H8 H9 H10 H11 H12 H13 H14].
  unfold waiters, objs in *. simpl in *.
  apply NoDup_cons in H1 as [_ H1], H7 as [_ H7], H12 as [_ H12].
  split; try done.
  - intros k' pr' Hin. apply H2. by right.
  - eapply sublist_NoDup; [exact H3 |]. apply fmap_sublist, sublist_filter.
  - intros h x [_ Hin]%list_elem_of_filter. eauto.
  - intros k' pr' Hin. destruct (H5 k' pr') as [d Hd]; [by right |].
    exists d. apply list_elem_of_filter. split; [| done]. simpl. eauto.
  - intros h k' d [Hh Hin]%list_elem_of_filter. simpl in Hh.
    destruct (H6 _ _ _ Hin) as (pr' & [Heq | Hpr']%elem_of_cons & Ht).
    + injection Heq as -> ->. done.
    + eauto.
  - intros k' pr' Hin. apply (H8 k'). by right.
  - intros k' pr' Hin. apply (H9 k'). by right.
  - intros k' pr' Hin. apply (H13 k'). by right.
  - intros k' pr' Hin. apply (H14 k' pr'). by right.
Qed.

(** A promise that no entry waits on is settled, for the first time. *)
Lemma ok_settle P T nh np no S p o :
  ok P T nh np no S ->
  (p < np)%nat -> p ∉ waiters P -> p ∉ map fst S ->
  ok P T nh np no (S ++ [(p, o)]).
Proof.
  intros [H1 H2 H3 H4 H5 H6 H7 H8 H9 H10 H11 H12 H13 H14] Hlt Hw Hs.
  split; try done.
  - intros k pr Hin. rewrite map_app. simpl. intros [Hin' | Heq%list_elem_of_singleton]%elem_of_app.
    + by apply (H9 _ _ Hin).
    + apply Hw. rewrite <- Heq. by apply (elem_waiters k).
  - intros p' o' [Hin | Heq%list_elem_of_singleton]%elem_of_app; [eauto |].
    by injection Heq as -> ->.
  - rewrite map_app. simpl. apply NoDup_app. split; [done |]. split; [| apply NoDup_singleton].
    by intros p' Hp' ->%list_elem_of_singleton.
Qed.

(** The first entry is replaced by one that keeps its timer and identity,
    and either keeps its promise or waits on a new one. *)
Lemma ok_replace P T nh np no S k pr pr' np' :
  ok ((k, pr) :: P) T nh np no S ->
  pr_id pr' = pr_id pr -> timeout pr' = timeout pr -> obj pr' = obj pr ->
  (waiter pr' = waiter pr /\ np' = np) \/ (waiter pr' = np /\ np' = Datatypes.S np) ->
  ok ((k, pr') :: P) T nh np' no S.
Proof.
  intros H Hid Ht Ho Hw.
  pose proof (ok_head _ _ _ _ _ _ _ _ H) as (Hk & Hi & Hwp & Hwlt & Hws & Hop & Holt & _ & _ & _).
  destruct H as [H1 H2 H3 H4 H5 H6 H7 H8 H9 H10 H11 H12 H13 H14].
  assert (Hle : (np <= np')%nat) by (destruct Hw as [[_ ->] | [_ ->]]; lia).
  assert (Hfresh : forall x, x ∈ waiters P -> (x < np)%nat).
  { intros x (e & -> & Hin)%list_elem_of_fmap. destruct e as [k0 pr0].
    apply (H8 k0). by right. }
  split; try done.
  - intros k' pr'' [Heq | Hin]%elem_of_cons.
    + injection Heq as -> ->. congruence.
    + apply H2. by right.
  - intros k' pr'' [Heq | Hin]%elem_of_cons.
    + injection Heq as -> ->. rewrite Ht. apply H5. left.
    + apply H5. by right.
  - intros h k' d Hin. destruct (H6 _ _ _ Hin) as (pr0 & [Heq | Hpr0]%elem_of_cons & Ht0).
    + injection Heq as -> ->. exists pr'. split; [left | congruence].
    + exists pr0. split; [by right | done].
  - unfold waiters in *. simpl in *. apply NoDup_cons in H7 as [_ H7].
    apply NoDup_cons. split; [| done].
    destruct Hw as [[-> _] | [-> _]]; [done |].
    intros Hin. apply Hfresh in Hin. lia.
  - intros k' pr'' [Heq | Hin]%elem_of_cons.
    + injection Heq as -> ->. destruct Hw as [[-> ->] | [-> ->]]; lia.
    + assert ((waiter pr'' < np)%nat) by (apply (H8 k'); by right). lia.
  - intros k' pr'' [Heq | Hin]%elem_of_cons.
    + injection Heq as -> ->. destruct Hw as [[-> _] | [-> _]]; [done |].
      intros (e & Hp & Hin)%list_elem_of_fmap. destruct e as [p o]. simpl in Hp. subst p.
      apply H10 in Hin. lia.
    + apply (H9 k'). by right.
  - intros p o Hin. apply H10 in Hin. lia.
  - unfold objs in *. simpl in *. by rewrite Ho.
  - intros k' pr'' [Heq | Hin]%elem_of_cons.
    + injection Heq as -> ->. by rewrite Ho.
    + apply (H13 k'). by right.
  - intros k' pr'' [Heq | Hin]%elem_of_cons.
    + injection Heq as -> ->. apply (H14 k pr). left.
    + apply (H14 k' pr''). by right.
Qed.

Lemma ok_no_timers T nh np no S : ok [] T nh np no S -> T = [].
Proof.
  intros H. destruct T as [| [h [k d]] T]; [done |].
  destruct (ok_owner _ _ _ _ _ _ H h k d) as (pr & Hin & _); [left |].
  by apply elem_of_nil in Hin.
Qed.

(** An entry is deleted, its timer cleared and its promise settled. *)
Lemma ok_remove P T nh np no S k pr o :
  ok P T nh np no S -> map_get k P = Some pr ->
  ok (map_delete k P) (filter (fun e => e.1 <> timeout pr) T) nh np no
    (S ++ [(waiter pr, o)]).
Proof.
  intros H Hget.
  apply (ok_perm _ _ _ _ _ _ _ (map_self_perm k pr P (ok_ids _ _ _ _ _ _ H) Hget)) in H.
  pose proof (ok_head _ _ _ _ _ _ _ _ H) as (_ & _ & Hw & Hlt & Hs & _).
  apply ok_settle; [by apply ok_drop in H | done ..].
Qed.

(** An entry's timer is cleared and a new one armed for it. *)
Lemma ok_rearm P T nh np no S k pr pr' d :
  ok P T nh np no S -> map_get k P = Some pr ->
  pr_id pr' = pr_id pr -> timeout pr' = nh -> waiter pr' = waiter pr -> obj pr' = obj pr ->
  ok (map_set k pr' P) (filter (fun e => e.1 <> timeout pr) T ++ [(nh, (k, d))])
    (Datatypes.S nh) np no S.
Proof.
  intros H Hget Hid Ht Hw Ho.
  pose proof (ok_ids _ _ _ _ _ _ H) as Hnd.
  apply (ok_perm _ _ _ _ _ _ _ (map_self_perm k pr P Hnd Hget)) in H.
  pose proof (ok_head _ _ _ _ _ _ _ _ H) as (Hk & Hi & Hwp & Hwlt & Hws & Hop & Holt & _ & _ & Htr).
  apply ok_drop in H.
  eapply ok_perm; [symmetry; by apply (map_set_perm k pr' pr) |].
  apply (ok_add _ _ _ np no); try done; congruence.
Qed.

Definition rewait (p : nat) (pendingRequest : PendingRequest) (e : json * PendingRequest)
  : json * PendingRequest :=
  if Nat.eqb (obj e.2) (obj pendingRequest)
  then (e.1, mkPending (pr_id e.2) (pr_method e.2) (timestamp e.2)
               (timeout e.2) p (retries e.2) (maxRetries e.2) (obj e.2))
  else e.

Lemma rewait_other p pr P :
  obj pr ∉ objs P -> map (rewait p pr) P = P.
Proof.
  induction P as [| [k0 pr0] P IH]; [done |]. unfold objs. simpl.
  intros [Hne Hin]%not_elem_of_cons. rewrite IH by done. unfold rewait at 1. simpl.
  destruct (Nat.eqb_spec (obj pr0) (obj pr)); [congruence | done].
Qed.

Lemma rewait_map_set p k pr P :
  NoDup (objs P) -> map_get k P = Some pr ->
  map (rewait p pr) P
  = map_set k (mkPending (pr_id pr) (pr_method pr) (timestamp pr) (timeout pr) p
                 (retries pr) (maxRetries pr) (obj pr)) P.
Proof.
  induction P as [| [k0 pr0] P IH]; simpl; [discriminate |].
  unfold objs. simpl. intros [Ho Hnd]%NoDup_cons.
  destruct (json_eqb k k0) eqn:E.
  - intros Heq. injection Heq as ->. rewrite rewait_other by done.
    unfold rewait. simpl. by rewrite Nat.eqb_refl.
  - intros Hget. rewrite IH by done. unfold rewait at 1. simpl.
    destruct (Nat.eqb_spec (obj pr0) (obj pr)) as [Heq | Hne]; [| done].
    destruct Ho. rewrite Heq. apply map_get_elem in Hget. by apply (elem_objs k).
Qed.

(** An entry is given a new promise to wait on. *)
Lemma ok_rewait P T nh np no S k pr :
  ok P T nh np no S -> map_get k P = Some pr ->
  ok (map (rewait np pr) P) T nh (Datatypes.S np) no S.
Proof.
  intros H Hget. rewrite (rewait_map_set np k pr P (ok_objs _ _ _ _ _ _ H) Hget).
  pose proof (ok_ids _ _ _ _ _ _ H) as Hnd.
  apply (ok_perm _ _ _ _ _ _ _ (map_self_perm k pr P Hnd Hget)) in H.
  eapply ok_perm; [symmetry; by apply (map_set_perm k _ pr) |].
  eapply ok_replace; [exact H | done .. |]. right. done.
Qed.

(** *** Runs of the tracker *)

Definition consistent (t : Tracker) : Prop :=
  ok (pending t) (timers t) (next_handle t) (next_promise t) (next_obj t) (settled t).

Lemma consistent_new cfg : consistent (new_tracker cfg).
Proof. apply ok_nil. Qed.

Lemma consistent_trackRequest t msg tmo maxR now :
  consistent t -> consistent (trackRequest t msg tmo maxR now).2.
Proof.
  unfold consistent, trackRequest. intros H.
  destruct (negb (truthy (prop "id" msg))) eqn:Htr; [done |].
  apply negb_false_iff in Htr.
  destruct (prop "id" msg) as [id |]; [| done].
  destruct (map_has id (pending t)) eqn:E; [done |].
  assert (Hk : id ∉ map fst (pending t)).
  { intros Hin%map_has_elem. congruence. }
  assert (Hgoal : forall m,
    ok (map_set id (mkPending id m now (next_handle t) (next_promise t) 0
                      (num_or maxR (cfg_maxRetries (config t))) (next_obj t)) (pending t))
       (timers t ++ [(next_handle t, (id, num_or tmo (defaultTimeout (config t))))])
       (Datatypes.S (next_handle t)) (Datatypes.S (next_promise t))
       (Datatypes.S (next_obj t)) (settled t)).
  { intros m. rewrite map_set_absent by done.
    eapply ok_perm; [apply Permutation_cons_append |].
    apply (ok_add _ _ _ (next_promise t) (next_obj t)); simpl; try done; try lia.
    - intros (e & Hw & Hin)%list_elem_of_fmap. destruct e as [k pr].
      apply (ok_waiter_lt _ _ _ _ _ _ H) in Hin. simpl in Hw. lia.
    - intros (e & Hw & Hin)%list_elem_of_fmap. destruct e as [p o].
      apply (ok_settled_lt _ _ _ _ _ _ H) in Hin. simpl in Hw. lia.
    - intros (e & Hw & Hin)%list_elem_of_fmap. destruct e as [k pr].
      apply (ok_obj_lt _ _ _ _ _ _ H) in Hin. simpl in Hw. lia. }
  destruct (enableMetrics (config t)); simpl; apply Hgoal.
Qed.

Lemma consistent_handleResponse t response now :
  consistent t -> consistent (handleResponse t response now).2.
Proof.
  unfold consistent, handleResponse. intros H.
  destruct (negb (truthy (prop "id" response))); [done |].
  destruct (prop "id" response) as [id |]; [| done].
  destruct (map_get id (pending t)) as [pr |] eqn:Hget; [| done].
  unfold updateMetrics.
  destruct (enableMetrics (config t)), (prop "error" response) as [e |];
    try destruct (truthy (Some e)); simpl; by apply ok_remove.
Qed.

Lemma consistent_cancelRequest t id :
  consistent t -> consistent (cancelRequest t id).2.
Proof.
  unfold consistent, cancelRequest. intros H.
  destruct (map_get id (pending t)) as [pr |] eqn:Hget; [| done].
  destruct (enableMetrics (config t)); simpl; by apply ok_remove.
Qed.

(** The request an armed timer was armed for. *)
Lemma timer_owner t h k d :
  consistent t -> (h, (k, d)) ∈ timers t ->
  exists pr, map_get k (pending t) = Some pr /\ timeout pr = h.
Proof.
  intros H Hin. destruct (ok_owner _ _ _ _ _ _ H h k d Hin) as (pr & Hpr & Ht).
  exists pr. split; [| done]. apply map_get_unique; [apply (ok_ids _ _ _ _ _ _ H) | done].
Qed.

Lemma consistent_fire_timer t h :
  consistent t -> consistent (fire_timer t h).
Proof.
  unfold fire_timer. intros H.
  destruct (list_find _ _) as [[i [h' [id d]]] |] eqn:Hfind; [| done].
  apply list_find_Some in Hfind as (Hi & Hh & _). simpl in Hh. subst h'.
  apply list_elem_of_lookup_2 in Hi.
  destruct (timer_owner t h id d H Hi) as (pr & Hget & Ht).
  unfold consistent, handleTimeout. simpl. rewrite Hget.
  destruct (enableMetrics (config t)); simpl; rewrite <- Ht; by apply ok_remove.
Qed.

Lemma map_get_set k (pr : PendingRequest) P : map_get k (map_set k pr P) = Some pr.
Proof.
  induction P as [| [k0 pr0] P IH]; simpl.
  - by rewrite json_eqb_refl.
  - destruct (json_eqb k k0) eqn:E; simpl; by rewrite E.
Qed.

Lemma consistent_retryRequest_begin t m now :
  consistent t ->
  consistent (retryRequest_begin t m now).2 /\
  forall pr', (retryRequest_begin t m now).1 = Ok pr' ->
              map_get (pr_id pr') (pending (retryRequest_begin t m now).2) = Some pr'.
Proof.
  unfold consistent, retryRequest_begin. intros H.
  destruct (negb (truthy (prop "id" m))); [done |].
  destruct (prop "id" m) as [id |]; [| done].
  destruct (map_get id (pending t)) as [pr |] eqn:Hget; [| done].
  assert (Hid : pr_id pr = id).
  { apply (ok_id _ _ _ _ _ _ H). by apply map_get_elem. }
  destruct (maxRetries pr <=? retries pr)%Z; simpl.
  - split; [by apply ok_remove | done].
  - split; [by apply ok_rearm |].
    intros pr' Heq. injection Heq as <-. simpl. rewrite Hid. apply map_get_set.
Qed.

Lemma consistent_retryRequest_sent t pr sent :
  consistent t -> map_get (pr_id pr) (pending t) = Some pr ->
  consistent (retryRequest_sent t (pr_id pr) pr sent).2.
Proof.
  unfold consistent, retryRequest_sent. intros H Hget.
  destruct sent as [[] | e]; simpl.
  - by apply (ok_rewait _ _ _ _ _ _ (pr_id pr)).
  - by apply ok_remove.
Qed.

Lemma consistent_retryRequest t m now sendFn :
  consistent t -> consistent (retryRequest t m now sendFn).2.
Proof.
  intros H. unfold retryRequest.
  destruct (consistent_retryRequest_begin t m now H) as [Hc Hget].
  destruct (retryRequest_begin t m now) as [[pr | e] t']; simpl in *; [| done].
  apply consistent_retryRequest_sent; [done |]. by apply Hget.
Qed.

Definition cancel_one (acc : Tracker) (e : json * PendingRequest) : Tracker :=
  settle (waiter e.2) (Rejected all_cancelled_error) (clearTimeout (timeout e.2) acc).

Lemma cancel_fold P t :
  ok P (timers t) (next_handle t) (next_promise t) (next_obj t) (settled t) ->
  let t1 := fold_left cancel_one P t in
  ok [] (timers t1) (next_handle t1) (next_promise t1) (next_obj t1) (settled t1) /\
  settled t1 = settled t ++ map (fun e => (waiter e.2, Rejected all_cancelled_error)) P /\
  config t1 = config t /\ metrics t1 = metrics t /\ responseTimes t1 = responseTimes t /\
  cleanupTimer t1 = cleanupTimer t.
Proof.
  revert t. induction P as [| [k pr] P IH]; intros t H; simpl.
  - by rewrite app_nil_r.
  - pose proof (ok_head _ _ _ _ _ _ _ _ H) as (_ & _ & Hw & Hlt & Hs & _).
    destruct (IH (cancel_one t (k, pr))) as (H1 & H2 & H3 & H4 & H5 & H6).
    { simpl. apply ok_settle; [by apply ok_drop in H | done ..]. }
    split; [done |]. rewrite H2, H3, H4, H5, H6. simpl. by rewrite <- app_assoc.
Qed.

Lemma consistent_cancelAllRequests t :
  consistent t -> consistent (cancelAllRequests t).2.
Proof.
  intros H. destruct (cancel_fold (pending t) t H) as (H1 & _).
  unfold consistent, cancelAllRequests. fold cancel_one.
  destruct (enableMetrics (config t)); simpl; exact H1.
Qed.

Lemma consistent_cleanupStaleRequests t now :
  consistent t -> consistent (cleanupStaleRequests t now).
Proof.
  unfold cleanupStaleRequests.
  generalize (map fst (filter (fun e : json * PendingRequest =>
                                 defaultTimeout (config t) * 2 < now - timestamp e.2)
                         (pending t))).
  intros ids. revert t. induction ids as [| id ids IH]; intros t H; simpl; [done |].
  by apply IH, consistent_cancelRequest.
Qed.

(** The steps that are whole calls: the two halves of [retryRequest] are
    steps of their own only when something else runs during its [await]. *)
Definition atomic (ev : event) : bool :=
  match ev with
  | EvRetryBegin _ _ | EvRetrySent _ _ _ => false
  | _ => true
  end.

Definition run (cfg : CorrelationConfig) (evs : list event) : Tracker :=
  fold_left step evs (new_tracker cfg).

Lemma run_snoc cfg evs ev : run cfg (evs ++ [ev]) = step (run cfg evs) ev.
Proof. unfold run. by rewrite fold_left_app. Qed.

Lemma reachable_run cfg evs : reachable cfg (run cfg evs).
Proof.
  induction evs as [| ev evs IH] using rev_ind; [constructor |].
  rewrite run_snoc. by constructor.
Qed.

Lemma consistent_step t ev :
  atomic ev = true -> consistent t -> consistent (step t ev).
Proof.
  destruct ev; cbn [step atomic]; intros Ha H; try discriminate.
  - by apply consistent_trackRequest.
  - by apply consistent_handleResponse.
  - by apply consistent_fire_timer.
  - by apply consistent_retryRequest.
  - by apply consistent_cancelRequest.
  - by apply consistent_cancelAllRequests.
  - by apply consistent_cleanupStaleRequests.
  - done.
  - unfold shutdown. by apply consistent_cancelAllRequests.
Qed.

Lemma consistent_run cfg evs :
  forallb atomic evs = true -> consistent (run cfg evs).
Proof.
  induction evs as [| ev evs IH] using rev_ind; intros Ha.
  - apply consistent_new.
  - rewrite forallb_app in Ha. apply andb_prop in Ha as [Ha Hev].
    simpl in Hev. rewrite andb_true_r in Hev.
    rewrite run_snoc. apply consistent_step; auto.
Qed.

Lemma timers_split (T : list (nat * (json * Z))) h x :
  NoDup (map fst T) -> (h, x) ∈ T ->
  T ≡ₚ (h, x) :: filter (fun e => e.1 <> h) T.
Proof.
  induction T as [| [h' x'] T IH]; simpl; intros Hnd Hin; [by apply elem_of_nil in Hin |].
  apply NoDup_cons in Hnd as [Hh Hnd]. rewrite filter_cons. simpl.
  apply elem_of_cons in Hin as [Heq | Hin].
  - injection Heq as <- <-. destruct (decide (h <> h)); [done |].
    replace (filter (fun e : nat * (json * Z) => e.1 <> h) T) with T; [done |].
    clear IH Hnd. induction T as [| [h0 x0] T IH]; [done |].
    simpl in Hh. apply not_elem_of_cons in Hh as [Hne Hh]. rewrite filter_cons. simpl.
    destruct (decide (h0 <> h)) as [| Hn]; [| exfalso; apply Hn; congruence].
    f_equal. by apply IH.
  - destruct (decide (h' <> h)) as [Hne | Heq].
    + rewrite (IH Hnd Hin) at 1. apply Permutation_swap.
    + apply dec_stable in Heq as ->. destruct Hh.
      by apply (list_elem_of_fmap_2 fst) in Hin.
Qed.

(** The timers of the entries are the armed timers. *)
Lemma ok_timeouts P T nh np no S :
  ok P T nh np no S -> map (fun e => timeout e.2) P ≡ₚ map fst T.
Proof.
  revert T. induction P as [| [k pr] P IH]; intros T H.
  - by rewrite (ok_no_timers _ _ _ _ _ H).
  - destruct (ok_armed _ _ _ _ _ _ H k pr) as [d Hd]; [left |].
    rewrite (timers_split T _ _ (ok_handles _ _ _ _ _ _ H) Hd) at 1.
    simpl. f_equiv. apply IH. by apply ok_drop in H.
Qed.

(** X1: as long as nothing else runs while a retry awaits its send, the
    tracker calls the [resolve] or [reject] of each promise it handed out at
    most once; no two pending requests wait on the same promise, and the
    promise of a pending request has not been settled. *)
Theorem each_promise_settled_at_most_once cfg evs :
  forallb atomic evs = true ->
  let t := run cfg evs in
  NoDup (map fst (settled t)) /\
  NoDup (map (fun e => waiter e.2) (pending t)) /\
  (forall id pr, getPendingRequest t id = Some pr -> waiter pr ∉ map fst (settled t)).
Proof.
  intros Ha t. pose proof (consistent_run cfg evs Ha) as H. fold t in H.
  split; [apply (ok_once _ _ _ _ _ _ H) |]. split; [apply (ok_waiters _ _ _ _ _ _ H) |].
  intros id pr Hget. apply (ok_unsettled _ _ _ _ _ _ H id). by apply map_get_elem.
Qed.

(** X2: in such a run each pending request has its timer armed, each armed
    timer is the timer of the pending request whose id its callback names,
    no handle is armed twice, and there are as many armed timers as pending
    requests. *)
Theorem armed_timers_are_those_of_pending cfg evs :
  forallb atomic evs = true ->
  let t := run cfg evs in
  (forall id pr, getPendingRequest t id = Some pr ->
                 exists delay, (timeout pr, (id, delay)) ∈ timers t) /\
  (forall h id delay, (h, (id, delay)) ∈ timers t ->
                      exists pr, getPendingRequest t id = Some pr /\ timeout pr = h) /\
  NoDup (map fst (timers t)) /\
  length (timers t) = getPendingCount t.
Proof.
  intros Ha t. pose proof (consistent_run cfg evs Ha) as H. fold t in H.
  split; [| split; [| split]].
  - intros id pr Hget. apply (ok_armed _ _ _ _ _ _ H). by apply map_get_elem.
  - intros h id d Hin. by apply (timer_owner t h id d).
  - apply (ok_handles _ _ _ _ _ _ H).
  - unfold getPendingCount.
    rewrite <- (length_map fst (timers t)), <- (ok_timeouts _ _ _ _ _ _ H).
    by rewrite length_map.
Qed.

Lemma fire_timer_armed t h id d :
  consistent t -> (h, (id, d)) ∈ timers t ->
  exists pr, map_get id (pending t) = Some pr /\ timeout pr = h /\
             fire_timer t h = handleTimeout (clearTimeout h t) id.
Proof.
  intros H Hin. destruct (timer_owner t h id d H Hin) as (pr & Hget & Ht).
  exists pr. split; [done |]. split; [done |]. unfold fire_timer.
  destruct (list_find _ _) as [[i [h' [id' d']]] |] eqn:Hfind.
  - apply list_find_Some in Hfind as (Hi & Hh & _). simpl in Hh. subst h'.
    apply list_elem_of_lookup_2 in Hi.
    destruct (timer_owner t h id' d' H Hi) as (pr' & Hget' & Ht').
    assert (Hsame : (id', d') = (id, d)); [| by injection Hsame as -> _].
    pose proof (ok_handles _ _ _ _ _ _ H) as Hnd.
    pose proof (timers_split _ _ _ Hnd Hi) as Hp.
    rewrite Hp in Hin. apply elem_of_cons in Hin as [Heq | Hin]; [congruence |].
    apply list_elem_of_filter in Hin as [Hne _]. done.
  - apply list_find_None in Hfind. rewrite Forall_forall in Hfind.
    by destruct (Hfind _ Hin).
Qed.

(** X3: in such a run, when an armed timer expires the request it was armed
    for is dropped and its promise rejected with the time-out error, whose
    code is -32603; the timer is spent, and every other request and timer
    stays as it was. *)
Theorem expiry_rejects_the_request cfg evs h id delay :
  forallb atomic evs = true ->
  let t := run cfg evs in
  (h, (id, delay)) ∈ timers t ->
  exists pr,
    getPendingRequest t id = Some pr /\
    let t' := step t (EvTimer h) in
    getPendingRequest t' id = None /\
    (forall id', id' <> id -> getPendingRequest t' id' = getPendingRequest t id') /\
    settled t' = settled t ++ [(waiter pr, Rejected (timeout_error t id))] /\
    code (timeout_error t id) = Some (JNum (-32603)) /\
    timers t' = filter (fun e => e.1 <> h) (timers t).
Proof.
  intros Ha t Hin. pose proof (consistent_run cfg evs Ha) as H. fold t in H.
  destruct (fire_timer_armed t h id delay H Hin) as (pr & Hget & Ht & Hfire).
  exists pr. split; [done |]. cbn [step]. rewrite Hfire.
  unfold handleTimeout, getPendingRequest. simpl. rewrite Hget.
  destruct (enableMetrics (config t)); simpl;
    (split; [apply map_get_delete |]); (split; [| done]);
    intros id' Hne; by apply map_get_delete_ne.
Qed.

Lemma cancelAllRequests_result t :
  consistent t ->
  (cancelAllRequests t).1 = getPendingCount t /\
  pending (cancelAllRequests t).2 = [] /\
  timers (cancelAllRequests t).2 = [] /\
  settled (cancelAllRequests t).2
  = settled t ++ map (fun e => (waiter e.2, Rejected all_cancelled_error)) (pending t) /\
  cleanupTimer (cancelAllRequests t).2 = cleanupTimer t.
Proof.
  intros H. destruct (cancel_fold (pending t) t H) as (H1 & H2 & _ & _ & _ & H6).
  apply ok_no_timers in H1.
  unfold cancelAllRequests. fold cancel_one.
  destruct (enableMetrics (config t)); simpl; done.
Qed.

(** X4: in such a run [cancelAllRequests] answers the number of pending
    requests, leaves none pending and no timer armed, and rejects the
    promise of each of them, in the order they were tracked, with the error
    of code -32800; [shutdown] does the same and stops the sweep. *)
Theorem cancelAll_rejects_everyone cfg evs :
  forallb atomic evs = true ->
  let t := run cfg evs in
  let rejected := map (fun e => (waiter e.2, Rejected all_cancelled_error)) (pending t) in
  ((cancelAllRequests t).1 = getPendingCount t /\
   getPendingRequestIds (cancelAllRequests t).2 = [] /\
   timers (cancelAllRequests t).2 = [] /\
   settled (cancelAllRequests t).2 = settled t ++ rejected) /\
  (getPendingRequestIds (shutdown t) = [] /\
   timers (shutdown t) = [] /\
   cleanupTimer (shutdown t) = false /\
   settled (shutdown t) = settled t ++ rejected) /\
  code all_cancelled_error = Some (JNum (-32800)).
Proof.
  intros Ha t rejected. pose proof (consistent_run cfg evs Ha) as H. fold t in H.
  split; [| split; [| done]].
  - destruct (cancelAllRequests_result t H) as (H1 & H2 & H3 & H4 & _).
    unfold getPendingRequestIds. by rewrite H2.
  - unfold shutdown.
    set (t1 := mkTracker _ _ _ _ _ false _ _ _ _).
    destruct (cancelAllRequests_result t1 H) as (H1 & H2 & H3 & H4 & H5).
    unfold getPendingRequestIds. by rewrite H2.
Qed.

(** X5: in such a run, a response whose id is pending is correlated:
    [handleResponse] answers true, drops the request, clears its timer so
    that no armed timer names the id any more, and settles the promise -
    rejected with the response's error when it carries one, resolved with
    the response otherwise; every other request stays pending. *)
Theorem response_settles_its_request cfg evs response id pr now :
  forallb atomic evs = true ->
  let t := run cfg evs in
  prop "id" response = Some id ->
  getPendingRequest t id = Some pr ->
  let t' := (handleResponse t response now).2 in
  (handleResponse t response now).1 = true /\
  getPendingRequest t' id = None /\
  (forall id', id' <> id -> getPendingRequest t' id' = getPendingRequest t id') /\
  (forall h delay, (h, (id, delay)) ∉ timers t') /\
  settled t'
  = settled t ++
    [(waiter pr,
      match prop "error" response with
      | Some e => if truthy (Some e) then Rejected (response_error e)
                  else Resolved response
      | None => Resolved response
      end)].
Proof.
  intros Ha t Hid Hget t'. pose proof (consistent_run cfg evs Ha) as H. fold t in H.
  pose proof (consistent_handleResponse t response now H) as H'. fold t' in H'.
  assert (Htruthy : truthy (prop "id" response) = true).
  { rewrite Hid. apply (ok_truthy _ _ _ _ _ _ H id pr). by apply map_get_elem. }
  assert (Hgone : getPendingRequest t' id = None /\
                  (forall id', id' <> id -> getPendingRequest t' id' = getPendingRequest t id') /\
                  (handleResponse t response now).1 = true /\
                  settled t' = settled t ++
    [(waiter pr,
      match prop "error" response with
      | Some e => if truthy (Some e) then Rejected (response_error e)
                  else Resolved response
      | None => Resolved response
      end)]).
  { unfold t', handleResponse, getPendingRequest in *. rewrite Htruthy, Hid, Hget.
    unfold updateMetrics.
    destruct (enableMetrics (config t)), (prop "error" response) as [e |];
      try destruct (truthy (Some e)); simpl;
      (split; [apply map_get_delete |]); (split; [| done]);
      intros id' Hne; by apply map_get_delete_ne. }
  destruct Hgone as (Hg1 & Hg2 & Hg3 & Hg4). repeat (split; [done |]).
  split; [| done]. intros h delay Hin.
  destruct (timer_owner t' h id delay H' Hin) as (pr' & Hget' & _).
  unfold getPendingRequest in Hg1. congruence.
Qed.

(** *** The gauge of pending requests *)

Definition gauge (t : Tracker) : Z :=
  pendingRequests (metrics t) - Z.of_nat (length (pending t)).

Definition no_retry (ev : event) : bool :=
  match ev with
  | EvRetryBegin _ _ | EvRetrySent _ _ _ | EvRetry _ _ _ => false
  | _ => true
  end.

Lemma length_map_set {V} k (v : V) m :
  length (map_set k v m) = if map_has k m then length m else Datatypes.S (length m).
Proof.
  rewrite <- (length_map fst (map_set k v m)), keys_map_set.
  destruct (map_has k m); [by rewrite length_map |].
  rewrite length_app, length_map. simpl. lia.
Qed.

Lemma config_fold_cancel l t : config (fold_left cancel_one l t) = config t.
Proof. revert t. induction l as [| e l IH]; intros t; simpl; [done |]. by rewrite IH. Qed.

Lemma config_cancelRequest t id : config (cancelRequest t id).2 = config t.
Proof.
  unfold cancelRequest. destruct (map_get id (pending t)); [| done].
  by destruct (enableMetrics (config t)).
Qed.

Lemma config_cancelAllRequests t : config (cancelAllRequests t).2 = config t.
Proof.
  unfold cancelAllRequests. fold cancel_one.
  destruct (enableMetrics (config t)); simpl; apply config_fold_cancel.
Qed.

Lemma config_retryRequest_begin t m now : config (retryRequest_begin t m now).2 = config t.
Proof.
  unfold retryRequest_begin.
  destruct (negb (truthy (prop "id" m))); [done |].
  destruct (prop "id" m) as [id |]; [| done].
  destruct (map_get id (pending t)) as [pr |]; [| done].
  by destruct (maxRetries pr <=? retries pr)%Z.
Qed.

Lemma config_retryRequest_sent t id pr sent :
  config (retryRequest_sent t id pr sent).2 = config t.
Proof. by destruct sent as [[] | e]. Qed.

Lemma config_step t ev : config (step t ev) = config t.
Proof.
  destruct ev; cbn [step].
  - unfold trackRequest.
    destruct (negb (truthy (prop "id" msg))); [done |].
    destruct (prop "id" msg) as [id |]; [| done].
    destruct (map_has id (pending t)); [done |].
    by destruct (enableMetrics (config t)).
  - unfold handleResponse, updateMetrics.
    destruct (negb (truthy (prop "id" response))); [done |].
    destruct (prop "id" response) as [id |]; [| done].
    destruct (map_get id (pending t)) as [pr |]; [| done].
    destruct (enableMetrics (config t)), (prop "error" response) as [e |];
      try destruct (truthy (Some e)); done.
  - unfold fire_timer. destruct (list_find _ _) as [[i [h' [id d]]] |]; [| done].
    unfold handleTimeout. simpl.
    destruct (map_get id (pending t)); [| done].
    by destruct (enableMetrics (config t)).
  - apply config_retryRequest_begin.
  - apply config_retryRequest_sent.
  - unfold retryRequest. pose proof (config_retryRequest_begin t originalMessage now) as Hb.
    destruct (retryRequest_begin t originalMessage now) as [[pr | e] t']; simpl in *; [| done].
    by rewrite config_retryRequest_sent.
  - apply config_cancelRequest.
  - apply config_cancelAllRequests.
  - unfold cleanupStaleRequests.
    generalize (map fst (filter (fun e : json * PendingRequest =>
                                   defaultTimeout (config t) * 2 < now - timestamp e.2)
                           (pending t))).
    intros ids. revert t. induction ids as [| id ids IH]; intros t; simpl; [done |].
    by rewrite IH, config_cancelRequest.
  - done.
  - unfold shutdown. by rewrite config_cancelAllRequests.
Qed.

Lemma run_config cfg evs : config (run cfg evs) = cfg.
Proof.
  induction evs as [| ev evs IH] using rev_ind; [done |].
  by rewrite run_snoc, config_step.
Qed.

Lemma run_unique cfg evs : unique_ids (run cfg evs).
Proof.
  induction evs as [| ev evs IH] using rev_ind; [constructor |].
  rewrite run_snoc. by apply unique_step.
Qed.

Lemma gauge_delete t id pr f S' T' :
  unique_ids t -> map_get id (pending t) = Some pr ->
  gauge (mkTracker (config t) (map_delete id (pending t))
           (mkMetrics (pendingRequests (metrics t) - 1) (f 1%nat) (f 2%nat) (f 3%nat)
              (requestCounts (metrics t)))
           S' T' (cleanupTimer t) (next_handle t) (next_promise t) (next_obj t)
           (settled t))
  = gauge t.
Proof.
  intros Hu Hget. unfold gauge. simpl.
  rewrite (length_map_delete_unique id pr (pending t) Hu Hget). lia.
Qed.

Lemma gauge_cancelRequest t id :
  unique_ids t -> enableMetrics (config t) = true ->
  gauge (cancelRequest t id).2 = gauge t.
Proof.
  intros Hu Hm. unfold cancelRequest.
  destruct (map_get id (pending t)) as [pr |] eqn:Hget; [| done].
  rewrite Hm. unfold gauge. simpl.
  rewrite (length_map_delete_unique id pr (pending t) Hu Hget). lia.
Qed.

Lemma gauge_cleanupStaleRequests t now :
  unique_ids t -> enableMetrics (config t) = true ->
  gauge (cleanupStaleRequests t now) = gauge t.
Proof.
  unfold cleanupStaleRequests.
  generalize (map fst (filter (fun e : json * PendingRequest =>
                                 defaultTimeout (config t) * 2 < now - timestamp e.2)
                         (pending t))).
  intros ids. revert t. induction ids as [| id ids IH]; intros t Hu Hm; simpl; [done |].
  rewrite IH.
  - by apply gauge_cancelRequest.
  - by apply unique_cancelRequest.
  - by rewrite config_cancelRequest.
Qed.

Lemma gauge_cancelAllRequests t :
  enableMetrics (config t) = true -> gauge (cancelAllRequests t).2 = 0.
Proof. intros Hm. unfold cancelAllRequests. rewrite Hm. done. Qed.

Lemma gauge_retryRequest_begin t m now :
  gauge t <= gauge (retryRequest_begin t m now).2.
Proof.
  unfold retryRequest_begin.
  destruct (negb (truthy (prop "id" m))); [done |].
  destruct (prop "id" m) as [id |]; [| done].
  destruct (map_get id (pending t)) as [pr |] eqn:Hget; [| done].
  destruct (maxRetries pr <=? retries pr)%Z; unfold gauge; simpl.
  - pose proof (length_map_delete id (pending t)). lia.
  - rewrite length_map_set. unfold map_has. rewrite Hget. lia.
Qed.

Lemma gauge_retryRequest_sent t id pr sent :
  gauge t <= gauge (retryRequest_sent t id pr sent).2.
Proof.
  unfold retryRequest_sent. destruct sent as [[] | e]; unfold gauge; simpl.
  - rewrite length_map. lia.
  - pose proof (length_map_delete id (pending t)). lia.
Qed.

(** One step: the gauge never falls below what it was unless it is set to
    zero, and without a retry it stays or is set to zero. *)
Lemma gauge_step t ev :
  unique_ids t -> enableMetrics (config t) = true ->
  (gauge (step t ev) = 0 \/ gauge t <= gauge (step t ev)) /\
  (no_retry ev = true -> gauge (step t ev) = 0 \/ gauge (step t ev) = gauge t).
Proof.
  intros Hu Hm.
  assert (Hsame : forall t', gauge t' = gauge t ->
    (gauge t' = 0 \/ gauge t <= gauge t') /\ (true = true -> gauge t' = 0 \/ gauge t' = gauge t)).
  { intros t' ->. split; [right; lia | by right]. }
  assert (Hzero : forall t', gauge t' = 0 ->
    (gauge t' = 0 \/ gauge t <= gauge t') /\ (true = true -> gauge t' = 0 \/ gauge t' = gauge t)).
  { intros t' ->. split; by left. }
  assert (Hup : forall t', gauge t <= gauge t' ->
    (gauge t' = 0 \/ gauge t <= gauge t') /\ (false = true -> gauge t' = 0 \/ gauge t' = gauge t)).
  { intros t' Hle. split; [by right | done]. }
  destruct ev; cbn [step no_retry].
  - apply Hsame. unfold trackRequest.
    destruct (negb (truthy (prop "id" msg))); [done |].
    destruct (prop "id" msg) as [id |]; [| done].
    destruct (map_has id (pending t)) eqn:E; [done |].
    rewrite Hm. unfold gauge. simpl. rewrite length_map_set, E. lia.
  - apply Hsame. unfold handleResponse, updateMetrics.
    destruct (negb (truthy (prop "id" response))); [done |].
    destruct (prop "id" response) as [id |]; [| done].
    destruct (map_get id (pending t)) as [pr |] eqn:Hget; [| done].
    rewrite Hm. unfold gauge.
    destruct (prop "error" response) as [e |]; try destruct (truthy (Some e)); simpl;
      rewrite (length_map_delete_unique id pr (pending t) Hu Hget); lia.
  - apply Hsame. unfold fire_timer.
    destruct (list_find _ _) as [[i [h' [id d]]] |]; [| done].
    unfold handleTimeout. simpl.
    destruct (map_get id (pending t)) as [pr |] eqn:Hget; [| done].
    rewrite Hm. unfold gauge. simpl.
    rewrite (length_map_delete_unique id pr (pending t) Hu Hget). lia.
  - apply Hup, gauge_retryRequest_begin.
  - apply Hup, gauge_retryRequest_sent.
  - apply Hup. unfold retryRequest.
    pose proof (gauge_retryRequest_begin t originalMessage now) as Hb.
    destruct (retryRequest_begin t originalMessage now) as [[pr | e] t']; simpl in *; [| done].
    pose proof (gauge_retryRequest_sent t' (pr_id pr) pr (sendFn originalMessage)). lia.
  - apply Hsame. by apply gauge_cancelRequest.
  - apply Hzero. by apply gauge_cancelAllRequests.
  - apply Hsame. by apply gauge_cleanupStaleRequests.
  - apply Hzero. unfold resetMetrics, gauge. simpl. lia.
  - apply Hzero. unfold shutdown. by apply gauge_cancelAllRequests.
Qed.

(** X6: with metrics enabled, [metrics.pendingRequests] is never less than
    the number of pending requests, whatever happens to the tracker, and in
    a run without retries the two are equal. *)
Theorem pending_gauge_counts_pending cfg evs :
  enableMetrics cfg = true ->
  let t := run cfg evs in
  Z.of_nat (getPendingCount t) <= pendingRequests (getMetrics t) /\
  (forallb no_retry evs = true ->
   pendingRequests (getMetrics t) = Z.of_nat (getPendingCount t)).
Proof.
  intros Hm. simpl. unfold getPendingCount, getMetrics.
  assert (H : 0 <= gauge (run cfg evs) /\
              (forallb no_retry evs = true -> gauge (run cfg evs) = 0)).
  { induction evs as [| ev evs IH] using rev_ind; [done |].
    rewrite run_snoc, forallb_app. simpl. rewrite andb_true_r.
    destruct (gauge_step (run cfg evs) ev) as [H1 H2].
    - apply run_unique.
    - by rewrite run_config.
    - destruct IH as [IH1 IH2]. split; [lia |].
      intros [Ha Hev]%andb_prop. specialize (IH2 Ha). specialize (H2 Hev). lia. }
  unfold gauge in H. destruct H as [H1 H2]. split; [lia |]. intros Ha. specialize (H2 Ha). lia.
Qed.

(** *** Retries *)

Definition retries_bounded (P : list (json * PendingRequest)) : Prop :=
  forall e, e ∈ P -> 0 <= retries e.2 <= Z.max 0 (maxRetries e.2).

Lemma bounded_delete k P : retries_bounded P -> retries_bounded (map_delete k P).
Proof. intros H e [Hin _]%elem_map_delete. by apply H. Qed.

Lemma bounded_set k pr P :
  retries_bounded P -> 0 <= retries pr <= Z.max 0 (maxRetries pr) ->
  retries_bounded (map_set k pr P).
Proof. intros H Hpr e [-> | Hin]%elem_map_set_inv; [done | by apply H]. Qed.

Lemma bounded_cancelRequest t id :
  retries_bounded (pending t) -> retries_bounded (pending (cancelRequest t id).2).
Proof.
  unfold cancelRequest. intros H.
  destruct (map_get id (pending t)) as [pr |]; [| done].
  destruct (enableMetrics (config t)); simpl; by apply bounded_delete.
Qed.

Lemma bounded_retryRequest_begin t m now :
  retries_bounded (pending t) -> retries_bounded (pending (retryRequest_begin t m now).2).
Proof.
  unfold retryRequest_begin. intros H.
  destruct (negb (truthy (prop "id" m))); [done |].
  destruct (prop "id" m) as [id |]; [| done].
  destruct (map_get id (pending t)) as [pr |] eqn:Hget; [| done].
  destruct (Z.leb_spec (maxRetries pr) (retries pr)); simpl.
  - by apply bounded_delete.
  - apply bounded_set; [done |]. simpl.
    apply map_get_elem, H in Hget. simpl in Hget. lia.
Qed.

Lemma bounded_retryRequest_sent t id pr sent :
  retries_bounded (pending t) -> retries_bounded (pending (retryRequest_sent t id pr sent).2).
Proof.
  unfold retryRequest_sent. intros H. destruct sent as [[] | e]; simpl.
  - intros e (e0 & -> & Hin)%list_elem_of_fmap. apply H in Hin.
    by destruct (Nat.eqb (obj e0.2) (obj pr)).
  - by apply bounded_delete.
Qed.

Lemma bounded_step t ev :
  retries_bounded (pending t) -> retries_bounded (pending (step t ev)).
Proof.
  intros H. destruct ev; cbn [step].
  - unfold trackRequest.
    destruct (negb (truthy (prop "id" msg))); [done |].
    destruct (prop "id" msg) as [id |]; [| done].
    destruct (map_has id (pending t)); [done |].
    destruct (enableMetrics (config t)); simpl; (apply bounded_set; [done | simpl; lia]).
  - unfold handleResponse, updateMetrics.
    destruct (negb (truthy (prop "id" response))); [done |].
    destruct (prop "id" response) as [id |]; [| done].
    destruct (map_get id (pending t)) as [pr |]; [| done].
    destruct (enableMetrics (config t)), (prop "error" response) as [e |];
      try destruct (truthy (Some e)); simpl; by apply bounded_delete.
  - unfold fire_timer. destruct (list_find _ _) as [[i [h' [id d]]] |]; [| done].
    unfold handleTimeout. simpl.
    destruct (map_get id (pending t)); [| done].
    destruct (enableMetrics (config t)); simpl; by apply bounded_delete.
  - by apply bounded_retryRequest_begin.
  - by apply bounded_retryRequest_sent.
  - unfold retryRequest.
    pose proof (bounded_retryRequest_begin t originalMessage now H) as Hb.
    destruct (retryRequest_begin t originalMessage now) as [[pr | e] t']; simpl in *; [| done].
    by apply bounded_retryRequest_sent.
  - by apply bounded_cancelRequest.
  - rewrite pending_cancelAllRequests. by intros e Hin%elem_of_nil.
  - unfold cleanupStaleRequests.
    generalize (map fst (filter (fun e : json * PendingRequest =>
                                   defaultTimeout (config t) * 2 < now - timestamp e.2)
                           (pending t))).
    intros ids. revert t H. induction ids as [| id ids IH]; intros t H; simpl; [done |].
    by apply IH, bounded_cancelRequest.
  - done.
  - unfold shutdown. rewrite pending_cancelAllRequests. by intros e Hin%elem_of_nil.
Qed.

(** X7: whatever happens to the tracker, also when other calls run while a
    retry awaits its send, the retry count of a pending request is never
    negative and never above its [maxRetries] (or zero, where that is
    negative): a request is re-sent at most [maxRetries] times. *)
Theorem retries_stay_within_maxRetries cfg evs id pr :
  getPendingRequest (run cfg evs) id = Some pr ->
  0 <= retries pr <= Z.max 0 (maxRetries pr).
Proof.
  intros Hget. apply map_get_elem in Hget.
  assert (H : retries_bounded (pending (run cfg evs))).
  { clear. induction evs as [| ev evs IH] using rev_ind.
    - by intros e Hin%elem_of_nil.
    - rewrite run_snoc. by apply bounded_step. }
  by apply H in Hget.
Qed.

(** *** The sweep *)

Lemma filter_ext_in {A} (P Q : A -> Prop) `{!forall x, Decision (P x)}
  `{!forall x, Decision (Q x)} (l : list A) :
  (forall x, x ∈ l -> P x <-> Q x) -> filter P l = filter Q l.
Proof.
  induction l as [| x l IH]; intros Hl; [done |]. rewrite !filter_cons.
  assert (Hx : P x <-> Q x) by (apply Hl; left).
  rewrite IH by (intros y Hy; apply Hl; by right).
  destruct (decide (P x)), (decide (Q x)); tauto.
Qed.

Lemma filter_all {A} (P : A -> Prop) `{!forall x, Decision (P x)} (l : list A) :
  (forall x, P x) -> filter P l = l.
Proof.
  intros Hl. induction l as [| x l IH]; [done |]. rewrite filter_cons, IH.
  destruct (decide (P x)) as [| Hn]; [done | by destruct Hn].
Qed.

Lemma cancel_each (L : list (json * PendingRequest)) t :
  NoDup (map fst (pending t)) -> NoDup (map fst L) -> L ⊆ pending t ->
  let t' := fold_left (fun acc id => (cancelRequest acc id).2) (map fst L) t in
  pending t' = filter (fun e => e.1 ∉ map fst L) (pending t) /\
  settled t' = settled t ++ map (fun e => (waiter e.2, Rejected (cancelled_error e.1))) L.
Proof.
  revert t. induction L as [| [k pr] L IH]; intros t Hnd HL Hsub; simpl.
  - split; [| by rewrite app_nil_r]. symmetry.
    apply filter_all. intros e. apply not_elem_of_nil.
  - simpl in HL. apply NoDup_cons in HL as [HkL HL].
    assert (Hget : map_get k (pending t) = Some pr).
    { apply map_get_unique; [done |]. apply Hsub. left. }
    assert (Hstep : pending (cancelRequest t k).2 = map_delete k (pending t) /\
                    settled (cancelRequest t k).2
                    = settled t ++ [(waiter pr, Rejected (cancelled_error k))]).
    { unfold cancelRequest. rewrite Hget. by destruct (enableMetrics (config t)). }
    destruct Hstep as [Hp Hs].
    destruct (IH (cancelRequest t k).2) as [IH1 IH2].
    + rewrite Hp. by apply NoDup_map_delete.
    + done.
    + intros e He. rewrite Hp. apply elem_map_delete. split; [apply Hsub; by right |].
      intros Hk. apply HkL. rewrite <- Hk. by apply (list_elem_of_fmap_2 fst) in He.
    + rewrite IH1, IH2, Hp, Hs, <- app_assoc. split; [| done].
      unfold map_delete. rewrite list_filter_filter. apply list_filter_iff.
      intros e. rewrite not_elem_of_cons. split.
      * intros [H1 H2]. split; [| done]. intros Heq.
        rewrite <- Heq, json_eqb_refl in H2. done.
      * intros [H1 H2]. split; [done |].
        destruct (json_eqb k e.1) eqn:E; [| done]. apply json_eqb_eq in E. congruence.
Qed.

Lemma keys_determine {V} (m : list (json * V)) e e' :
  NoDup (map fst m) -> e ∈ m -> e' ∈ m -> e.1 = e'.1 -> e = e'.
Proof.
  intros Hnd He He' Hk. destruct e as [k v], e' as [k' v']. simpl in Hk. subst k'.
  apply (map_get_unique _ _ _ Hnd) in He, He'. congruence.
Qed.

(** X8: the sweep of the cleanup timer cancels exactly the requests that
    have been pending for more than twice the default time-out: those stay
    pending that have not, in their order, and the promise of each stale
    one is rejected once, with the cancellation error that names its id. *)
Theorem sweep_cancels_exactly_the_stale cfg evs now :
  let t := run cfg evs in
  let stale (e : json * PendingRequest) :=
    defaultTimeout (config t) * 2 < now - timestamp e.2 in
  pending (cleanupStaleRequests t now) = filter (fun e => ~ stale e) (pending t) /\
  settled (cleanupStaleRequests t now)
  = settled t ++ map (fun e => (waiter e.2, Rejected (cancelled_error e.1)))
                   (filter stale (pending t)).
Proof.
  intros t stale. pose proof (run_unique cfg evs) as Hu. fold t in Hu.
  unfold unique_ids, getPendingRequestIds in Hu.
  destruct (cancel_each (filter stale (pending t)) t) as [H1 H2].
  - done.
  - eapply sublist_NoDup; [exact Hu |]. apply fmap_sublist, sublist_filter.
  - intros e [_ He]%list_elem_of_filter. done.
  - unfold cleanupStaleRequests. fold stale. rewrite H1, H2. split; [| done].
    apply filter_ext_in. intros e He. split.
    + intros Hn Hs. apply Hn.
      apply (list_elem_of_fmap_2 fst), list_elem_of_filter. done.
    + intros Hn (e' & Hk & [Hs He']%list_elem_of_filter)%list_elem_of_fmap.
      by rewrite (keys_determine _ e e' Hu He He' Hk) in Hn.
Qed.

(** *** The theorems at a run *)

Definition pong (id : json) : json :=
  JObj [("jsonrpc", JStr "2.0"); ("id", id); ("result", JStr "pong")].

(** Two requests are tracked, and the first is answered. *)
Definition trace0 : list event :=
  [EvTrack (ping (JNum 7)) None None 100;
   EvTrack (ping (JNum 8)) None None 110;
   EvResponse (pong (JNum 7)) 150].

Example run_trace0 :
  getPendingRequestIds (run cfg0 trace0) = [JNum 8] /\
  timers (run cfg0 trace0) = [(1%nat, (JNum 8, 30000))] /\
  settled (run cfg0 trace0) = [(0%nat, Resolved (pong (JNum 7)))].
Proof. repeat split; reflexivity. Qed.

Lemma each_promise_settled_at_most_once_witness :
  forallb atomic trace0 = true /\
  NoDup (map fst (settled (run cfg0 trace0))).
Proof.
  split; [reflexivity |].
  exact (proj1 (each_promise_settled_at_most_once cfg0 trace0 eq_refl)).
Defined.

Lemma armed_timers_are_those_of_pending_witness :
  forallb atomic trace0 = true /\
  length (timers (run cfg0 trace0)) = getPendingCount (run cfg0 trace0).
Proof.
  split; [reflexivity |].
  exact (proj2 (proj2 (proj2 (armed_timers_are_those_of_pending cfg0 trace0 eq_refl)))).
Defined.

Lemma expiry_rejects_the_request_witness :
  forallb atomic trace0 = true /\
  (1%nat, (JNum 8, 30000)) ∈ timers (run cfg0 trace0) /\
  exists pr,
    getPendingRequest (run cfg0 trace0) (JNum 8) = Some pr /\
    getPendingRequest (step (run cfg0 trace0) (EvTimer 1)) (JNum 8) = None.
Proof.
  split; [reflexivity |].
  assert (Hin : (1%nat, (JNum 8, 30000)) ∈ timers (run cfg0 trace0)) by left.
  split; [exact Hin |].
  destruct (expiry_rejects_the_request cfg0 trace0 1%nat (JNum 8) 30000 eq_refl Hin)
    as (pr & Hget & Hgone & _).
  exists pr. split; [exact Hget | exact Hgone].
Defined.

Lemma cancelAll_rejects_everyone_witness :
  forallb atomic trace0 = true /\
  (cancelAllRequests (run cfg0 trace0)).1 = getPendingCount (run cfg0 trace0) /\
  timers (shutdown (run cfg0 trace0)) = [].
Proof.
  split; [reflexivity |].
  destruct (cancelAll_rejects_everyone cfg0 trace0 eq_refl)
    as ((Hn & _) & (_ & Ht & _) & _).
  split; [exact Hn | exact Ht].
Defined.

Lemma response_settles_its_request_witness :
  forallb atomic trace0 = true /\
  prop "id" (pong (JNum 8)) = Some (JNum 8) /\
  getPendingRequest (run cfg0 trace0) (JNum 8)
  = Some (mkPending (JNum 8) (JStr "ping") 110 1 1 0 3 1) /\
  (handleResponse (run cfg0 trace0) (pong (JNum 8)) 200).1 = true /\
  forall h delay,
    (h, (JNum 8, delay)) ∉ timers (handleResponse (run cfg0 trace0) (pong (JNum 8)) 200).2.
Proof.
  split; [reflexivity |]. split; [reflexivity |]. split; [reflexivity |].
  destruct (response_settles_its_request cfg0 trace0 (pong (JNum 8)) (JNum 8)
              (mkPending (JNum 8) (JStr "ping") 110 1 1 0 3 1) 200
              eq_refl eq_refl eq_refl) as (Htrue & _ & _ & Htimers & _).
  split; [exact Htrue | exact Htimers].
Defined.

Lemma pending_gauge_counts_pending_witness :
  enableMetrics cfg0 = true /\
  pendingRequests (getMetrics (run cfg0 trace0))
  = Z.of_nat (getPendingCount (run cfg0 trace0)).
Proof.
  split; [reflexivity |].
  exact (proj2 (pending_gauge_counts_pending cfg0 trace0 eq_refl) eq_refl).
Defined.

Lemma retries_stay_within_maxRetries_witness :
  getPendingRequest (run cfg0 trace0) (JNum 8)
  = Some (mkPending (JNum 8) (JStr "ping") 110 1 1 0 3 1) /\
  0 <= 0 <= Z.max 0 3.
Proof.
  split; [reflexivity |].
  exact (retries_stay_within_maxRetries cfg0 trace0 (JNum 8)
           (mkPending (JNum 8) (JStr "ping") 110 1 1 0 3 1) eq_refl).
Defined.

(** Why the runs of X1 leave out what happens during the [await] of a
    retry: when the response arrives while the re-send is still awaited and
    the re-send then fails, [retryRequest] rejects the promise that
    [handleResponse] has resolved. *)
Example settled_again_when_interleaved :
  let t1 := step (new_tracker cfg0) (EvTrack (ping (JNum 7)) None None 100) in
  let (started, t2) := retryRequest_begin t1 (ping (JNum 7)) 120 in
  let t3 := step t2 (EvResponse (pong (JNum 7)) 150) in
  match started with
  | Ok pendingRequest =>
      settled (step t3 (EvRetrySent (JNum 7) pendingRequest (Throw (error "closed"))))
      = [(0%nat, Resolved (pong (JNum 7))); (0%nat, Rejected (error "closed"))]
  | Throw _ => False
  end.
Proof. reflexivity. Qed.

(** Why the gauge of X6 is only a bound with retries: a retry that gives up
    drops the request and leaves the gauge as it was. *)
Example gauge_drifts_after_a_retry :
  let t := run (mkConfig 30000 1 60000 true)
             [EvTrack (ping (JNum 7)) None None 100;
              EvRetry (ping (JNum 7)) 120 (fun _ => Ok tt);
              EvRetry (ping (JNum 7)) 140 (fun _ => Ok tt)] in
  getPendingCount t = 0%nat /\ pendingRequests (getMetrics t) = 1.
Proof. split; reflexivity. Qed.

End TrackerRuns.

(** ** The router: patterns and chains *)

Module RouterChains.
Import Router RouterFacts.

(** *** The pattern language of string routes *)

(** No character of [s] is [c]. *)
Fixpoint lacks (c : ascii) (s : string) : bool :=
  match s with
  | EmptyString => true
  | String c' s' => negb (Ascii.eqb c' c) && lacks c s'
  end.

Lemma replace_stars_app s1 s2 :
  replace_stars (s1 +:+ s2) = replace_stars s1 +:+ replace_stars s2.
Proof.
  induction s1 as [| c s1 IH]; [done |]. rewrite JsonRoundTrip.append_cons. simpl.
  destruct (Ascii.eqb c "*"); by rewrite IH.
Qed.

Lemma replace_stars_lacks s : lacks "*" s = true -> replace_stars s = s.
Proof.
  induction s as [| c s IH]; [done |]. simpl.
  intros [Hc Hs]%andb_prop. apply negb_true_iff in Hc. rewrite Hc. by rewrite IH.
Qed.

Lemma replace_placeholders_literal lit rest :
  lacks "{" lit = true ->
  replace_placeholders (lit +:+ rest) None = lit +:+ replace_placeholders rest None.
Proof.
  induction lit as [| c lit IH]; [done |]. simpl.
  intros [Hc Hs]%andb_prop. apply negb_true_iff in Hc.
  rewrite JsonRoundTrip.append_cons. simpl. rewrite Hc. by rewrite IH.
Qed.

Lemma replace_placeholders_name acc name rest :
  lacks "}" name = true ->
  replace_placeholders (name +:+ String "}" rest) (Some acc)
  = match acc +:+ name with
    | EmptyString => String "{" (String "}" (replace_placeholders rest None))
    | full => "(?<" +:+ full +:+ ">[^/]+)" +:+ replace_placeholders rest None
    end.
Proof.
  revert acc. induction name as [| c name IH]; intros acc Hn.
  - replace (acc +:+ EmptyString) with acc.
    + simpl. by destruct acc.
    + clear. induction acc as [| c acc IH]; [done |]. by rewrite JsonRoundTrip.append_cons, <- IH.
  - simpl in Hn. apply andb_prop in Hn as [Hc Hn]. apply negb_true_iff in Hc.
    rewrite JsonRoundTrip.append_cons. simpl. rewrite Hc, IH by done.
    by rewrite JsonRoundTrip.append_assoc.
Qed.

(** X9: how a string pattern is compiled.  Text without braces and stars
    stands for itself; a star becomes [.*]; a placeholder [{name}] becomes
    the named group [(?<name>[^/]+)], which matches one path segment. *)
Theorem regexPattern_compiles_segments :
  (forall lit, lacks "{" lit = true -> lacks "*" lit = true -> regexPattern lit = lit) /\
  (forall lit rest,
     lacks "{" lit = true -> lacks "*" lit = true ->
     regexPattern (lit +:+ "*" +:+ rest) = lit +:+ ".*" +:+ regexPattern rest) /\
  (forall lit c name rest,
     lacks "{" lit = true -> lacks "*" lit = true ->
     lacks "}" (String c name) = true -> lacks "*" (String c name) = true ->
     regexPattern (lit +:+ "{" +:+ String c name +:+ "}" +:+ rest)
     = lit +:+ "(?<" +:+ String c name +:+ ">[^/]+)" +:+ regexPattern rest).
Proof.
  unfold regexPattern. split; [| split].
  - intros lit Hb Hs.
    rewrite <- (replace_stars_lacks lit Hs) at 2. f_equal.
    replace lit with (lit +:+ EmptyString) at 1.
    + rewrite replace_placeholders_literal by done. simpl.
      clear. induction lit as [| c lit IH]; [done |]. by rewrite JsonRoundTrip.append_cons, IH.
    + clear. induction lit as [| c lit IH]; [done |]. by rewrite JsonRoundTrip.append_cons, IH.
  - intros lit rest Hb Hs.
    rewrite replace_placeholders_literal by done.
    rewrite replace_stars_app, (replace_stars_lacks lit Hs). done.
  - intros lit c name rest Hb Hs Hn Hns.
    rewrite replace_placeholders_literal by done.
    rewrite replace_stars_app, (replace_stars_lacks lit Hs). f_equal.
    change ("{" +:+ String c name +:+ "}" +:+ rest)
      with (String "{" (String c name +:+ String "}" rest)).
    cbn [replace_placeholders]. change (Ascii.eqb "{" "{") with true. cbv iota.
    rewrite (replace_placeholders_name EmptyString (String c name) rest Hn).
    change (EmptyString +:+ String c name) with (String c name). cbv iota.
    rewrite !replace_stars_app, (replace_stars_lacks _ Hns). done.
Qed.

Lemma regexPattern_compiles_segments_witness :
  regexPattern "tools/{tool}/execute" = "tools/(?<tool>[^/]+)/execute".
Proof.
  destruct regexPattern_compiles_segments as (Hlit & _ & Hname).
  pose proof (Hname "tools/" "t"%char "ool" "/execute" eq_refl eq_refl eq_refl eq_refl)
    as H.
  rewrite (Hlit "/execute" eq_refl eq_refl) in H. exact H.
Defined.

(** *** Chains *)

(** A middleware that awaits [next()] once and settles as [next()] did:
    the built-in [metrics], and [auth] on a message it accepts. *)
Definition passes_on (p : chain_prog) : Prop :=
  exists k, p = AwaitNext k /\ k (Ok tt) = Resolve /\ forall e, k (Throw e) = Reject e.

Lemma passes_on_awaits_next_once p : passes_on p -> awaits_next_once p.
Proof.
  intros (k & -> & Hok & Hthrow). exists k. split; [done |]. split; [done |].
  intros e. right. eauto.
Qed.

Lemma auth_passes_on validateFn message :
  validateFn message = true -> passes_on (execute (auth validateFn) message).
Proof.
  intros H. unfold auth. simpl. rewrite H. simpl.
  eexists. split; [reflexivity |]. split; [reflexivity |]. done.
Qed.

Lemma metrics_passes_on message : passes_on (execute metrics message).
Proof. eexists. split; [reflexivity |]. split; [reflexivity |]. done. Qed.

(** The state [s] with [d0] delivered before it. *)
Definition after (d0 : list (string * json)) (s : chain_state) : chain_state :=
  mkChain (index s) (d0 ++ deliveries s).

Section Chain.
Variable message : json.
Variable mws : list RouteMiddleware.
Variable finalHandler : chain_state -> outcome unit * chain_state.

(** When the final handler delivers nothing, nothing is delivered,
    whatever the middleware do. *)
Lemma next_keeps_deliveries fuel s res s' :
  (forall s0, deliveries (finalHandler s0).2 = deliveries s0) ->
  next fuel message mws finalHandler s = Some (res, s') ->
  deliveries s' = deliveries s.
Proof.
  intros Hfinal. revert s res s'. induction fuel as [| fuel IH]; intros s res s'; simpl.
  - destruct (length mws <=? index s)%nat; [| done].
    intros Heq. injection Heq as Heq. by rewrite <- (Hfinal s), Heq.
  - destruct (length mws <=? index s)%nat.
    { intros Heq. injection Heq as Heq. by rewrite <- (Hfinal s), Heq. }
    destruct (mws !! index s) as [mw |]; [| done].
    assert (Hrun : forall p s1 res1 s1',
              run_prog (next fuel message mws finalHandler) p s1 = Some (res1, s1') ->
              deliveries s1' = deliveries s1).
    { induction p as [| e | k IHk]; intros s1 res1 s1'; simpl.
      - intros Heq. by injection Heq as _ <-.
      - intros Heq. by injection Heq as _ <-.
      - destruct (next fuel message mws finalHandler s1) as [[r2 s2] |] eqn:E; [| done].
        intros Hk. apply IHk in Hk. apply IH in E. congruence. }
    intros Hk. by apply Hrun in Hk.
Qed.

(** What the chain delivers does not depend on what was delivered before. *)
Lemma next_after d0 fuel s :
  (forall s0, finalHandler (after d0 s0)
              = ((finalHandler s0).1, after d0 (finalHandler s0).2)) ->
  next fuel message mws finalHandler (after d0 s)
  = match next fuel message mws finalHandler s with
    | Some (res, s') => Some (res, after d0 s')
    | None => None
    end.
Proof.
  intros Hfinal. revert s. induction fuel as [| fuel IH]; intros s; simpl.
  - destruct (length mws <=? index s)%nat; [| done].
    rewrite Hfinal. by destruct (finalHandler s).
  - destruct (length mws <=? index s)%nat.
    { rewrite Hfinal. by destruct (finalHandler s). }
    destruct (mws !! index s) as [mw |]; [| done].
    change (mkChain (S (index s)) (d0 ++ deliveries s))
      with (after d0 (mkChain (S (index s)) (deliveries s))).
    generalize (mkChain (S (index s)) (deliveries s)).
    induction (execute mw message) as [| e | k IHk]; intros s1; simpl; [done | done |].
    rewrite IH. destruct (next fuel message mws finalHandler s1) as [[r2 s2] |]; [| done].
    apply IHk.
Qed.

(** A chain of middleware that pass on is its final handler. *)
Lemma next_passes_on fuel i delivered :
  (forall mw, mw ∈ mws -> passes_on (execute mw message)) ->
  (length mws - i <= fuel)%nat ->
  next fuel message mws finalHandler (mkChain i delivered)
  = Some (finalHandler (mkChain (max i (length mws)) delivered)).
Proof.
  intros Hpass. revert i. induction fuel as [| fuel IH]; intros i Hf; simpl.
  - destruct (Nat.leb_spec (length mws) i); [| lia]. by rewrite Nat.max_l by lia.
  - destruct (Nat.leb_spec (length mws) i); [by rewrite Nat.max_l by lia |].
    destruct (mws !! i) as [mw |] eqn:El.
    2: { apply lookup_ge_None in El. lia. }
    destruct (Hpass mw) as (k & -> & Hok & Hthrow).
    { apply list_elem_of_lookup. eauto. }
    simpl. rewrite IH by lia. rewrite Nat.max_r by lia. rewrite (Nat.max_r i) by lia.
    destruct (finalHandler (mkChain (length mws) delivered)) as [[[] | e] s']; simpl.
    + by rewrite Hok.
    + by rewrite Hthrow.
Qed.

(** A middleware that rejects without calling [next()] ends the chain
    there, when those before it await [next()] once. *)
Lemma next_blocked pre mw post e fuel i delivered :
  mws = pre ++ mw :: post ->
  (forall x, x ∈ pre -> awaits_next_once (execute x message)) ->
  execute mw message = Reject e ->
  (i <= length pre)%nat -> (S (length pre) - i <= fuel)%nat ->
  exists res,
    next fuel message mws finalHandler (mkChain i delivered)
    = Some (res, mkChain (S (length pre)) delivered) /\
    ((forall x, x ∈ pre -> passes_on (execute x message)) -> res = Throw e).
Proof.
  intros -> Hpre Hmw. revert i. induction fuel as [| fuel IH]; intros i Hi Hf; [lia |].
  simpl. rewrite length_app. simpl.
  destruct (Nat.leb_spec (length pre + S (length post)) i); [lia |].
  destruct (decide (i = length pre)) as [-> | Hne].
  - rewrite list_lookup_middle by done. rewrite Hmw. simpl. eauto.
  - rewrite lookup_app_l by lia.
    destruct (pre !! i) as [x |] eqn:El.
    2: { apply lookup_ge_None in El. lia. }
    assert (Hx : x ∈ pre) by (apply list_elem_of_lookup; eauto).
    destruct (Hpre x Hx) as (k & Hk & Hok & Hthrow). rewrite Hk. simpl.
    destruct (IH (S i)) as (res & -> & Hres); [lia | lia |].
    destruct res as [[] | e0].
    + rewrite Hok. simpl. eexists. split; [reflexivity |].
      intros Hpass. by specialize (Hres Hpass).
    + destruct (Hthrow e0) as [Hr | [e' Hr]]; rewrite Hr; simpl.
      * eexists. split; [reflexivity |]. intros Hpass.
        destruct (Hpass x Hx) as (k' & Hk' & _ & Hthrow').
        rewrite Hk in Hk'. injection Hk' as ->. rewrite Hthrow' in Hr. done.
      * eexists. split; [reflexivity |]. intros Hpass.
        destruct (Hpass x Hx) as (k' & Hk' & _ & Hthrow').
        rewrite Hk in Hk'. injection Hk' as ->. rewrite Hthrow' in Hr.
        injection Hr as <-. specialize (Hres Hpass). congruence.
Qed.
End Chain.

Section Engine.
Variable RegExp : Type.
Variable RegExp_new : string -> option RegExp.
Variable RegExp_match : string -> RegExp -> option (list (string * string)).

Abbreviation MessageRouter := (MessageRouter RegExp).
Abbreviation RouteMatch := (RouteMatch RegExp).
Abbreviation route := (route RegExp_new RegExp_match).
Abbreviation findMatches := (findMatches RegExp_new RegExp_match).
Abbreviation processed := (processed RegExp).

Lemma sendToDestination_index (r : MessageRouter) message destinationName s :
  index (sendToDestination r message destinationName s).2 = index s.
Proof. unfold sendToDestination. by destruct (destinations r !! destinationName). Qed.

Lemma processRoute_returns (r : MessageRouter) message (m : RouteMatch) delivered :
  is_Some (processRoute r message m delivered).
Proof.
  unfold processRoute.
  destruct (applyTransformers _ _) as [message' | e]; [| eauto].
  unfold executeMiddlewareChain.
  destruct (next_returns message' (globalMiddleware r ++ middleware (route_of m))
              (sendToDestination r message' (destination (route_of m)))
              (sendToDestination_index r message' _)
              (length (globalMiddleware r ++ middleware (route_of m)))
              (mkChain 0 delivered))
    as (res & s' & -> & _); [simpl; lia | eauto].
Qed.

(** X10: a route whose middleware chain holds a middleware that rejects
    the message without calling [next()] - [auth] on a message it does not
    accept - delivers nothing, provided the middleware before it in the
    chain await [next()] once; and when those pass on what [next()] gave
    them, the route fails with the error of the rejecting middleware. *)
Theorem rejecting_middleware_blocks_delivery (r : MessageRouter) message
    (m : RouteMatch) pre mw post e delivered :
  is_ok (applyTransformers message (transformers (route_of m))) = true ->
  globalMiddleware r ++ middleware (route_of m) = pre ++ mw :: post ->
  (forall x, x ∈ pre -> awaits_next_once (execute x (processed message m))) ->
  execute mw (processed message m) = Reject e ->
  exists res,
    processRoute r message m delivered = Some (res, delivered) /\
    ((forall x, x ∈ pre -> passes_on (execute x (processed message m))) ->
     res = Throw e).
Proof.
  unfold processRoute, RouterFacts.processed. intros Ht Hmws Hpre Hmw.
  destruct (applyTransformers message (transformers (route_of m)))
    as [message' | e0]; [| discriminate].
  unfold executeMiddlewareChain.
  destruct (next_blocked message' _ (sendToDestination r message' (destination (route_of m)))
              pre mw post e (length (globalMiddleware r ++ middleware (route_of m)))
              0 delivered Hmws Hpre Hmw)
    as (res & -> & Hres); [lia | rewrite Hmws, length_app; simpl; lia |].
  eauto.
Qed.

(** X11: a route whose destination is not registered delivers nothing,
    whatever its transformers and middleware do; and when the transformers
    succeed and the middleware pass on what [next()] gave them, the route
    fails with the error that the destination was not found. *)
Theorem unregistered_destination_gets_nothing (r : MessageRouter) message
    (m : RouteMatch) delivered :
  destinations r !! destination (route_of m) = None ->
  exists res,
    processRoute r message m delivered = Some (res, delivered) /\
    (is_ok (applyTransformers message (transformers (route_of m))) = true ->
     (forall mw, mw ∈ globalMiddleware r ++ middleware (route_of m) ->
                 passes_on (execute mw (processed message m))) ->
     res = Throw (not_found (destination (route_of m)))).
Proof.
  intros Hd. destruct (processRoute_returns r message m delivered) as [[res d] Hp].
  exists res. revert Hp. unfold processRoute, RouterFacts.processed.
  destruct (applyTransformers message (transformers (route_of m))) as [message' | e0].
  2: { intros [= <- <-]. done. }
  unfold executeMiddlewareChain. intros Hp. split.
  - destruct (next _ _ _ _ _) as [[res' s'] |] eqn:E; [| done].
    injection Hp as -> <-. apply next_keeps_deliveries in E; [by rewrite E |].
    intros s0. unfold sendToDestination. by rewrite Hd.
  - intros _ Hpass. rewrite next_passes_on in Hp by (done || lia).
    unfold sendToDestination in Hp. rewrite Hd in Hp. simpl in Hp. congruence.
Qed.

(** What a matched route does on its own. *)
Definition alone (r : MessageRouter) (message : json) (m : RouteMatch)
  : outcome unit * list (string * json) :=
  default (Ok tt, []) (processRoute r message m []).

Lemma processRoute_alone (r : MessageRouter) message (m : RouteMatch) delivered :
  processRoute r message m delivered
  = Some ((alone r message m).1, delivered ++ (alone r message m).2).
Proof.
  unfold alone. destruct (processRoute_returns r message m []) as [[res d] Hp].
  rewrite Hp. simpl. revert Hp. unfold processRoute.
  destruct (applyTransformers message (transformers (route_of m))) as [message' | e0].
  2: { intros [= <- <-]. by rewrite app_nil_r. }
  unfold executeMiddlewareChain.
  replace (mkChain 0 delivered) with (after delivered (mkChain 0 []))
    by (unfold after; simpl; by rewrite app_nil_r).
  rewrite next_after.
  - destruct (next _ _ _ _ _) as [[res' s'] |]; [| done]. by intros [= <- <-].
  - intros s0. unfold sendToDestination, after.
    destruct (destinations r !! destination (route_of m)); simpl; [| done].
    by rewrite app_assoc.
Qed.

Lemma processRoutes_alone (r : MessageRouter) message (ms : list RouteMatch) delivered :
  exists res,
    processRoutes r message ms delivered
    = Some (res, delivered ++ concat (map (fun m => (alone r message m).2) ms)) /\
    (res = Ok tt <-> forall m, m ∈ ms -> (alone r message m).1 = Ok tt).
Proof.
  revert delivered. induction ms as [| m ms IH]; intros delivered; simpl.
  - rewrite app_nil_r. eexists. split; [reflexivity |]. split; [| done].
    intros _ m Hm. by apply elem_of_nil in Hm.
  - rewrite processRoute_alone.
    destruct (IH (delivered ++ (alone r message m).2)) as (res' & -> & Hres').
    rewrite <- app_assoc. eexists. split; [reflexivity |].
    destruct (alone r message m).1 as [[] | e] eqn:E.
    + rewrite Hres'. split.
      * intros H m' [-> | Hm']%elem_of_cons; [done | by apply H].
      * intros H m' Hm'. apply H. by right.
    + split; [done |]. intros H. specialize (H m). rewrite E in H.
      discriminate H. left.
Qed.


End Engine.

(** *** The theorems at routers *)

Definition deny : RouteMiddleware := auth (fun _ => false).

Definition guarded : RouteConfig string :=
  mkRoute (PString "ping") "backend" [] [metrics; deny].

Lemma rejecting_middleware_blocks_delivery_witness :
  exists res,
    processRoute (registerDestination (addRoute new_router guarded) "backend" always_ok)
      ping (mkMatch guarded []) []
    = Some (res, []) /\
    res = Throw (error "Authentication failed").
Proof.
  destruct (rejecting_middleware_blocks_delivery string
              (registerDestination (addRoute new_router guarded) "backend" always_ok)
              ping (mkMatch guarded []) [metrics] deny [] (error "Authentication failed") [])
    as (res & Hres & Herr).
  - reflexivity.
  - reflexivity.
  - intros x Hx. apply list_elem_of_singleton in Hx as ->. apply metrics_awaits_next_once.
  - reflexivity.
  - exists res. split; [exact Hres |]. apply Herr.
    intros x Hx. apply list_elem_of_singleton in Hx as ->. apply metrics_passes_on.
Defined.

(** Why X10 asks the middleware before the rejecting one to call [next()]
    once: the index of the chain is shared, so a second call of [next()] by
    a middleware goes on behind the one that rejected, and the handler is
    reached. *)
Example second_next_passes_the_guard :
  Router.route literal_new literal_match
    (registerDestination
       (addRoute new_router (mkRoute (PString "ping") "backend" [] [twice; deny]))
       "backend" always_ok)
    ping
  = Some (Ok tt, [("backend", ping)]).
Proof. reflexivity. Qed.

Definition astray : RouteConfig string := mkRoute (PString "ping") "nowhere" [] [metrics].

Lemma unregistered_destination_gets_nothing_witness :
  exists res,
    processRoute (addRoute new_router astray) ping (mkMatch astray []) [] = Some (res, []) /\
    res = Throw (error "Destination 'nowhere' not found").
Proof.
  destruct (unregistered_destination_gets_nothing string (addRoute new_router astray)
              ping (mkMatch astray []) [])
    as (res & Hres & Herr).
  - reflexivity.
  - exists res. split; [exact Hres |]. apply Herr; [reflexivity |].
    intros x Hx. apply list_elem_of_singleton in Hx as ->. apply metrics_passes_on.
Defined.

Definition failing : MessageTransformer :=
  mkTransformer "failing" (fun _ => Throw (error "no")).

Definition broken : RouteConfig string := mkRoute (PString "ping") "audit" [failing] [].

Definition plain : RouteConfig string := mkRoute (PString "ping") "backend" [] [metrics].

Definition two_routes : MessageRouter string :=
  registerDestination
    (registerDestination (addRoutes new_router [broken; plain]) "backend" always_ok)
    "audit" always_ok.


End RouterChains.

(** ** The rate limiter *)

Module RateLimitFacts.
Import Router RateLimit.

Definition admits (p : chain_prog) : bool :=
  match p with Reject _ => false | _ => true end.

(** The limiter over the messages of a run, each with the time it arrives
    at: the requests let through, by key and time and oldest first, and the
    limiter afterwards. *)
Definition serve_one (acc : list (string * Z) * RateLimit) (c : json * Z)
  : list (string * Z) * RateLimit :=
  let (p, l') := RateLimit.execute acc.2 c.1 c.2 in
  (if admits p then acc.1 ++ [(key_of c.1, c.2)] else acc.1, l').

Definition serve (l : RateLimit) (calls : list (json * Z))
  : list (string * Z) * RateLimit :=
  fold_left serve_one calls ([], l).

(** How many of the requests let through had the key [key] and a time in
    the window of length [w] that ends at [T]. *)
Definition admitted_in (w : Z) (key : string) (T : Z) (adm : list (string * Z)) : nat :=
  length (filter (fun a => a.1 = key /\ T - w < a.2 /\ a.2 <= T) adm).

(** The clock does not run backwards. *)
Fixpoint monotone (ts : list Z) : Prop :=
  match ts with
  | t1 :: ((t2 :: _) as ts') => t1 <= t2 /\ monotone ts'
  | _ => True
  end.

Definition times (key : string) (adm : list (string * Z)) : list Z :=
  map snd (filter (fun a => a.1 = key) adm).

(** What the limiter remembers of the requests let through: all that can
    still count at a time from [lo] on. *)
Record tracks (mx w lo : Z) (l : RateLimit) (adm : list (string * Z)) : Prop := mk_tracks {
  tracks_max : maxRequests l = mx;
  tracks_window : windowMs l = w;
  tracks_recent : forall key x, lo - w <= x ->
    filter (fun t => x < t) (default [] (requests l !! key))
    = filter (fun t => x < t) (times key adm);
  tracks_bound : forall key T, Z.of_nat (admitted_in w key T adm) <= Z.max 0 mx
}.

Lemma times_snoc key adm k t :
  times key (adm ++ [(k, t)]) = times key adm ++ (if decide (k = key) then [t] else []).
Proof.
  unfold times. rewrite filter_app, map_app. f_equal.
  rewrite filter_cons. simpl. by destruct (decide (k = key)).
Qed.

Lemma admitted_in_le w key T now adm :
  now <= T ->
  (admitted_in w key T adm
   <= length (filter (fun t => (now - w < t)%Z) (times key adm)))%nat.
Proof.
  intros Hle. unfold admitted_in, times. induction adm as [| [k t] adm IH]; [done |].
  rewrite !filter_cons. simpl.
  destruct (decide (k = key /\ T - w < t /\ t <= T)) as [(-> & H1 & H2) | Hn].
  - destruct (decide (key = key)); [| done]. simpl. rewrite filter_cons.
    destruct (decide (now - w < t)); [simpl; lia | lia].
  - destruct (decide (k = key)); [| done]. simpl. rewrite filter_cons.
    destruct (decide (now - w < t)); simpl; lia.
Qed.

Lemma tracks_step mx w lo l adm message now :
  tracks mx w lo l adm -> lo <= now ->
  tracks mx w now (serve_one (adm, l) (message, now)).2
    (serve_one (adm, l) (message, now)).1.
Proof.
  intros [Hmx Hw Hrecent Hbound] Hlo. unfold serve_one, RateLimit.execute. simpl.
  rewrite Hmx, Hw.
  set (key := key_of message).
  set (valid := filter (fun time => now - w < time) (default [] (requests l !! key))).
  assert (Hvalid : valid = filter (fun t => now - w < t) (times key adm)).
  { apply Hrecent. lia. }
  destruct (Z.leb_spec mx (Z.of_nat (length valid))) as [Hfull | Hroom]; simpl.
  - split; try done. intros k x Hx. apply Hrecent. lia.
  - split; try done.
    + intros k x Hx. rewrite times_snoc.
      destruct (decide (key = k)) as [<- | Hne].
      * cbn [requests]. rewrite lookup_insert_eq. simpl. rewrite !filter_app. f_equal.
        unfold valid. rewrite list_filter_filter_l by (intros t; lia).
        apply Hrecent. lia.
      * cbn [requests]. rewrite lookup_insert_ne by done. rewrite app_nil_r.
        apply Hrecent. lia.
    + intros k T. unfold admitted_in. rewrite filter_app, length_app, filter_cons. simpl.
      destruct (decide (key = k /\ T - w < now /\ now <= T)) as [(<- & H1 & H2) | Hn].
      * pose proof (admitted_in_le w key T now adm H2) as Hc.
        unfold admitted_in in Hc. rewrite <- Hvalid in Hc. simpl. lia.
      * specialize (Hbound k T). unfold admitted_in in Hbound. simpl. lia.
Qed.

Lemma tracks_serve mx w lo l adm calls :
  tracks mx w lo l adm ->
  monotone (lo :: map snd calls) ->
  exists lo', tracks mx w lo' (fold_left serve_one calls (adm, l)).2
                (fold_left serve_one calls (adm, l)).1.
Proof.
  revert lo l adm. induction calls as [| [message now] calls IH]; intros lo l adm H Hs.
  - by exists lo.
  - cbn [map snd monotone] in Hs. destruct Hs as [Hlo Hs]. cbn [fold_left].
    pose proof (tracks_step mx w lo l adm message now H Hlo) as H'.
    destruct (serve_one (adm, l) (message, now)) as [adm' l'].
    by apply (IH now).
Qed.

(** X13: the rate limiter keeps its promise when the clock does not run
    backwards: of the requests with one key (method and id) that it lets
    through, at most [maxRequests] have their times in any one window of
    length [windowMs]. *)
Theorem rateLimit_bounds_every_window maxRequests windowMs calls key T :
  monotone (map snd calls) ->
  Z.of_nat (admitted_in windowMs key T (serve (rateLimit maxRequests windowMs) calls).1)
  <= Z.max 0 maxRequests.
Proof.
  intros Hs. unfold serve.
  assert (H0 : forall lo, tracks maxRequests windowMs lo (rateLimit maxRequests windowMs) []).
  { intros lo. split; try done. unfold admitted_in. simpl. lia. }
  destruct calls as [| [message now] calls].
  - unfold admitted_in. simpl. lia.
  - destruct (tracks_serve maxRequests windowMs now (rateLimit maxRequests windowMs) []
                ((message, now) :: calls) (H0 now)) as [lo' H'].
    + cbn [map snd monotone] in *. split; [lia | done].
    + apply (tracks_bound _ _ _ _ _ H').
Qed.

Definition call (id now : Z) : json * Z :=
  (JObj [("jsonrpc", JStr "2.0"); ("id", JNum id); ("method", JStr "ping")], now).

(** Two requests a second: the third within the second is refused, and
    the next one passes once the first has left the window. *)
Example rateLimit_run :
  (serve (rateLimit 2 1000) [call 1 0; call 1 400; call 1 900; call 1 1000; call 2 1000]).1
  = [("ping_1", 0); ("ping_1", 400); ("ping_1", 1000); ("ping_2", 1000)].
Proof. reflexivity. Qed.

Lemma rateLimit_bounds_every_window_witness :
  monotone (map snd [call 1 0; call 1 400; call 1 900; call 1 1000]) /\
  Z.of_nat (admitted_in 1000 "ping_1" 1200
              (serve (rateLimit 2 1000) [call 1 0; call 1 400; call 1 900; call 1 1000]).1)
  <= Z.max 0 2.
Proof.
  assert (Hs : monotone (map snd [call 1 0; call 1 400; call 1 900; call 1 1000])).
  { simpl. lia. }
  split; [exact Hs |].
  exact (rateLimit_bounds_every_window 2 1000 _ "ping_1" 1200 Hs).
Defined.

End RateLimitFacts.

(** ** The subprocess pool: round robin and replacements *)

Module PoolRuns.
Import Pool PoolFacts.

(** *** Round robin *)

(** Every active instance is in the map and connected, and the set of
    active instances lists none twice. *)
Definition healthy (p : ProcessPool) : Prop :=
  NoDup (activeInstances p) /\
  forall id, id ∈ activeInstances p ->
             exists c, instances p !! id = Some c /\ isConnected c = true.

(** [send] for each message in turn: the outcomes, and the pool
    afterwards. *)
Fixpoint send_all (p : ProcessPool) (messages : list json)
  : list (outcome unit) * ProcessPool :=
  match messages with
  | [] => ([], p)
  | message :: rest =>
      let (r, p') := send p message in
      let (rs, p'') := send_all p' rest in
      (r :: rs, p'')
  end.

(** The lines that go to [id] when the messages are handed out in turn
    over [active], beginning at the index [rr]. *)
Fixpoint share (active : list string) (rr : nat) (id : string) (messages : list json)
  : list string :=
  match messages with
  | [] => []
  | message :: rest =>
      (if decide (active !! (rr mod length active)%nat = Some id) then [line message] else [])
      ++ share active (S rr) id rest
  end.

Lemma send_healthy p message :
  healthy p -> activeInstances p <> [] ->
  exists id c,
    activeInstances p !! (roundRobinIndex p mod length (activeInstances p))%nat = Some id /\
    instances p !! id = Some c /\
    send p message
    = (Ok tt,
       mkPool (poolConfig p)
         (<[id := mkContainer (process c) (connected c) (stdin c ++ [line message])
                    (messagesSent c + 1)]> (instances p))
         (activeInstances p) (S (roundRobinIndex p))).
Proof.
  intros [Hnd Hh] Hne. unfold send.
  destruct (activeInstances p) as [| a0 active] eqn:Ea; [done |]. rewrite <- Ea in *.
  assert (Hlen : (0 < length (activeInstances p))%nat) by (rewrite Ea; simpl; lia).
  destruct (Nat.eqb_spec (length (activeInstances p)) 0); [lia |].
  destruct (activeInstances p !! (roundRobinIndex p mod length (activeInstances p))%nat)
    as [id |] eqn:El.
  2: { apply lookup_ge_None in El.
       pose proof (Nat.mod_upper_bound (roundRobinIndex p) (length (activeInstances p))).
       lia. }
  destruct (Hh id) as (c & Hc & Hconn).
  { apply list_elem_of_lookup. eauto. }
  exists id, c. split; [done |]. split; [done |]. simpl. rewrite Hc.
  unfold isConnected in Hconn. apply andb_prop in Hconn as [H1 H2].
  unfold container_send. rewrite H1, H2. simpl. done.
Qed.

Lemma send_all_share p messages :
  healthy p -> activeInstances p <> [] ->
  (send_all p messages).1 = map (fun _ => Ok tt) messages /\
  activeInstances (send_all p messages).2 = activeInstances p /\
  roundRobinIndex (send_all p messages).2 = (roundRobinIndex p + length messages)%nat /\
  forall id,
    delivered_to (send_all p messages).2 id
    = delivered_to p id ++ share (activeInstances p) (roundRobinIndex p) id messages.
Proof.
  revert p. induction messages as [| message rest IH]; intros p Hh Hne; simpl.
  - repeat split; [lia |]. intros id. by rewrite app_nil_r.
  - destruct (send_healthy p message Hh Hne) as (id0 & c & Hl & Hc & ->).
    set (p' := mkPool _ _ _ _).
    assert (Hh' : healthy p').
    { destruct Hh as [Hnd Hh]. split; [done |]. intros id Hid. simpl.
      destruct (decide (id0 = id)) as [<- | Hn].
      - rewrite lookup_insert_eq. eexists. split; [done |].
        destruct (Hh id0 Hid) as (c0 & Hc0 & Hconn). by assert (c0 = c) as -> by congruence.
      - rewrite lookup_insert_ne by done. by apply Hh. }
    destruct (IH p' Hh' Hne) as (H1 & H2 & H3 & H4).
    destruct (send_all p' rest) as [rs p'']. simpl in *.
    rewrite H1, H2, H3. repeat split; [lia |].
    intros id. rewrite H4. unfold delivered_to at 1. simpl. rewrite Hl.
    rewrite app_assoc. f_equal.
    destruct (decide (id0 = id)) as [<- | Hn].
    + rewrite lookup_insert_eq. simpl. unfold delivered_to. rewrite Hc.
      by destruct (decide (Some id0 = Some id0)).
    + rewrite lookup_insert_ne by done.
      destruct (decide (Some id0 = Some id)); [congruence |]. by rewrite app_nil_r.
Qed.

Lemma mod_shift rr d n :
  (0 < d)%nat -> (d < n)%nat -> ((rr + d) mod n <> rr mod n)%nat.
Proof.
  intros Hd Hn. rewrite <- Nat.Div0.add_mod_idemp_l.
  pose proof (Nat.mod_upper_bound rr n ltac:(lia)) as Hr.
  destruct (le_lt_dec n (rr mod n + d)) as [Hge | Hlt].
  - rewrite <- (Nat.mod_unique (rr mod n + d) n 1 (rr mod n + d - n)); lia.
  - rewrite Nat.mod_small by lia. lia.
Qed.

Lemma share_none active rr id messages :
  (forall j, (j < length messages)%nat ->
             active !! ((rr + j) mod length active)%nat <> Some id) ->
  share active rr id messages = [].
Proof.
  revert rr. induction messages as [| message rest IH]; intros rr H; simpl; [done |].
  destruct (decide (active !! (rr mod length active)%nat = Some id)) as [Heq | _].
  - destruct (H 0%nat); [simpl; lia |]. by rewrite Nat.add_0_r.
  - apply IH. intros j Hj. replace (S rr + j)%nat with (rr + S j)%nat by lia.
    apply H. simpl. lia.
Qed.

Lemma share_one active rr id messages j message :
  NoDup active -> (length messages <= length active)%nat ->
  messages !! j = Some message ->
  active !! ((rr + j) mod length active)%nat = Some id ->
  share active rr id messages = [line message].
Proof.
  intros Hnd. revert rr j. induction messages as [| m0 rest IH]; intros rr j Hlen Hj Hid.
  - done.
  - simpl in Hlen. simpl.
    assert (Hlt : forall x, (x mod length active < length active)%nat).
    { intros x. apply Nat.mod_upper_bound. lia. }
    destruct j as [| j]; simpl in Hj.
    + injection Hj as ->. rewrite Nat.add_0_r in Hid.
      destruct (decide (active !! (rr mod length active)%nat = Some id)); [| done].
      rewrite share_none; [done |]. intros j' Hj' Hid'.
      pose proof (NoDup_lookup _ _ _ _ Hnd Hid Hid') as Heq.
      replace (S rr + j')%nat with (rr + S j')%nat in Heq by lia.
      symmetry in Heq.
      destruct (mod_shift rr (S j') (length active)); [lia | lia | exact Heq].
    + destruct (decide (active !! (rr mod length active)%nat = Some id)) as [Heq | _].
      * pose proof (NoDup_lookup _ _ _ _ Hnd Hid Heq) as Hm.
        apply lookup_lt_Some in Hj.
        destruct (mod_shift rr (S j) (length active)); [lia | lia | exact Hm].
      * simpl. apply (IH (S rr) j); [lia | done |].
        by replace (S rr + j)%nat with (rr + S j)%nat by lia.
Qed.

(** X14: round robin over a healthy pool.  Every send resolves, and of as
    many sends in a row as there are active instances no two go to the
    same one: the message of the [j]-th send is written to the instance
    [j] places after the round-robin index, which gets nothing else; the
    active set stays as it is, and the index has advanced by the number of
    sends. *)
Theorem round_robin_spreads_the_load p messages :
  healthy p ->
  (0 < length messages <= length (activeInstances p))%nat ->
  let p' := (send_all p messages).2 in
  (send_all p messages).1 = map (fun _ => Ok tt) messages /\
  activeInstances p' = activeInstances p /\
  roundRobinIndex p' = (roundRobinIndex p + length messages)%nat /\
  (forall j message,
     messages !! j = Some message ->
     exists id,
       activeInstances p
       !! ((roundRobinIndex p + j) mod length (activeInstances p))%nat = Some id /\
       delivered_to p' id = delivered_to p id ++ [line message]) /\
  (forall id,
     (forall j, (j < length messages)%nat ->
                activeInstances p
                !! ((roundRobinIndex p + j) mod length (activeInstances p))%nat
                <> Some id) ->
     delivered_to p' id = delivered_to p id).
Proof.
  intros Hh Hlen p'.
  assert (Hne : activeInstances p <> []).
  { intros E. rewrite E in Hlen. simpl in Hlen. lia. }
  destruct (send_all_share p messages Hh Hne) as (H1 & H2 & H3 & H4). fold p' in H2, H3, H4.
  repeat (split; [done |]). split.
  - intros j message Hj.
    destruct (activeInstances p
              !! ((roundRobinIndex p + j) mod length (activeInstances p))%nat)
      as [id |] eqn:El.
    2: { apply lookup_ge_None in El.
         pose proof (Nat.mod_upper_bound (roundRobinIndex p + j)
                       (length (activeInstances p))). lia. }
    exists id. split; [done |]. rewrite H4. f_equal.
    apply (share_one _ _ _ _ j); [apply Hh | lia | done | done].
  - intros id Hid. rewrite H4, share_none by done. by rewrite app_nil_r.
Qed.

(** *** Replacements *)

(** The id [ensureMinimumInstances] gives its [i]-th replacement. *)
Definition replacement_id (now : Z) (i : nat) : string :=
  "instance-" +:+ string_of_Z now +:+ "-" +:+ string_of_Z (Z.of_nat i).

Lemma string_of_Z_inj a b : string_of_Z a = string_of_Z b -> a = b.
Proof.
  intros H.
  pose proof (JsonRoundTrip.parse_number_string_of_Z a EmptyString I) as Ha.
  pose proof (JsonRoundTrip.parse_number_string_of_Z b EmptyString I) as Hb.
  rewrite H in Ha. congruence.
Qed.

Lemma append_inj_l (s a b : string) : s +:+ a = s +:+ b -> a = b.
Proof.
  induction s as [| c s IH]; [done |].
  change (String c s +:+ a) with (String c (s +:+ a)).
  change (String c s +:+ b) with (String c (s +:+ b)). intros H. injection H as H. auto.
Qed.

Lemma replacement_id_inj now i j : replacement_id now i = replacement_id now j -> i = j.
Proof.
  unfold replacement_id. intros H.
  do 3 apply append_inj_l in H. apply string_of_Z_inj in H. lia.
Qed.

Definition replace_one (now : Z) (starts : list (outcome unit)) (acc : ProcessPool)
  (i : nat) : ProcessPool :=
  (createInstance acc (replacement_id now i) (nth i starts (Ok tt))).2.

Lemma replacements_added now starts (indices : list nat) p :
  NoDup indices ->
  (forall i, i ∈ indices -> is_ok (nth i starts (Ok tt)) = true) ->
  (forall i, i ∈ indices -> replacement_id now i ∉ activeInstances p) ->
  let p' := fold_left (replace_one now starts) indices p in
  activeInstances p' = activeInstances p ++ map (replacement_id now) indices /\
  (forall id, id ∉ map (replacement_id now) indices ->
              instances p' !! id = instances p !! id) /\
  (forall id, id ∈ map (replacement_id now) indices ->
              instances p' !! id = Some (mkContainer true true [] 0)).
Proof.
  revert p. induction indices as [| i indices IH]; intros p Hnd Hok Hfresh; simpl.
  - rewrite app_nil_r. split; [done |]. split; [done |]. intros id Hid.
    by apply elem_of_nil in Hid.
  - apply NoDup_cons in Hnd as [Hi Hnd].
    assert (Hstep : replace_one now starts p i
                    = mkPool (poolConfig p)
                        (<[replacement_id now i := mkContainer true true [] 0]> (instances p))
                        (activeInstances p ++ [replacement_id now i]) (roundRobinIndex p)).
    { unfold replace_one, createInstance.
      specialize (Hok i ltac:(left)). destruct (nth i starts (Ok tt)); [| done].
      unfold with_active, with_instances, set_add. simpl.
      rewrite bool_decide_eq_false_2; [done |]. apply Hfresh. left. }
    rewrite Hstep.
    destruct (IH (mkPool (poolConfig p)
                    (<[replacement_id now i := mkContainer true true [] 0]> (instances p))
                    (activeInstances p ++ [replacement_id now i]) (roundRobinIndex p)))
      as (H1 & H2 & H3); [done | | |].
    + intros j Hj. apply Hok. by right.
    + intros j Hj. simpl. rewrite elem_of_app, list_elem_of_singleton.
      intros [Hin | Heq].
      * revert Hin. apply Hfresh. by right.
      * apply replacement_id_inj in Heq as ->. done.
    + simpl in *. rewrite H1, <- app_assoc. split; [done |]. split.
      * intros id Hid. apply not_elem_of_cons in Hid as [Hne Hid].
        rewrite H2 by done. by rewrite lookup_insert_ne.
      * intros id [-> | Hid]%elem_of_cons; [| by apply H3].
        rewrite H2.
        -- by rewrite lookup_insert_eq.
        -- intros (j & Heq & Hj)%list_elem_of_fmap.
           apply replacement_id_inj in Heq as <-. done.
Qed.

(** X15: [ensureMinimumInstances] brings the pool back to its minimum.
    When the replacement containers start and their ids are not ids of
    active instances, the pool afterwards has the active instances it had
    and the replacements, as many as were missing: the number of active
    instances is the larger of what it was and [minInstances], and a
    healthy pool stays healthy. *)
Theorem ensureMinimumInstances_restores_the_minimum p now starts :
  let needed := (minInstances (poolConfig p) - length (activeInstances p))%nat in
  NoDup (activeInstances p) ->
  (forall i, (i < needed)%nat -> is_ok (nth i starts (Ok tt)) = true) ->
  (forall i, (i < needed)%nat -> replacement_id now i ∉ activeInstances p) ->
  let p' := ensureMinimumInstances p now starts in
  activeInstances p' = activeInstances p ++ map (replacement_id now) (seq 0 needed) /\
  length (activeInstances p')
  = Nat.max (length (activeInstances p)) (minInstances (poolConfig p)) /\
  (healthy p -> healthy p').
Proof.
  intros needed Hnd Hok Hfresh p'.
  destruct (replacements_added now starts (seq 0 needed) p) as (H1 & H2 & H3).
  - apply NoDup_seq.
  - intros i Hi%elem_of_seq. apply Hok. lia.
  - intros i Hi%elem_of_seq. apply Hfresh. lia.
  - change (fold_left (replace_one now starts) (seq 0 needed) p) with p' in *.
    split; [done |]. split.
    + rewrite H1, length_app, length_map, length_seq. unfold needed. lia.
    + intros [_ Hh]. split.
      * rewrite H1. apply NoDup_app. split; [done |]. split.
        -- intros id Hid (i & -> & Hi%elem_of_seq)%list_elem_of_fmap.
           revert Hid. apply Hfresh. lia.
        -- apply NoDup_fmap_2; [| apply NoDup_seq].
           intros i j. apply replacement_id_inj.
      * intros id. rewrite H1, elem_of_app. intros [Hid | Hid].
        -- rewrite H2; [by apply Hh |].
           intros (i & -> & Hi%elem_of_seq)%list_elem_of_fmap.
           revert Hid. apply Hfresh. lia.
        -- rewrite H3 by done. eauto.
Qed.

(** *** The theorems at pools *)

Definition pool3 : ProcessPool :=
  mkPool (mkPoolConfig 5 3 30000 true)
    {["instance-0" := running; "instance-1" := running; "instance-2" := running]}
    ["instance-0"; "instance-1"; "instance-2"] 4.

Definition note (n : Z) : json :=
  JObj [("jsonrpc", JStr "2.0"); ("method", JStr "note"); ("params", JNum n)].

Lemma pool3_healthy : healthy pool3.
Proof.
  split.
  - apply (bool_decide_unpack _). vm_compute. exact I.
  - intros id Hid. simpl in Hid. exists running.
    repeat (apply elem_of_cons in Hid as [-> | Hid]; [by split |]).
    by apply elem_of_nil in Hid.
Qed.

Lemma round_robin_spreads_the_load_witness :
  delivered_to (send_all pool3 [note 1; note 2; note 3]).2 "instance-1" = [line (note 1)] /\
  delivered_to (send_all pool3 [note 1; note 2; note 3]).2 "instance-2" = [line (note 2)] /\
  delivered_to (send_all pool3 [note 1; note 2; note 3]).2 "instance-0" = [line (note 3)].
Proof.
  destruct (round_robin_spreads_the_load pool3 [note 1; note 2; note 3] pool3_healthy)
    as (_ & _ & _ & Hto & _); [simpl; lia |].
  destruct (Hto 0%nat (note 1) eq_refl) as (id1 & Hid1 & H1).
  destruct (Hto 1%nat (note 2) eq_refl) as (id2 & Hid2 & H2).
  destruct (Hto 2%nat (note 3) eq_refl) as (id3 & Hid3 & H3).
  injection Hid1 as <-. injection Hid2 as <-. injection Hid3 as <-.
  split; [exact H1 |]. split; [exact H2 | exact H3].
Defined.

(** One of three instances has gone. *)
Definition pool2 : ProcessPool :=
  mkPool (mkPoolConfig 5 3 30000 true)
    {["instance-0" := running; "instance-2" := running]}
    ["instance-0"; "instance-2"] 4.

Lemma ensureMinimumInstances_restores_the_minimum_witness :
  activeInstances (ensureMinimumInstances pool2 1700 [])
  = ["instance-0"; "instance-2"; "instance-1700-0"].
Proof.
  destruct (ensureMinimumInstances_restores_the_minimum pool2 1700 []) as (H & _).
  - apply (bool_decide_unpack _). vm_compute. exact I.
  - intros i Hi. simpl in Hi. by destruct i.
  - intros i Hi. simpl in Hi. assert (i = 0%nat) as -> by lia.
    apply (bool_decide_unpack _). vm_compute. exact I.
  - exact H.
Defined.

End PoolRuns.

(** ** The reconnection engine: the schedule *)

Module ReconnectionRuns.
Import Reconnection ReconnectionFacts.

(** *** The schedule *)

(** The handler after [n] attempts in a row have failed with [e];
    [random k] is the value [Math.random()] gives attempt [k]. *)
Fixpoint after_failures (h : ReconnectionHandler) (e : Error) (random : Z -> Q) (n : nat)
  : ReconnectionHandler :=
  match n with
  | O => h
  | S n' =>
      timer_fired (after_failures h e random n') (Throw e) (random (Z.of_nat n + 1))
  end.

Lemma after_failures_schedule cfg e random n :
  (Z.of_nat n < maxAttempts cfg) ->
  after_failures (attemptReconnection (new_handler cfg) (random 1)) e random n
  = mkHandler cfg (Z.of_nat n + 1)
      (Some (calculateDelay cfg (Z.of_nat n + 1) (random (Z.of_nat n + 1)))) true
      (repeat (onReconnectFailed e) n).
Proof.
  induction n as [| n IH]; intros Hn.
  - simpl. unfold attemptReconnection. simpl.
    destruct (Z.leb_spec (maxAttempts cfg) 0); [lia | done].
  - cbn [after_failures]. rewrite IH by lia.
    unfold timer_fired, attemptReconnection. simpl.
    destruct (Z.leb_spec (maxAttempts cfg) (Z.of_nat n + 1)); [lia |].
    replace (Z.of_nat n + 1 + 1) with (Z.of_nat (S n) + 1) by lia.
    replace (Z.pos (Pos.of_succ_nat n) + 1) with (Z.of_nat (S n) + 1) by lia.
    by rewrite <- repeat_cons.
Qed.

(** X16: the schedule of a handler whose every attempt fails.  After [n]
    failures, [n] below [maxAttempts], attempt [n + 1] is under way: its
    timer is armed with the delay of attempt [n + 1], and
    [onReconnectFailed] has been called [n] times.  When [maxAttempts]
    attempts have failed the handler gives up: it is no longer
    reconnecting, the counter stands at [maxAttempts], and
    [onMaxAttemptsReached] has been called, once and last. *)
Theorem handler_gives_up_after_maxAttempts cfg e random :
  1 <= maxAttempts cfg ->
  let h0 := attemptReconnection (new_handler cfg) (random 1) in
  (forall n,
     Z.of_nat n < maxAttempts cfg ->
     let h := after_failures h0 e random n in
     getAttempts h = Z.of_nat n + 1 /\
     isAttempting h = true /\
     reconnectTimer h
     = Some (calculateDelay cfg (Z.of_nat n + 1) (random (Z.of_nat n + 1))) /\
     called h = repeat (onReconnectFailed e) n) /\
  (let h := after_failures h0 e random (Z.to_nat (maxAttempts cfg)) in
   getAttempts h = maxAttempts cfg /\
   isAttempting h = false /\
   called h
   = repeat (onReconnectFailed e) (Z.to_nat (maxAttempts cfg)) ++ [onMaxAttemptsReached]).
Proof.
  intros Hmax h0. split.
  - intros n Hn h. unfold h, h0. rewrite after_failures_schedule by done. done.
  - destruct (Z.to_nat (maxAttempts cfg)) as [| n] eqn:En; [lia |].
    cbn [after_failures]. unfold h0. rewrite after_failures_schedule by lia.
    unfold timer_fired, attemptReconnection, getAttempts, isAttempting. simpl.
    destruct (Z.leb_spec (maxAttempts cfg) (Z.of_nat n + 1)); [| lia]. simpl.
    split; [lia |]. split; [done |]. by rewrite <- repeat_cons.
Qed.

Lemma handler_gives_up_after_maxAttempts_witness :
  1 <= maxAttempts (mkConfig 2 1000 60000 (3 # 2) false) /\
  called (after_failures
            (attemptReconnection (new_handler (mkConfig 2 1000 60000 (3 # 2) false)) 0)
            (error "refused") (fun _ => 0%Q) 2)
  = [onReconnectFailed (error "refused"); onReconnectFailed (error "refused");
     onMaxAttemptsReached].
Proof.
  split; [simpl; lia |].
  destruct (handler_gives_up_after_maxAttempts (mkConfig 2 1000 60000 (3 # 2) false)
              (error "refused") (fun _ => 0%Q)) as (_ & _ & _ & H); [simpl; lia |].
  exact H.
Defined.

(** *** The delays *)

Lemma capped_le_maxDelay cfg k : (capped cfg k <= maxDelay cfg)%Q.
Proof. unfold capped. apply Q.le_min_r. Qed.

Lemma capped_grows cfg k :
  (1 <= backoffFactor cfg)%Q -> (0 <= initialDelay cfg)%Q ->
  (capped cfg k <= capped cfg (k + 1))%Q.
Proof.
  intros Hb Hi. unfold capped. apply Q.min_le_compat_r.
  rewrite !(Qmult_comm (initialDelay cfg)). apply Qmult_le_compat_r; [| done].
  apply Qpower_le_compat_l; [lia | done].
Qed.

Lemma capped_nonneg cfg k :
  (0 <= backoffFactor cfg)%Q -> (0 <= initialDelay cfg)%Q -> (0 <= maxDelay cfg)%Q ->
  (0 <= capped cfg k)%Q.
Proof.
  intros Hb Hi Hm. unfold capped. apply Q.min_glb; [| done].
  apply Qmult_le_0_compat; [done |]. by apply Qpower_0_le.
Qed.



End ReconnectionRuns.

(** ** The translator: validation, composition, the common set-up *)

Module TranslatorRuns.
Import Translator TranslatorFacts.

(** *** Validation *)

Lemma apply_rules_strict cfg rs result log out log' :
  enableValidation cfg = true -> throwOnValidationError cfg = true ->
  apply_rules cfg rs result log = (Ok out, log') ->
  (rs = [] /\ out = result) \/ isValidMCPMessage out = true.
Proof.
  intros Hv Ht. revert result log. induction rs as [| rule rest IH]; intros result log; simpl.
  - intros H. injection H as <- _. by left.
  - rewrite Hv, Ht. destruct (transform rule result) as [result' | e]; [| discriminate].
    destruct (isValidMCPMessage result') eqn:E; simpl; [| discriminate].
    intros H. right. destruct (IH _ _ H) as [[_ ->] | Hvalid]; done.
Qed.

(** X18: with validation on and [throwOnValidationError] set, a message
    that [translate] returns is either the message it was given, when no
    rule applies to it, or a message that passes the validation. *)
Theorem strict_translation_gives_valid_messages t message out log :
  enableValidation (config t) = true ->
  throwOnValidationError (config t) = true ->
  translate t message = (Ok out, log) ->
  (List.filter (fun rule => condition rule message) (rules t) = [] /\ out = message) \/
  (List.filter (fun rule => condition rule message) (rules t) <> [] /\
   isValidMCPMessage out = true).
Proof.
  intros Hv Ht. unfold translate.
  destruct (List.filter (fun rule => condition rule message) (rules t))
    as [| rule rest] eqn:E.
  - simpl. intros H. injection H as <- _. by left.
  - cbn [length Nat.eqb]. intros H. right. split; [done |].
    by destruct (apply_rules_strict _ _ _ _ _ _ Hv Ht H) as [[? _] | Hvalid].
Qed.

(** *** Composition *)

Lemma apply_rules_lenient cfg rs (f : TranslationRule -> json -> json) result log :
  enableValidation cfg && throwOnValidationError cfg = false ->
  (forall rule, In rule rs -> forall m, transform rule m = Ok (f rule m)) ->
  (apply_rules cfg rs result log).1 = Ok (fold_left (fun acc rule => f rule acc) rs result).
Proof.
  intros Hc. revert result log. induction rs as [| rule rest IH]; intros result log Hf;
    simpl; [done |].
  rewrite (Hf rule) by (by left).
  assert (Hrest : forall l,
            (apply_rules cfg rest (f rule result) l).1
            = Ok (fold_left (fun acc rule => f rule acc) rest (f rule result))).
  { intros l. apply IH. intros r Hr. apply Hf. by right. }
  destruct (enableValidation cfg), (throwOnValidationError cfg),
    (isValidMCPMessage (f rule result)); simpl in *; try done; apply Hrest.
Qed.

(** X19: unless validation is on and set to throw, [translate] over rules
    whose transforms do not fail is the composition of the transforms of
    the rules that apply to the message, in registration order: what the
    validation finds changes nothing. *)
Theorem lenient_translation_composes t message (f : TranslationRule -> json -> json) :
  enableValidation (config t) && throwOnValidationError (config t) = false ->
  (forall rule, In rule (rules t) -> forall m, transform rule m = Ok (f rule m)) ->
  (translate t message).1
  = Ok (fold_left (fun acc rule => f rule acc)
          (List.filter (fun rule => condition rule message) (rules t)) message).
Proof.
  intros Hc Hf. unfold translate.
  destruct (List.filter (fun rule => condition rule message) (rules t))
    as [| rule rest] eqn:E; [done |].
  cbn [length Nat.eqb]. apply apply_rules_lenient; [done |].
  intros r Hr. apply Hf. rewrite <- E in Hr. by apply List.filter_In in Hr as [Hr _].
Qed.

(** *** Removing a rule *)

Lemma remove_first_splits n rs :
  match remove_first n rs with
  | Some rs' =>
      exists pre rule post,
        rs = pre ++ rule :: post /\ name rule = n /\
        (forall x, In x pre -> name x <> n) /\ rs' = pre ++ post
  | None => forall x, In x rs -> name x <> n
  end.
Proof.
  induction rs as [| r rs IH]; simpl; [done |].
  destruct (String.eqb_spec (name r) n) as [Heq | Hne].
  - exists [], r, rs. done.
  - destruct (remove_first n rs) as [rs' |].
    + destruct IH as (pre & rule & post & -> & Hn & Hpre & ->).
      exists (r :: pre), rule, post. repeat split; [done |].
      intros x [<- | Hx]; [done | by apply Hpre].
    + intros x [<- | Hx]; [done | by apply IH].
Qed.

(** X20: [removeRule] answers whether a rule of that name is registered,
    and removes the first such rule and no other: later rules of the same
    name stay, and so does the order of all the others. *)
Theorem removeRule_removes_the_first t n :
  (removeRule t n).1 = hasRule t n /\
  (hasRule t n = false -> (removeRule t n).2 = t) /\
  (hasRule t n = true ->
   exists pre rule post,
     rules t = pre ++ rule :: post /\ name rule = n /\
     (forall x, In x pre -> name x <> n) /\
     rules (removeRule t n).2 = pre ++ post /\
     config (removeRule t n).2 = config t).
Proof.
  unfold removeRule, hasRule. pose proof (remove_first_splits n (rules t)) as H.
  destruct (remove_first n (rules t)) as [rs' |]; simpl.
  - destruct H as (pre & rule & post & Hrs & Hn & Hpre & ->).
    assert (Hhas : existsb (fun rule => String.eqb (name rule) n) (rules t) = true).
    { apply existsb_exists. exists rule. split; [rewrite Hrs; apply in_elt |].
      by apply String.eqb_eq. }
    rewrite Hhas. split; [done |]. split; [done |]. intros _.
    exists pre, rule, post. done.
  - assert (Hhas : existsb (fun rule => String.eqb (name rule) n) (rules t) = false).
    { apply not_true_is_false. intros (x & Hx & Heq)%existsb_exists.
      apply String.eqb_eq in Heq. by apply (H x). }
    rewrite Hhas. done.
Qed.

(** *** The common translator *)

Lemma assoc_set_eq k v ps : assoc k (assoc_set k v ps) = Some v.
Proof.
  induction ps as [| [k' v'] ps IH]; simpl.
  - by rewrite String.eqb_refl.
  - destruct (String.eqb k k') eqn:E; simpl; [by rewrite String.eqb_refl | by rewrite E].
Qed.

Lemma assoc_set_ne k k' v ps : k' <> k -> assoc k' (assoc_set k v ps) = assoc k' ps.
Proof.
  intros Hne. induction ps as [| [k0 v0] ps IH]; simpl.
  - by apply String.eqb_neq in Hne as ->.
  - destruct (String.eqb_spec k k0) as [<- | Hk]; simpl.
    + by apply String.eqb_neq in Hne as ->.
    + by rewrite IH.
Qed.

Lemma prop_set_eq k v ps : prop k (JObj (assoc_set k v ps)) = Some v.
Proof. apply assoc_set_eq. Qed.

Lemma prop_set_ne k k' v ps :
  k' <> k -> prop k' (JObj (assoc_set k v ps)) = prop k' (JObj ps).
Proof. apply assoc_set_ne. Qed.

(** The message kinds the validation takes. *)
Definition has_kind (message : json) : bool :=
  is_string (prop "method" message)
  || (defined (prop "id" message)
      && (defined (prop "result" message) || defined (prop "error" message))).

Lemma isValidMCPMessage_object ps :
  isValidMCPMessage (JObj ps)
  = is_str "2.0" (prop "jsonrpc" (JObj ps)) && has_kind (JObj ps).
Proof.
  unfold isValidMCPMessage, has_kind. simpl.
  destruct (is_str "2.0" (assoc "jsonrpc" ps)), (is_string (assoc "method" ps)),
    (defined (assoc "id" ps)), (defined (assoc "result" ps)),
    (defined (assoc "error" ps)); done.
Qed.

Import CommonTranslator.

(** The three rules, each applied when its condition holds of the
    message. *)
Definition normalized (generated : string) (message : json) : json :=
  let m1 :=
    if condition addJsonRpcVersion message
    then with_prop "jsonrpc" (JStr "2.0") message else message in
  let m2 :=
    if condition (addRequestId generated) message
    then with_prop "id" (JStr generated) m1 else m1 in
  if condition convertLegacyErrors message
  then with_prop "error"
         (JObj [("code", JNum (-32603));
                ("message",
                 JStr (match prop "error" m2 with
                       | Some e => ToString e
                       | None => "undefined"
                       end))]) m2
  else m2.

Lemma createCommonTranslator_normalized generated message :
  (translate (createCommonTranslator generated []) message).1
  = Ok (normalized generated message).
Proof.
  unfold translate, normalized. cbn [createCommonTranslator addRules addRule fold_left
    rules config app List.filter].
  destruct (condition addJsonRpcVersion message),
    (condition (addRequestId generated) message),
    (condition convertLegacyErrors message); cbn [length Nat.eqb]; try done;
    cbn [apply_rules transform addJsonRpcVersion addRequestId convertLegacyErrors
         enableValidation throwOnValidationError logTranslations];
    repeat match goal with
           | |- context [if ?b && negb ?v then _ else _] => destruct (b && negb v)
           end; done.
Qed.

(** X21: the translator that [createCommonTranslator] sets up never fails
    on a message that is an object.  What it returns carries the version
    tag ["2.0"], and passes the validation exactly when the message it
    was given has a method that is a string, or has an id and a result or
    an error; the method and the result are as they were. *)
Theorem common_translator_normalizes generated ps :
  let message := JObj ps in
  exists out,
    (translate (createCommonTranslator generated []) message).1 = Ok out /\
    prop "jsonrpc" out = Some (JStr "2.0") /\
    isValidMCPMessage out = has_kind message /\
    prop "method" out = prop "method" message /\
    prop "result" out = prop "result" message.
Proof.
  intros message. exists (normalized generated message).
  split; [apply createCommonTranslator_normalized |].
  unfold normalized, message.
  cbn [condition addJsonRpcVersion addRequestId convertLegacyErrors].
  set (c1 := negb (is_str "2.0" (prop "jsonrpc" (JObj ps)))).
  assert (H1 : exists ps1,
            (if c1 then with_prop "jsonrpc" (JStr "2.0") (JObj ps) else JObj ps) = JObj ps1 /\
            prop "jsonrpc" (JObj ps1) = Some (JStr "2.0") /\
            (forall k, k <> "jsonrpc" -> prop k (JObj ps1) = prop k (JObj ps))).
  { unfold c1. destruct (is_str "2.0" (prop "jsonrpc" (JObj ps))) eqn:E; simpl.
    - exists ps. split; [done |]. split; [| done].
      simpl in E. destruct (assoc "jsonrpc" ps) as [[| | | s | |] |]; try done.
      simpl in E. by apply String.eqb_eq in E as ->.
    - eexists. split; [reflexivity |]. split; [apply assoc_set_eq |].
      intros k Hk. by apply assoc_set_ne. }
  destruct H1 as (ps1 & -> & Hv1 & Hk1).
  set (c2 := match prop "method" (JObj ps) with
             | Some (JStr method) =>
                 negb (defined (prop "id" (JObj ps)))
                 && negb (String.prefix "notification/" method)
             | _ => false
             end).
  assert (H2 : exists ps2,
            (if c2 then with_prop "id" (JStr generated) (JObj ps1) else JObj ps1) = JObj ps2 /\
            prop "jsonrpc" (JObj ps2) = Some (JStr "2.0") /\
            (forall k, k <> "jsonrpc" -> k <> "id" -> prop k (JObj ps2) = prop k (JObj ps)) /\
            (defined (prop "id" (JObj ps2)) = defined (prop "id" (JObj ps))
             \/ is_string (prop "method" (JObj ps)) = true)).
  { destruct c2 eqn:E2.
    - eexists. split; [reflexivity |]. split; [by rewrite prop_set_ne |].
      split.
      + intros k Hk Hid. rewrite prop_set_ne by done. by apply Hk1.
      + right. unfold c2 in E2. by destruct (prop "method" (JObj ps)) as [[] |].
    - exists ps1. split; [done |]. split; [done |]. split.
      + intros k Hk _. by apply Hk1.
      + left. by rewrite Hk1. }
  destruct H2 as (ps2 & -> & Hv2 & Hk2 & Hid2).
  set (c3 := truthy (prop "error" (JObj ps)) && is_string (prop "error" (JObj ps))).
  assert (H3 : exists ps3,
            (if c3
             then with_prop "error"
                    (JObj [("code", JNum (-32603));
                           ("message",
                            JStr (match prop "error" (JObj ps2) with
                                  | Some e => ToString e
                                  | None => "undefined"
                                  end))]) (JObj ps2)
             else JObj ps2) = JObj ps3 /\
            prop "jsonrpc" (JObj ps3) = Some (JStr "2.0") /\
            prop "method" (JObj ps3) = prop "method" (JObj ps) /\
            prop "result" (JObj ps3) = prop "result" (JObj ps) /\
            prop "id" (JObj ps3) = prop "id" (JObj ps2) /\
            defined (prop "error" (JObj ps3)) = defined (prop "error" (JObj ps))).
  { destruct c3 eqn:E3.
    - eexists. split; [reflexivity |].
      rewrite (prop_set_ne "error" "jsonrpc"), (prop_set_ne "error" "method"),
        (prop_set_ne "error" "result"), (prop_set_ne "error" "id") by done.
      rewrite prop_set_eq, (Hk2 "method"), (Hk2 "result") by done.
      repeat split; try done.
      unfold c3 in E3. by destruct (prop "error" (JObj ps)).
    - exists ps2. split; [done |].
      rewrite (Hk2 "method"), (Hk2 "result"), (Hk2 "error") by done. done. }
  destruct H3 as (ps3 & -> & Hv3 & Hm3 & Hr3 & Hi3 & He3).
  split; [done |]. split; [| done].
  rewrite isValidMCPMessage_object, Hv3. simpl is_str. unfold has_kind.
  rewrite Hm3, Hr3, He3, Hi3.
  destruct Hid2 as [-> | ->]; [done |]. done.
Qed.

(** *** The theorems at translators *)

Definition strict : MessageTranslator :=
  addRule (mkTranslator [] (mkConfig true true false)) addJsonRpcVersion.

Lemma strict_translation_gives_valid_messages_witness :
  translate strict (JObj [("method", JStr "ping")])
  = (Ok (JObj [("method", JStr "ping"); ("jsonrpc", JStr "2.0")]), []) /\
  isValidMCPMessage (JObj [("method", JStr "ping"); ("jsonrpc", JStr "2.0")]) = true.
Proof.
  split; [reflexivity |].
  destruct (strict_translation_gives_valid_messages strict (JObj [("method", JStr "ping")])
              (JObj [("method", JStr "ping"); ("jsonrpc", JStr "2.0")]) []
              eq_refl eq_refl eq_refl) as [[H _] | [_ H]].
  - discriminate H.
  - exact H.
Defined.

(** In strict mode a rule that leaves the message without a kind makes
    the translation fail. *)
Example strict_translation_refuses :
  translate strict (JObj [("params", JNum 1)])
  = (Throw (error "Translation rule 'addJsonRpcVersion' produced invalid message"), []).
Proof. reflexivity. Qed.

Definition result_of (rule : TranslationRule) (m : json) : json :=
  match transform rule m with Ok m' => m' | Throw _ => m end.

Lemma lenient_translation_composes_witness :
  (translate translator0 (JObj [("params", JNum 1)])).1
  = Ok (JObj [("params", JNum 1); ("jsonrpc", JStr "2.0")]).
Proof.
  rewrite (lenient_translation_composes translator0 (JObj [("params", JNum 1)]) result_of).
  - reflexivity.
  - reflexivity.
  - intros rule [<- | [<- | []]] m; reflexivity.
Defined.

Lemma common_translator_normalizes_witness :
  exists out,
    (translate (createCommonTranslator "req_1" [])
       (JObj [("method", JStr "tools/list"); ("error", JStr "old")])).1 = Ok out /\
    isValidMCPMessage out = true.
Proof.
  destruct (common_translator_normalizes "req_1"
              [("method", JStr "tools/list"); ("error", JStr "old")])
    as (out & Hout & _ & Hvalid & _).
  exists out. split; [exact Hout | exact Hvalid].
Defined.

Example common_translator_run :
  (translate (createCommonTranslator "req_1" [])
     (JObj [("method", JStr "tools/list"); ("error", JStr "old")])).1
  = Ok (JObj [("method", JStr "tools/list");
              ("error", JObj [("code", JNum (-32603)); ("message", JStr "old")]);
              ("jsonrpc", JStr "2.0"); ("id", JStr "req_1")]).
Proof. reflexivity. Qed.

End TranslatorRuns.

(** ** The metrics record: counting *)

Module TransportRuns.
Import Transport TransportFacts.

Definition is_sent (a : activity) : bool :=
  match a with Sent _ => true | _ => false end.

Definition is_received (a : activity) : bool :=
  match a with Received _ => true | _ => false end.

Definition is_failed (a : activity) : bool :=
  match a with Failed => true | _ => false end.

Definition count (p : activity -> bool) (acts : list activity) : Z :=
  Z.of_nat (length (List.filter p acts)).

(** The time of the last message sent or received, [now0] if there was
    none. *)
Definition last_active (now0 : Z) (acts : list activity) : Z :=
  fold_left (fun l a => match a with Sent now | Received now => now | _ => l end)
    acts now0.

Lemma count_snoc p acts a :
  count p (acts ++ [a]) = count p acts + (if p a then 1 else 0).
Proof.
  unfold count. rewrite List.filter_app, length_app. simpl.
  destruct (p a); simpl; lia.
Qed.

Lemma heap_ok_act t a : heap_ok t -> heap_ok (act t a) /\ metrics (act t a) = metrics t.
Proof.
  intros Hok. destruct a as [now | now | | | | h | h | h]; cbn [act].
  - unfold incrementSentMessages.
    set (t1 := update_record (metrics t) _ t).
    assert (Hok1 : heap_ok t1) by (apply heap_ok_update; [done | auto]).
    pose proof (heap_ok_new_date now t1 Hok1) as Hok2.
    unfold new_date in *. simpl in Hok2. cbn zeta. simpl. split; [| done].
    apply heap_ok_update; [done |]. simpl. intros. lia.
  - unfold handleMessage.
    set (t1 := update_record (metrics t) _ t).
    assert (Hok1 : heap_ok t1) by (apply heap_ok_update; [done | auto]).
    pose proof (heap_ok_new_date now t1 Hok1) as Hok2.
    unfold new_date in *. simpl in Hok2. cbn zeta. simpl. split; [| done].
    apply heap_ok_call_all, heap_ok_update; [done |]. simpl. intros. lia.
  - unfold handleError. split; [| done].
    apply heap_ok_call_all, heap_ok_update; [done | auto].
  - done.
  - unfold getMetrics. destruct Hok as (Hrec & Hdate & [m Hm]). rewrite Hm.
    unfold new_record. simpl. split; [| done].
    apply (heap_ok_new_record m t); [done |]. by destruct (Hrec _ _ Hm).
  - done.
  - done.
  - done.
Qed.

Lemma read_act t a s r e c l :
  heap_ok t ->
  read t (metrics t) = Some (s, r, e, c, Some l) ->
  read (act t a) (metrics t)
  = Some (s + (if is_sent a then 1 else 0), r + (if is_received a then 1 else 0),
          e + (if is_failed a then 1 else 0), c,
          Some (match a with Sent now | Received now => now | _ => l end)).
Proof.
  intros Hok Hread. pose proof Hok as (Hrec & Hdate & _).
  unfold read in Hread. destruct (records t !! metrics t) as [m |] eqn:Hm; [| done].
  injection Hread as <- <- <- <- Hl.
  destruct (Hrec _ _ Hm) as [Hlt Hlast].
  destruct a as [now | now | | | | h | h | h]; cbn [act is_sent is_received is_failed].
  - unfold read, incrementSentMessages, update_record, new_date. simpl.
    rewrite !lookup_alter_eq, Hm. simpl. rewrite lookup_insert_eq.
    repeat f_equal; lia.
  - unfold read, handleMessage, call_all, update_record, new_date. simpl.
    rewrite !lookup_alter_eq, Hm. simpl. rewrite lookup_insert_eq.
    repeat f_equal; lia.
  - unfold read, handleError, call_all, update_record. simpl.
    rewrite !lookup_alter_eq, Hm. simpl. rewrite Hl. repeat f_equal; lia.
  - unfold read, handleClose, call_all. simpl. rewrite Hm, Hl. repeat f_equal; lia.
  - unfold read, getMetrics. rewrite Hm. unfold new_record. simpl.
    rewrite lookup_insert_ne by lia. rewrite Hm, Hl. repeat f_equal; lia.
  - unfold read, onMessage. simpl. rewrite Hm, Hl. repeat f_equal; lia.
  - unfold read, onError. simpl. rewrite Hm, Hl. repeat f_equal; lia.
  - unfold read, onClose. simpl. rewrite Hm, Hl. repeat f_equal; lia.
Qed.

(** X22: the metrics of a channel count what has happened to it.
    Whatever the channel has done since it was built at [now0] - sends,
    receipts, errors, closes, reads of its metrics, subscriptions, in any
    order - its record reads: as many messages sent as [Sent]
    activities, as many received as [Received], as many errors as
    [Failed], the connection time [now0], and as last activity the time of
    the last send or receipt. *)
Theorem metrics_count_what_happened now0 acts :
  let t := fold_left act acts (constructor now0) in
  read t (metrics t)
  = Some (count is_sent acts, count is_received acts, count is_failed acts, now0,
          Some (last_active now0 acts)).
Proof.
  simpl.
  assert (H : heap_ok (fold_left act acts (constructor now0)) /\
              metrics (fold_left act acts (constructor now0)) = 1%nat /\
              read (fold_left act acts (constructor now0)) 1%nat
              = Some (count is_sent acts, count is_received acts, count is_failed acts,
                      now0, Some (last_active now0 acts))).
  { induction acts as [| a acts IH] using rev_ind.
    - split; [apply heap_ok_constructor |]. split; [done |]. reflexivity.
    - destruct IH as (Hok & Hm & Hread). rewrite fold_left_app. simpl.
      destruct (heap_ok_act _ a Hok) as [Hok' Hm']. split; [done |].
      split; [congruence |]. rewrite <- Hm in Hread |- *.
      rewrite (read_act _ a _ _ _ _ _ Hok Hread), !count_snoc.
      unfold last_active. by rewrite fold_left_app. }
  destruct H as (_ & -> & H). exact H.
Qed.

(** A channel that has sent twice, received once and failed once, with
    reads of its metrics in between. *)
Lemma metrics_count_what_happened_witness :
  let t := fold_left act [Sent 10; MetricsRead; Received 20; Failed; Sent 30; MetricsRead]
             (constructor 5) in
  read t (metrics t) = Some (2, 1, 1, 5, Some 30).
Proof. apply (metrics_count_what_happened 5). Defined.

End TransportRuns.

(** ** The output of a container: framing *)

Module StdioFacts.
Import Codec Stdio.

(** *** Splitting *)

Lemma split_nonempty s : split s <> [].
Proof.
  destruct s as [| c s]; simpl; [done |].
  destruct (Ascii.eqb c line_feed); [done |]. by destruct (split s).
Qed.

Lemma removelast_cons {A} (x : A) l : l <> [] -> removelast (x :: l) = x :: removelast l.
Proof. by destruct l. Qed.

Lemma last_cons_nonempty {A} (x : A) l : l <> [] -> last (x :: l) = last l.
Proof. by destruct l. Qed.

(** Text that arrives later goes on from the last piece. *)
Lemma split_app a b :
  split (a +:+ b)
  = removelast (split a) ++ split (default EmptyString (last (split a)) +:+ b).
Proof.
  induction a as [| c a IH]; [done |].
  change (String c a +:+ b) with (String c (a +:+ b)). cbn [split].
  pose proof (split_nonempty a) as Hne.
  destruct (Ascii.eqb c line_feed) eqn:Ec.
  - rewrite IH, removelast_cons, last_cons_nonempty by done. done.
  - rewrite IH. destruct (split a) as [| l [| l2 ls]] eqn:Ea; [done | |].
    + cbn [removelast last default app]. unfold id.
      change (String c l +:+ b) with (String c (l +:+ b)). cbn [split]. by rewrite Ec.
    + rewrite (removelast_cons l) by done. rewrite (removelast_cons (String c l)) by done.
      rewrite !last_cons_nonempty by done. done.
Qed.

Lemma last_app_nonempty {A} (l1 l2 : list A) : l2 <> [] -> last (l1 ++ l2) = last l2.
Proof.
  intros Hne. induction l1 as [| x l1 IH]; [done |].
  change ((x :: l1) ++ l2) with (x :: (l1 ++ l2)).
  rewrite last_cons_nonempty; [done |]. by destruct l1, l2.
Qed.

(** *** Reading *)

(** The messages read from complete lines. *)
Definition reads (lines : list string) : list json :=
  handled (fold_left processLine lines (mkContainer EmptyString [])).

Lemma fold_processLine lines c :
  fold_left processLine lines c = mkContainer (buffer c) (handled c ++ reads lines).
Proof.
  unfold reads. revert c. induction lines as [| line lines IH]; intros c; simpl.
  - rewrite app_nil_r. by destruct c.
  - rewrite IH. rewrite (IH (processLine _ line)).
    unfold processLine. destruct (trim line); simpl; [done |].
    destruct (deserialize _); simpl; [| done]. by rewrite <- app_assoc.
Qed.

Lemma reads_app l1 l2 : reads (l1 ++ l2) = reads l1 ++ reads l2.
Proof.
  unfold reads at 1. rewrite fold_left_app.
  rewrite (fold_processLine l1), (fold_processLine l2). done.
Qed.

Lemma on_data_reads c data :
  on_data c data
  = mkContainer (default EmptyString (last (split (buffer c +:+ data))))
      (handled c ++ reads (removelast (split (buffer c +:+ data)))).
Proof. unfold on_data, processBuffer. by rewrite fold_processLine. Qed.

Lemma on_data_app c data1 data2 :
  on_data (on_data c data1) data2 = on_data c (data1 +:+ data2).
Proof.
  rewrite (on_data_reads c (data1 +:+ data2)), <- JsonRoundTrip.append_assoc, split_app.
  rewrite (on_data_reads (on_data c data1)), (on_data_reads c data1). simpl.
  pose proof (split_nonempty
                (default EmptyString (last (split (buffer c +:+ data1))) +:+ data2)) as Hne.
  rewrite last_app_nonempty, removelast_app by done.
  by rewrite reads_app, app_assoc.
Qed.

(** The text that chunks make up. *)
Definition text (chunks : list string) : string := fold_right String.append EmptyString chunks.

Lemma on_data_text c data chunks :
  fold_left on_data (data :: chunks) c = on_data c (text (data :: chunks)).
Proof.
  revert c data. induction chunks as [| data' chunks IH]; intros c data.
  - simpl. by rewrite JsonRoundTrip.append_nil_r.
  - change (fold_left on_data (data :: data' :: chunks) c)
      with (fold_left on_data (data' :: chunks) (on_data c data)).
    rewrite IH, on_data_app. done.
Qed.


(** *** Lines written by [send] *)

Fixpoint lf_free (s : string) : bool :=
  match s with
  | EmptyString => true
  | String c s' => negb (Ascii.eqb c line_feed) && lf_free s'
  end.

Lemma lf_free_app s1 s2 : lf_free (s1 +:+ s2) = lf_free s1 && lf_free s2.
Proof.
  induction s1 as [| c s1 IH]; [done |].
  change (String c s1 +:+ s2) with (String c (s1 +:+ s2)). simpl.
  by rewrite IH, andb_assoc.
Qed.

Lemma lf_free_escape c : lf_free (escape c) = true.
Proof. destruct c as [[] [] [] [] [] [] [] []]; reflexivity. Qed.

Lemma lf_free_quote s : lf_free (quote s) = true.
Proof.
  unfold quote. cbn [lf_free]. rewrite lf_free_app. simpl.
  rewrite andb_true_r. induction s as [| c s IH]; [done |]. simpl.
  by rewrite lf_free_app, lf_free_escape, IH.
Qed.

Lemma lf_free_uint d : lf_free (NilEmpty.string_of_uint d) = true.
Proof. induction d; simpl; done. Qed.

Lemma lf_free_string_of_Z n : lf_free (string_of_Z n) = true.
Proof.
  unfold string_of_Z, NilZero.string_of_int, NilZero.string_of_uint.
  destruct (Z.to_int n) as [d | d]; destruct d; simpl; try done; apply lf_free_uint.
Qed.

Lemma lf_free_stringify v : lf_free (stringify v) = true.
Proof.
  induction v as [| [] | n | s | xs IH | ps IH] using json_nested_ind; try done.
  - apply lf_free_string_of_Z.
  - apply lf_free_quote.
  - rewrite JsonRoundTrip.stringify_arr. cbn [lf_free]. simpl.
    induction IH as [| x xs Hx _ IHxs]; [done |].
    destruct xs as [| y xs].
    + cbn [JsonRoundTrip.stringify_elems]. by rewrite lf_free_app, Hx.
    + change (JsonRoundTrip.stringify_elems (x :: y :: xs))
        with (stringify x +:+ "," +:+ JsonRoundTrip.stringify_elems (y :: xs)).
      by rewrite !lf_free_app, Hx, IHxs.
  - rewrite JsonRoundTrip.stringify_obj. cbn [lf_free]. simpl.
    induction IH as [| [k x] ps Hx _ IHps]; [done |]. simpl in Hx.
    destruct ps as [| q ps].
    + cbn [JsonRoundTrip.stringify_members].
      by rewrite !lf_free_app, lf_free_quote, Hx.
    + change (JsonRoundTrip.stringify_members ((k, x) :: q :: ps))
        with (quote k +:+ ":" +:+ stringify x +:+ ","
              +:+ JsonRoundTrip.stringify_members (q :: ps)).
      by rewrite !lf_free_app, lf_free_quote, Hx, IHps.
Qed.

(** The line [ContainerManager.send] writes for a message. *)
Definition line (message : json) : string := serialize message +:+ Pool.newline.

Lemma split_line l rest :
  lf_free l = true -> split (l +:+ Pool.newline +:+ rest) = l :: split rest.
Proof.
  induction l as [| c l IH]; [done |]. simpl. intros [Hc Hl]%andb_prop.
  change (String c l +:+ Pool.newline +:+ rest)
    with (String c (l +:+ Pool.newline +:+ rest)).
  cbn [split]. apply negb_true_iff in Hc. rewrite Hc, IH by done. done.
Qed.

Lemma split_lines (messages : list json) :
  split (text (map line messages)) = map serialize messages ++ [EmptyString].
Proof.
  induction messages as [| m messages IH]; [done |].
  cbn [map text fold_right]. fold (text (map line messages)).
  unfold line at 1. rewrite JsonRoundTrip.append_assoc, split_line, IH; [done |].
  apply lf_free_stringify.
Qed.

(** *** Trimming *)

Lemma trimEnd_closed s c :
  is_white_space c = false ->
  trimEnd (s +:+ String c EmptyString) = s +:+ String c EmptyString.
Proof.
  intros Hc. induction s as [| c0 s IH].
  - simpl. by rewrite Hc.
  - change (String c0 s +:+ String c EmptyString)
      with (String c0 (s +:+ String c EmptyString)).
    cbn [trimEnd]. rewrite IH.
    destruct s; done.
Qed.

Lemma stringify_members_end ps :
  exists s, JsonRoundTrip.stringify_members ps = s +:+ "}".
Proof.
  induction ps as [| [k x] ps IH]; [by exists EmptyString |].
  destruct ps as [| q ps].
  - exists (quote k +:+ ":" +:+ stringify x). cbn [JsonRoundTrip.stringify_members].
    by rewrite !JsonRoundTrip.append_assoc.
  - destruct IH as [s Hs].
    exists (quote k +:+ ":" +:+ stringify x +:+ "," +:+ s).
    change (JsonRoundTrip.stringify_members ((k, x) :: q :: ps))
      with (quote k +:+ ":" +:+ stringify x +:+ ","
            +:+ JsonRoundTrip.stringify_members (q :: ps)).
    by rewrite Hs, !JsonRoundTrip.append_assoc.
Qed.

(** The text of an object has no white space around it. *)
Lemma trim_object ps :
  trim (serialize (JObj ps)) = serialize (JObj ps) /\
  serialize (JObj ps) <> EmptyString.
Proof.
  unfold serialize, JSON_stringify. rewrite JsonRoundTrip.stringify_obj.
  split; [| done]. unfold trim. cbn [trimStart]. change (is_white_space "{") with false.
  cbv iota. destruct (stringify_members_end ps) as [s ->].
  change (String "{" (s +:+ "}")) with (String "{" s +:+ "}").
  by apply trimEnd_closed.
Qed.

(** What the adapter accepts and can print and read again. *)
Definition sendable (message : json) : Prop := validate message = true /\ wf message.

Lemma processLine_serialize c message :
  sendable message ->
  processLine c (serialize message) = mkContainer (buffer c) (handled c ++ [message]).
Proof.
  intros [Hv Hwf].
  assert (Hobj : exists ps, message = JObj ps).
  { apply CodecFacts.tagged_is_object. by apply CodecFacts.validate_true in Hv as [Ht _]. }
  destruct Hobj as [ps ->]. unfold processLine.
  destruct (trim_object ps) as [-> Hne].
  destruct (serialize (JObj ps)) as [| c0 s0] eqn:Es; [done |]. rewrite <- Es.
  unfold deserialize, serialize.
  rewrite (JsonRoundTrip.parse_stringify (JObj ps) Hwf). by rewrite Hv.
Qed.

Lemma reads_serialize messages :
  Forall sendable messages -> reads (map serialize messages) = messages.
Proof.
  induction 1 as [| m messages Hm _ IH]; [done |].
  change (map serialize (m :: messages)) with ([serialize m] ++ map serialize messages).
  rewrite reads_app, IH. unfold reads. simpl. by rewrite processLine_serialize.
Qed.


(** *** The theorems at a stream *)

Definition ready : json :=
  JObj [("jsonrpc", JStr "2.0"); ("method", JStr "ready")].

Definition answer : json :=
  JObj [("jsonrpc", JStr "2.0"); ("id", JNum 1); ("result", JArr [JStr "a"; JStr "b"])].

Definition idle : ContainerManager := mkContainer EmptyString [].

(** The two lines, cut after 10 and after 40 characters. *)
Definition cut : list string :=
  let t := text [line ready; line answer] in
  [String.substring 0 10 t; String.substring 10 30 t;
   String.substring 40 (String.length t - 40) t].

Lemma sendable_ready : sendable ready.
Proof. split; [reflexivity |]. simpl. repeat split; by apply (bool_decide_unpack _). Qed.

Lemma sendable_answer : sendable answer.
Proof. split; [reflexivity |]. simpl. repeat split; by apply (bool_decide_unpack _). Qed.



(** A blank line and a line that is no message are passed over, and the
    text after the last line feed waits for the rest of its line. *)
Example lines_passed_over :
  on_data idle (Pool.newline +:+ "not json" +:+ Pool.newline +:+ line ready +:+ "{")
  = mkContainer "{" [ready].
Proof. vm_compute. reflexivity. Qed.

End StdioFacts.

(** ** The sessions of the HTTP transport *)

Module SessionsFacts.
Import Sessions.

(** What can happen to a manager, one whole call each. *)
Inductive event : Type :=
| EvCreate (sessionId : option string) (generated : string) (connected : outcome unit)
    (now : Z)
| EvGet (sessionId : string) (now : Z)
| EvSend (sessionId : string) (sent reconnected resent : outcome unit) (now later : Z)
| EvRemove (sessionId : string)
| EvCleanup (now : Z)
| EvClose.

Definition step (m : SessionManager) (ev : event) : SessionManager :=
  match ev with
  | EvCreate sessionId generated connected now =>
      (createSession m sessionId generated connected now).2
  | EvGet sessionId now => (getSession m sessionId now).2
  | EvSend sessionId sent reconnected resent now later =>
      (sendMessage m sessionId sent reconnected resent now later).2
  | EvRemove sessionId => removeSession m sessionId
  | EvCleanup now => cleanupExpiredSessions m now
  | EvClose => close m
  end.

Definition run (cfg : SessionConfig) (evs : list event) : SessionManager :=
  fold_left step evs (new_manager cfg).

(** No more sessions than the configuration allows. *)
Definition within_limit (m : SessionManager) : Prop :=
  Z.of_nat (getSessionCount m) <= Z.max 0 (maxSessions (sessionConfig m)).

Lemma size_delete_le k (ss : gmap string Session) : (size (delete k ss) <= size ss)%nat.
Proof. rewrite map_size_delete. destruct (ss !! k); simpl; lia. Qed.

Lemma fold_removeSession ids m :
  sessionConfig (fold_left removeSession ids m) = sessionConfig m /\
  cleanupTimer (fold_left removeSession ids m) = cleanupTimer m /\
  (forall k, sessions (fold_left removeSession ids m) !! k
             = if bool_decide (k ∈ ids) then None else sessions m !! k) /\
  (size (sessions (fold_left removeSession ids m)) <= size (sessions m))%nat.
Proof.
  revert m. induction ids as [| i ids IH]; intros m; cbn [fold_left].
  - split; [done |]. split; [done |]. split; [| lia].
    intros k. rewrite bool_decide_eq_false_2; [done |]. apply not_elem_of_nil.
  - destruct (IH (removeSession m i)) as (H1 & H2 & H3 & H4).
    rewrite H1, H2. split; [done |]. split; [done |]. split.
    + intros k. rewrite H3. simpl.
      destruct (decide (k = i)) as [-> | Hne].
      * rewrite lookup_delete_eq. rewrite (bool_decide_eq_true_2 (i ∈ i :: ids)) by left.
        by destruct (bool_decide (i ∈ ids)).
      * rewrite lookup_delete_ne by done.
        destruct (bool_decide (k ∈ ids)) eqn:E.
        -- apply bool_decide_eq_true_1 in E.
           rewrite bool_decide_eq_true_2; [done | by right].
        -- apply bool_decide_eq_false_1 in E.
           rewrite bool_decide_eq_false_2; [done |].
           by intros [? | ?]%elem_of_cons.
    + etrans; [exact H4 |]. simpl. apply size_delete_le.
Qed.

Lemma sessionConfig_step m ev : sessionConfig (step m ev) = sessionConfig m.
Proof.
  destruct ev; cbn [step].
  - unfold createSession.
    destruct (createSession_begin m sessionId generated); [| done].
    by destruct connected.
  - unfold getSession. by destruct (sessions m !! sessionId).
  - unfold sendMessage, getSession.
    destruct (sessions m !! sessionId) as [s |]; [| done]. simpl.
    destruct (transport s); simpl.
    + by destruct sent.
    + destruct reconnected; [| done]. by destruct resent.
  - done.
  - apply fold_removeSession.
  - unfold close. cbn zeta.
    set (m1 := mkManager (sessionConfig m) (sessions m) false).
    by destruct (fold_removeSession (map_to_list (sessions m1)).*1 m1) as [-> _].
Qed.

Lemma size_getSession m sessionId now :
  size (sessions (getSession m sessionId now).2) = size (sessions m).
Proof.
  unfold getSession. destruct (sessions m !! sessionId) as [s |] eqn:E; [| done].
  simpl. apply map_size_insert_Some. eauto.
Qed.

Lemma size_alter (f : Session -> Session) k (ss : gmap string Session) :
  size (alter f k ss) = size ss.
Proof. by rewrite <- !(size_dom (D := gset string)), dom_alter_L. Qed.

Lemma within_limit_step m ev : within_limit m -> within_limit (step m ev).
Proof.
  unfold within_limit, getSessionCount. rewrite sessionConfig_step. intros H.
  assert (Hle : forall m', (size (sessions m') <= size (sessions m))%nat ->
                  Z.of_nat (size (sessions m')) <= Z.max 0 (maxSessions (sessionConfig m)))
    by (intros m' Hm'; lia).
  destruct ev; cbn [step].
  - unfold createSession, createSession_begin.
    set (id := match sessionId with
               | Some s => if String.eqb s EmptyString then generated else s
               | None => generated
               end).
    destruct (bool_decide (is_Some (sessions m !! id))) eqn:Ehas; [done |].
    apply bool_decide_eq_false_1 in Ehas.
    destruct (Z.leb_spec (maxSessions (sessionConfig m)) (Z.of_nat (size (sessions m))));
      [done |].
    destruct connected; [| done]. simpl.
    rewrite map_size_insert_None; [lia |].
    destruct (sessions m !! id) eqn:E; [| done]. destruct Ehas. eauto.
  - apply Hle. by rewrite size_getSession.
  - apply Hle. unfold sendMessage.
    pose proof (size_getSession m sessionId now) as Hg.
    destruct (getSession m sessionId now) as [[s |] m1]; simpl in *; [| lia].
    assert (Hdel : (size (sessions (removeSession m1 sessionId)) <= size (sessions m))%nat).
    { rewrite <- Hg. apply size_delete_le. }
    destruct (transport s); simpl.
    + destruct sent; simpl; [rewrite size_alter |]; lia.
    + destruct reconnected; [| done].
      destruct resent; simpl; [rewrite size_alter; lia | done].
  - apply Hle. apply size_delete_le.
  - apply Hle. apply fold_removeSession.
  - apply Hle. unfold close. cbn zeta.
    set (m1 := mkManager (sessionConfig m) (sessions m) false).
    by destruct (fold_removeSession (map_to_list (sessions m1)).*1 m1) as (_ & _ & _ & ?).
Qed.

(** X25: as long as no two calls of the manager overlap, it never holds
    more sessions than [maxSessions] (none, where that is negative),
    whatever is created, used, removed and swept. *)
Theorem sessions_stay_within_the_limit cfg evs :
  Z.of_nat (getSessionCount (run cfg evs)) <= Z.max 0 (maxSessions cfg).
Proof.
  assert (H : within_limit (run cfg evs) /\ sessionConfig (run cfg evs) = cfg).
  { unfold run. induction evs as [| ev evs IH] using rev_ind.
    - split; [| done]. unfold within_limit, getSessionCount.
      cbn [fold_left new_manager sessions sessionConfig]. rewrite map_size_empty. lia.
    - rewrite fold_left_app. simpl. destruct IH as [IH1 IH2].
      split; [by apply within_limit_step | by rewrite sessionConfig_step]. }
  destruct H as [H Hc]. unfold within_limit in H. by rewrite Hc in H.
Qed.

(** Why X25 asks that calls do not overlap: the limit is checked before
    the transport connects and the session is stored after, so two
    creations that overlap both pass the check. *)
Example overlapping_creations_exceed_the_limit :
  let m := new_manager (mkSessionConfig 1 60000 30000) in
  createSession_begin m (Some "a") "g1" = Ok "a" /\
  createSession_begin m (Some "b") "g2" = Ok "b" /\
  let m1 := (createSession_finish m "a" (Ok tt) 10).2 in
  let m2 := (createSession_finish m1 "b" (Ok tt) 11).2 in
  getSessionCount m2 = 2%nat.
Proof. repeat split. Qed.

(** X26: the sweep removes exactly the sessions whose last activity lies
    more than [sessionTimeout] back: a session is there afterwards when it
    was there and has been active within the time-out, and then it is as
    it was. *)
Theorem sweep_removes_exactly_the_expired m now sessionId :
  sessions (cleanupExpiredSessions m now) !! sessionId
  = match sessions m !! sessionId with
    | Some session =>
        if bool_decide (now - lastActivity session <= sessionTimeout (sessionConfig m))
        then Some session else None
    | None => None
    end.
Proof.
  unfold cleanupExpiredSessions.
  set (expired := filter _ (sessions m)).
  destruct (fold_removeSession (map_to_list expired).*1 m) as (_ & _ & -> & _).
  destruct (sessions m !! sessionId) as [session |] eqn:E.
  - destruct (decide (now - lastActivity session <= sessionTimeout (sessionConfig m)))
      as [Hle | Hgt].
    + rewrite (bool_decide_eq_true_2 _ Hle). rewrite bool_decide_eq_false_2; [done |].
      intros ([k s] & -> & Hin)%list_elem_of_fmap. simpl in E.
      apply elem_of_map_to_list in Hin. unfold expired in Hin.
      apply map_lookup_filter_Some in Hin as [Hk Hs]. simpl in Hs.
      assert (s = session) as -> by congruence. lia.
    + rewrite (bool_decide_eq_false_2 _ Hgt). rewrite bool_decide_eq_true_2; [done |].
      apply list_elem_of_fmap. exists (sessionId, session). split; [done |].
      apply elem_of_map_to_list. unfold expired.
      apply map_lookup_filter_Some. split; [done |]. simpl. lia.
  - by destruct (bool_decide _).
Qed.

End SessionsFacts.
